(** * ScopeComponentsImporter: a shallow embedding and its properties

    The development follows [src/scope/component-ops/scope-components-importer.ts].
    Promises become computations in a state-and-error monad over the state of
    the scope (local object store and remotes); every call that crosses the
    boundary of the importer towards the remote or towards the writing side of
    the local store is recorded in a trace.  Recursive methods carry a fuel
    argument that bounds the depth of their recursion. *)

From Stdlib Require Import String List Bool Arith Lia.
From stdpp Require Import base gmap strings list fin_maps.
Import ListNotations.

Local Open Scope string_scope.
Local Open Scope list_scope.

(** ** Identifiers *)

(** Anything that is grouped by owning scope before a fetch: [BitId] and
    [RemoteLaneId] in the source ([groupByScopeName] takes either). *)
Class ScopedId (A : Type) := {
  scopeOf : A -> string;
  idToString : A -> string
}.

(** Modelled from the spec: [BitId] is not under src/; an Identifier is a
    triple of scope, name and version, equal to another iff the three fields
    match, and has a string form. *)
Module BitId.
Record t := mk { scope : string; name : string; version : string }.

Definition toString (id : t) : string :=
  scope id +:+ "/" +:+ name id +:+ "@" +:+ version id.

(** Modelled from the spec: [BitId.isLocal] is not under src/; an
    identifier is local iff its scope equals the importer's own scope
    name. *)
Definition isLocal (scopeName : string) (id : t) : bool :=
  String.eqb (scope id) scopeName.

Definition changeVersion (id : t) (v : string) : t :=
  mk (scope id) (name id) v.

(** Modelled from the spec: equality that ignores the version compares
    [(scope, name)] only. *)
Definition isEqualWithoutVersion (a b : t) : bool :=
  String.eqb (scope a) (scope b) && String.eqb (name a) (name b).
End BitId.

#[global] Instance BitId_eq_dec : EqDecision BitId.t.
Proof. solve_decision. Defined.

#[global] Instance BitId_scoped : ScopedId BitId.t :=
  {| scopeOf := BitId.scope; idToString := BitId.toString |}.

(** Modelled from the spec: [RemoteLaneId] is not under src/; a lane
    reference names its owning scope and the lane. *)
Module RemoteLaneId.
Record t := mk { scope : string; name : string }.
Definition toString (id : t) : string := scope id +:+ "/" +:+ name id.
End RemoteLaneId.

#[global] Instance RemoteLaneId_scoped : ScopedId RemoteLaneId.t :=
  {| scopeOf := RemoteLaneId.scope; idToString := RemoteLaneId.toString |}.

(** [removeNils = R.reject(R.isNil)]: a [BitIds] is an array of identifiers
    whose entries may be nil where the source applies [removeNils]. *)
Definition removeNils {A : Type} (l : list (option A)) : list A :=
  flat_map (fun o => match o with Some x => [x] | None => [] end) l.

Definition isEmpty {A : Type} (l : list A) : bool :=
  match l with [] => true | _ => false end.

(** Modelled from the spec: [BitIds.toString] is not under src/; the string
    form of an identifier set is made of the string forms of its
    identifiers, each asked from the entry itself: on a nil entry that
    property access fails. *)
Definition BitIds_toString (ids : list (option BitId.t)) : option string :=
  if forallb (fun o => bool_decide (is_Some o)) ids
  then Some (String.concat ", " (List.map BitId.toString (removeNils ids)))
  else None.

(** Modelled from the spec: [R.uniq] and [BitIds.uniqFromArray] are not
    under src/; de-duplication keeps the first occurrence of every element,
    in order. *)
Fixpoint uniq_from {A : Type} `{EqDecision A} (seen l : list A) : list A :=
  match l with
  | [] => []
  | x :: l' =>
      if bool_decide (x ∈ seen) then uniq_from seen l'
      else x :: uniq_from (x :: seen) l'
  end.

Definition uniq {A : Type} `{EqDecision A} (l : list A) : list A :=
  uniq_from [] l.

Definition uniqFromArray (ids : list BitId.t) : list BitId.t := uniq ids.

(** Modelled from the spec: [BitIds.hasWithoutVersion] is not under src/; the
    set holds an identifier of the same scope and name, the version being
    ignored.  Nil entries match nothing. *)
Definition hasWithoutVersion (ids : list (option BitId.t)) (id : BitId.t) : bool :=
  existsb (fun o => match o with
                    | Some i => BitId.isEqualWithoutVersion i id
                    | None => false
                    end) ids.

(** Modelled from the spec: [splitBy] of utils is not under src/; it
    partitions its list, and its one caller binds the pair to
    [[externals, locals]] for the predicate [isLocal]: the elements for which
    the predicate fails come first, those for which it holds second. *)
Definition splitBy {A : Type} (l : list A) (f : A -> bool) : list A * list A :=
  (List.filter (fun x => negb (f x)) l, List.filter f l).

(** ** Grouping by scope name *)

(** Modelled from the spec: [group-array] is a library; on the property
    [scope] it yields a map from scope name to the members of that scope, in
    their original relative order. *)
Definition groupArray {A : Type} `{ScopedId A} (ids : list A) : gmap string (list A) :=
  fold_left (fun grouped id =>
               <[scopeOf id := default [] (grouped !! scopeOf id) ++ [id]]> grouped)
            ids ∅.

Definition groupByScopeName {A : Type} `{ScopedId A} (ids : list A) : gmap string (list string) :=
  (List.map idToString) <$> groupArray ids.

(** ** Records of the object model *)

(** Modelled from the spec: [ModelComponent] is not under src/; a Component
    Record has an owning scope, a name, the ordered list of its version tags
    and an optional head pointer. *)
Module ModelComponent.
Record t := mk {
  scope : string;
  name : string;
  versions : list string;
  head : option string
}.
Definition id (c : t) : string := scope c +:+ "/" +:+ name c.
Definition listVersions (c : t) : list string := versions c.
Definition getHead (c : t) : option string := head c.
Definition toBitId (c : t) : BitId.t := BitId.mk (scope c) (name c) "".

(** Modelled from the spec: the latest version of a record is its head, the
    latest integrated version, and without a head the last of its version
    tags; a record without any version has none. *)
Definition latest (c : t) : option string :=
  match head c with
  | Some h => Some h
  | None => List.last (List.map Some (versions c)) None
  end.
End ModelComponent.

(** Modelled from the spec: [ComponentVersion] is not under src/; a record
    paired with one of its versions, whose identifier is that of the record
    at this version. *)
Module ComponentVersion.
Record t := mk { component : ModelComponent.t; version : string }.
Definition id (cv : t) : BitId.t :=
  BitId.changeVersion (ModelComponent.toBitId (component cv)) (version cv).
End ComponentVersion.

(** Modelled from the spec: [ModelComponent.toComponentVersion] is not under
    src/; it pairs the record with one concrete version: the version that is
    requested, and the latest version of the record when the request is the
    symbolic version [latest].  The spec gives the method no failure, and it
    has none here. *)
Definition toComponentVersion (c : ModelComponent.t) (v : string) : ComponentVersion.t :=
  ComponentVersion.mk c
    (if String.eqb v "latest" then default v (ModelComponent.latest c) else v).

(** Modelled from the spec: [Version] is not under src/; a Version Content
    holds the three flattened lists of dependency identifiers. *)
Module Version.
Record t := mk {
  flattenedDependencies : list BitId.t;
  flattenedDevDependencies : list BitId.t;
  extensionsBitIds : list BitId.t
}.
End Version.

(** Modelled from the spec: [VersionDependencies] is not under src/; a
    Dependency Closure Result, built by its constructor from the resolved
    component version, the three arrays of resolved dependencies and the
    origin scope. *)
Module VersionDependencies.
Record t := mk {
  component : ComponentVersion.t;
  dependencies : list ComponentVersion.t;
  devDependencies : list ComponentVersion.t;
  extensionsDependencies : list ComponentVersion.t;
  sourceScope : string
}.
Definition allDependencies (v : t) : list ComponentVersion.t :=
  dependencies v ++ devDependencies v ++ extensionsDependencies v.
End VersionDependencies.

(** Modelled from the spec: [Lane] is not under src/; a named pointer, per
    owning scope, to a set of component versions. *)
Module Lane.
Record t := mk { scope : string; name : string; components : list BitId.t }.
Definition toBitIds (l : t) : list BitId.t := components l.
End Lane.

(** Modelled from the spec: [ObjectList] and [BitObject] are not under src/;
    an Object Transfer Batch deserialises into component records, version
    contents, lanes and raw blobs. *)
Inductive BitObject :=
| ObjComponent (c : ModelComponent.t)
| ObjVersion (id : BitId.t) (v : Version.t)
| ObjLane (l : Lane.t)
| ObjBlob (hash : string).

Definition ObjectList := list BitObject.

Definition getLanes (ol : ObjectList) : list Lane.t :=
  flat_map (fun o => match o with ObjLane l => [l] | _ => [] end) ol.

Definition getAll (ol : ObjectList) : list BitObject := ol.

(** [ComponentDef] of the sources repository: an identifier and the record
    found for it, if any. *)
Record ComponentDef := mkDef {
  def_id : BitId.t;
  def_component : option ModelComponent.t
}.

(** ** Errors *)

(** The error classes that the importer throws or tests for, [TypeError] for
    a property access on [undefined], and [OtherError] for anything else a
    collaborator may throw, with its [id] property if it has one. *)
Inductive Error :=
| ComponentNotFound (id : string)
| DependencyNotFound (id : option string)
| ShowDoctorError (msg : string)
| GeneralError (msg : string)
| RemoteScopeNotFound (name : string)
| PermissionDenied (scope : string)
| TypeError (msg : string)
| OtherError (id : option string) (msg : string).

(** The [id] property read by [importDependencies] on a caught error. *)
Definition error_id (e : Error) : option string :=
  match e with
  | ComponentNotFound id => Some id
  | DependencyNotFound id => id
  | OtherError id _ => id
  | _ => None
  end.

(** ** The boundary of the importer *)

(** Options of a remote fetch: [undefined], [{ type }] or
    [{ withoutDependencies: true }]. *)
Record FetchOptions := mkOpts {
  fo_type : option string;
  fo_withoutDependencies : bool
}.

Definition opts_undefined : FetchOptions := mkOpts None false.
Definition opts_type (t : string) : FetchOptions := mkOpts (Some t) false.
Definition opts_withoutDependencies : FetchOptions := mkOpts None true.

(** The context bag handed to the remote: only [requestedBitIds] is set by
    the importer ([enrichContextFromGlobal] adds fields the importer never
    reads). *)
Definition Context := option (list string).

(** The collaborators reached through [this.scope], none of which is under
    src/: they are parameters of the importer.  Reads of the local store are
    functions of the state; the remote fetch and the writes return a new
    state, and may fail where they return a value.  [persist] of a write is
    what the importer passes, [None] for [undefined].  [getScopeRemotes] only
    hands out the remotes of the scope, which are part of the state here. *)
Record Scope (W : Type) := mkScope {
  name : string;
  sources_get : W -> BitId.t -> option ModelComponent.t;
  getVersion : W -> ComponentVersion.t -> option Version.t;
  objects_has : W -> string -> bool;
  remotes_fetch :
    gmap string (list string) -> FetchOptions -> Context -> W -> (Error + ObjectList) * W;
  scope_writeManyComponentsToModel :
    ObjectList -> option bool -> list BitId.t -> W -> (Error + list BitId.t) * W;
  objects_addMany : list BitObject -> W -> W;
  objects_persist : W -> W;
  remoteLanes_syncWithLaneObject : string -> Lane.t -> W -> W
}.

Arguments name {W} _.
Arguments sources_get {W} _ _ _.
Arguments getVersion {W} _ _ _.
Arguments objects_has {W} _ _ _.
Arguments remotes_fetch {W} _ _ _ _ _.
Arguments scope_writeManyComponentsToModel {W} _ _ _ _ _.
Arguments objects_addMany {W} _ _ _.
Arguments objects_persist {W} _ _.
Arguments remoteLanes_syncWithLaneObject {W} _ _ _ _.

(** What the importer does at its boundary. *)
Inductive Event :=
| EvFetch (grouped : gmap string (list string)) (opts : FetchOptions) (ctx : Context)
| EvWrite (objectList : ObjectList) (persist : option bool) (ids : list BitId.t)
| EvAddMany (objects : list BitObject)
| EvPersist
| EvSyncLane (scope : string) (lane : Lane.t).

Definition isFetch (e : Event) : bool :=
  match e with EvFetch _ _ _ => true | _ => false end.

(** ** The monad of the importer *)

Inductive outcome (A : Type) :=
| Ret (a : A)          (* the promise resolves *)
| Throw (e : Error)    (* the promise rejects *)
| Diverge.             (* the recursion is deeper than the fuel *)

Arguments Ret {A} a.
Arguments Throw {A} e.
Arguments Diverge {A}.

Record State (W : Type) := mkState { world : W; trace : list Event }.
Arguments mkState {W} _ _.
Arguments world {W} _.
Arguments trace {W} _.

Definition M (W A : Type) : Type := State W -> outcome A * State W.

Definition ret {W A} (a : A) : M W A := fun st => (Ret a, st).
Definition throw {W A} (e : Error) : M W A := fun st => (Throw e, st).
Definition diverge {W A} : M W A := fun st => (Diverge, st).

Definition bind {W A B} (m : M W A) (k : A -> M W B) : M W B :=
  fun st =>
    match m st with
    | (Ret a, st') => k a st'
    | (Throw e, st') => (Throw e, st')
    | (Diverge, st') => (Diverge, st')
    end.

(** [promise.catch(handler)]. *)
Definition catch {W A} (m : M W A) (h : Error -> M W A) : M W A :=
  fun st =>
    match m st with
    | (Throw e, st') => h e st'
    | r => r
    end.

Declare Scope importer_scope.
Delimit Scope importer_scope with importer.
Notation "x <- c1 ;; c2" := (bind c1 (fun x => c2))
  (at level 100, c1 at next level, right associativity) : importer_scope.
Notation "c1 ;;; c2" := (bind c1 (fun _ => c2))
  (at level 100, right associativity) : importer_scope.
Local Open Scope importer_scope.

(** [mapSeries], and [Promise.all] over callbacks without suspension points:
    the elements are processed in order and the first failure wins. *)
Fixpoint mapSeries {W A B} (f : A -> M W B) (l : list A) : M W (list B) :=
  match l with
  | [] => ret []
  | x :: l' =>
      y <- f x ;;
      ys <- mapSeries f l' ;;
      ret (y :: ys)
  end.

(** ** The importer

    The methods of [ScopeComponentsImporter], in the order of their
    dependencies.  A recursive method returns [Diverge] when its fuel is
    spent and hands the fuel it received to the methods it calls, one unit
    less to its own recursive calls.  Parameters with a default value are
    explicit: each call site passes the default where the source omits the
    argument. *)

Section Importer.
Context {W : Type} (scope : Scope W).

(** *** Calls across the boundary *)

(** [this.sources.get(id)] and [this.sources.getMany(ids)]: reads. *)
Definition sources_get_m (id : BitId.t) : M W (option ModelComponent.t) :=
  fun st => (Ret (sources_get scope (world st) id), st).

Definition sources_getMany (ids : list BitId.t) : M W (list ComponentDef) :=
  fun st =>
    (Ret (List.map (fun id => mkDef id (sources_get scope (world st) id)) ids), st).

(** [versionComp.getVersion(this.scope.objects)]: a read. *)
Definition getVersion_m (cv : ComponentVersion.t) : M W (option Version.t) :=
  fun st => (Ret (getVersion scope (world st) cv), st).

(** [remotes.fetch(grouped, this.scope, options, context)]. *)
Definition fetch (grouped : gmap string (list string)) (opts : FetchOptions)
    (ctx : Context) : M W ObjectList :=
  fun st =>
    let '(r, w') := remotes_fetch scope grouped opts ctx (world st) in
    let st' := mkState w' (trace st ++ [EvFetch grouped opts ctx]) in
    match r with
    | inl e => (Throw e, st')
    | inr objectList => (Ret objectList, st')
    end.

(** [this.scope.writeManyComponentsToModel(objectList, persist, ids)]. *)
Definition writeManyComponentsToModel (objectList : ObjectList)
    (persist : option bool) (ids : list BitId.t) : M W (list BitId.t) :=
  fun st =>
    let '(r, w') := scope_writeManyComponentsToModel scope objectList persist ids (world st) in
    let st' := mkState w' (trace st ++ [EvWrite objectList persist ids]) in
    match r with
    | inl e => (Throw e, st')
    | inr nonLaneIds => (Ret nonLaneIds, st')
    end.

Definition addMany (objects : list BitObject) : M W unit :=
  fun st =>
    (Ret tt, mkState (objects_addMany scope objects (world st))
                     (trace st ++ [EvAddMany objects])).

Definition persist_m : M W unit :=
  fun st =>
    (Ret tt, mkState (objects_persist scope (world st)) (trace st ++ [EvPersist])).

Definition syncWithLaneObject (s : string) (lane : Lane.t) : M W unit :=
  fun st =>
    (Ret tt, mkState (remoteLanes_syncWithLaneObject scope s lane (world st))
                     (trace st ++ [EvSyncLane s lane])).

(** *** Resolution without dependencies *)

(** The filter that computes [left] in both recursive resolvers. *)
Definition isLeft (localFetch : bool) (def : ComponentDef) : bool :=
  if negb localFetch then true
  else if negb (bool_decide (is_Some (def_component def))) then true
  else false.

(** [def.component.toComponentVersion(def.id.version)]; on an absent record
    the property access fails. *)
Definition defToComponentVersion (def : ComponentDef) : M W ComponentVersion.t :=
  match def_component def with
  | Some c => ret (toComponentVersion c (BitId.version (def_id def)))
  | None => throw (TypeError "Cannot read property 'toComponentVersion' of undefined")
  end.

(** [_getExternalManyWithoutDependencies(ids, remotes, localFetch)]; the
    context of every call in the source is the default [{}], to which the
    requested ids are assigned. *)
Fixpoint _getExternalManyWithoutDependencies (fuel : nat) (ids : list BitId.t)
    (localFetch : bool) : M W (list ComponentVersion.t) :=
  match fuel with
  | O => diverge
  | S fuel' =>
      if isEmpty ids then ret []
      else
        let context : Context := Some (List.map BitId.toString ids) in
        defs <- sources_getMany ids ;;
        let left := List.filter (isLeft localFetch) defs in
        if Nat.eqb (length left) 0 then mapSeries defToComponentVersion defs
        else
          objectList <- fetch (groupByScopeName (List.map def_id left))
                              opts_withoutDependencies context ;;
          nonLaneIds <- writeManyComponentsToModel objectList None ids ;;
          _getExternalManyWithoutDependencies fuel' nonLaneIds true
  end.

(** The callback of both local phases: a definition without a record is a
    [ComponentNotFound]. *)
Definition localDefToComponentVersion (def : ComponentDef) : M W ComponentVersion.t :=
  match def_component def with
  | None => throw (ComponentNotFound (BitId.toString (def_id def)))
  | Some c => ret (toComponentVersion c (BitId.version (def_id def)))
  end.

Definition importManyWithoutDependencies (fuel : nat) (ids : list (option BitId.t))
    (cache : bool) : M W (list ComponentVersion.t) :=
  if isEmpty ids then ret []
  else
    let idsWithoutNils := removeNils ids in
    if isEmpty idsWithoutNils then ret []
    else
      let '(externals, locals) := splitBy idsWithoutNils (BitId.isLocal (name scope)) in
      localDefs <- sources_getMany locals ;;
      componentVersionArr <- mapSeries localDefToComponentVersion localDefs ;;
      externalDeps <- _getExternalManyWithoutDependencies fuel externals cache ;;
      ret (componentVersionArr ++ externalDeps).

(** *** Resolution with dependencies *)

Definition versionNotFoundMessage (versionComp : ComponentVersion.t)
    (component : ModelComponent.t) : string :=
  "Version " +:+ ComponentVersion.version versionComp +:+ " of "
    +:+ ModelComponent.id component +:+ " was not found in scope " +:+ name scope.

(** [componentToVersionDependencies(component, id)] and
    [_getExternal({ id, remotes, localFetch })] call each other. *)
Fixpoint componentToVersionDependencies (fuel : nat) (component : ModelComponent.t)
    (id : BitId.t) : M W VersionDependencies.t :=
  match fuel with
  | O => diverge
  | S fuel' =>
      let versionComp := toComponentVersion component (BitId.version id) in
      let source := BitId.scope id in
      version <- getVersion_m versionComp ;;
      match version with
      | None =>
          if String.eqb (ModelComponent.scope component) (name scope)
          then throw (ShowDoctorError (versionNotFoundMessage versionComp component))
          else _getExternal fuel' id false
      | Some version =>
          dependencies <- importManyWithoutDependencies fuel
                            (List.map Some (Version.flattenedDependencies version)) true ;;
          devDependencies <- importManyWithoutDependencies fuel
                            (List.map Some (Version.flattenedDevDependencies version)) true ;;
          extensionsDependencies <- importManyWithoutDependencies fuel
                            (List.map Some (Version.extensionsBitIds version)) true ;;
          ret (VersionDependencies.mk versionComp dependencies devDependencies
                                      extensionsDependencies source)
      end
  end
with _getExternal (fuel : nat) (id : BitId.t) (localFetch : bool)
    : M W VersionDependencies.t :=
  match fuel with
  | O => diverge
  | S fuel' =>
      component <- sources_get_m id ;;
      match component, localFetch with
      | Some c, true => componentToVersionDependencies fuel' c id
      | _, _ =>
          objectList <- fetch (groupByScopeName [id]) opts_undefined None ;;
          writeManyComponentsToModel objectList (Some true) [id] ;;;
          _getExternal fuel' id true
      end
  end.

(** The callback of the base case of [_getExternalMany]:
    [compDef.component as ModelComponent] is a cast, an absent record fails
    at the first property access inside. *)
Definition defToVersionDependencies (fuel : nat) (def : ComponentDef)
    : M W VersionDependencies.t :=
  match def_component def with
  | Some c => componentToVersionDependencies fuel c (def_id def)
  | None => throw (TypeError "Cannot read property 'toComponentVersion' of undefined")
  end.

(** [_getExternalMany(ids, remotes, localFetch, persist, context)].  The
    recursive call passes neither [persist] nor [context]: both take their
    defaults, [true] and [{}]. *)
Fixpoint _getExternalMany (fuel : nat) (ids : list BitId.t) (localFetch persist : bool)
    : M W (list VersionDependencies.t) :=
  match fuel with
  | O => diverge
  | S fuel' =>
      if isEmpty ids then ret []
      else
        let context : Context := Some (List.map BitId.toString ids) in
        componentDefs <- sources_getMany ids ;;
        let left := List.filter (isLeft localFetch) componentDefs in
        if Nat.eqb (length left) 0 then mapSeries (defToVersionDependencies fuel) componentDefs
        else
          objectList <- fetch (groupByScopeName (List.map def_id left))
                              opts_undefined context ;;
          nonLaneIds <- writeManyComponentsToModel objectList (Some persist) ids ;;
          _getExternalMany fuel' nonLaneIds true true
  end.

Definition localDefToVersionDependencies (fuel : nat) (def : ComponentDef)
    : M W VersionDependencies.t :=
  match def_component def with
  | None => throw (ComponentNotFound (BitId.toString (def_id def)))
  | Some c => componentToVersionDependencies fuel c (def_id def)
  end.

(** [ids.toString()], the argument of the first statement of [importMany]. *)
Definition idsToString (ids : list (option BitId.t)) : M W string :=
  match BitIds_toString ids with
  | Some s => ret s
  | None => throw (TypeError "Cannot read property 'toString' of null")
  end.

(** [importMany(ids, cache, persist)].  The string form of [ids] is computed
    for the log before the nil entries are removed. *)
Definition importMany (fuel : nat) (ids : list (option BitId.t)) (cache persist : bool)
    : M W (list VersionDependencies.t) :=
  idsToString ids ;;;
  let idsWithoutNils := removeNils ids in
  if isEmpty idsWithoutNils then ret []
  else
    let '(locals, externals) := List.partition (BitId.isLocal (name scope)) idsWithoutNils in
    localDefs <- sources_getMany locals ;;
    versionDeps <- mapSeries (localDefToVersionDependencies fuel) localDefs ;;
    externalDeps <- _getExternalMany fuel externals cache persist ;;
    ret (versionDeps ++ externalDeps).

(** *** All versions *)

(** The body of the [forEach] of [importManyWithAllVersions]: every listed
    version except the one of the result, then the head when there is one. *)
Definition idsWithAllVersions (versionDependencies : VersionDependencies.t)
    : list BitId.t :=
  let cv := VersionDependencies.component versionDependencies in
  let versions := ModelComponent.listVersions (ComponentVersion.component cv) in
  let versionId := ComponentVersion.id cv in
  let idsWithAllVersions :=
    List.map (fun version =>
                if String.eqb version (ComponentVersion.version cv) then None
                else Some (BitId.changeVersion versionId version)) versions in
  removeNils idsWithAllVersions ++
  match ModelComponent.getHead (ComponentVersion.component cv) with
  | Some head => [BitId.changeVersion versionId head]
  | None => []
  end.

Definition allIdsWithAllVersions (versionDependenciesArr : list VersionDependencies.t)
    : list BitId.t :=
  flat_map idsWithAllVersions versionDependenciesArr.

(** The identifiers handed to the recursive call in deep mode. *)
Definition dependenciesOnly (ids : list (option BitId.t))
    (versionDependenciesArr : list VersionDependencies.t) : list BitId.t :=
  let allFlattenDepsIds :=
    List.map (fun v => List.map ComponentVersion.id (VersionDependencies.allDependencies v))
             versionDependenciesArr in
  List.filter (fun id => negb (hasWithoutVersion ids id)) (concat allFlattenDepsIds).

(** [importManyWithAllVersions(ids, cache, allDepsVersions)]; the recursive
    call takes the defaults [cache = true], [allDepsVersions = false], and
    so does [importManyWithoutDependencies] for [cache]. *)
Fixpoint importManyWithAllVersions (fuel : nat) (ids : list (option BitId.t))
    (cache allDepsVersions : bool) : M W (list VersionDependencies.t) :=
  match fuel with
  | O => diverge
  | S fuel' =>
      let idsWithoutNils := removeNils ids in
      if isEmpty idsWithoutNils then ret []
      else
        versionDependenciesArr <- importMany fuel (List.map Some idsWithoutNils) cache true ;;
        let allIds := allIdsWithAllVersions versionDependenciesArr in
        if allDepsVersions then
          verDepsOfOlderVersions <- importMany fuel (List.map Some allIds) cache true ;;
          let versionDependenciesArr1 := versionDependenciesArr ++ verDepsOfOlderVersions in
          let deps := dependenciesOnly ids versionDependenciesArr1 in
          verDepsOfAllFlattenDeps <-
            importManyWithAllVersions fuel' (List.map Some (uniqFromArray deps)) true false ;;
          ret (versionDependenciesArr1 ++ verDepsOfAllFlattenDeps)
        else
          importManyWithoutDependencies fuel (List.map Some allIds) true ;;;
          ret versionDependenciesArr
  end.

(** *** Dependencies, lanes, raw objects *)

Definition passesThrough (e : Error) : bool :=
  match e with
  | RemoteScopeNotFound _ | PermissionDenied _ => true
  | _ => false
  end.

Definition importDependencies (fuel : nat) (dependencies : list (option BitId.t))
    : M W (list VersionDependencies.t) :=
  catch (importMany fuel dependencies true true)
        (fun e =>
           if passesThrough e then throw e
           else throw (DependencyNotFound (error_id e))).

Definition importLanes (remoteLaneIds : list RemoteLaneId.t) : M W (list Lane.t) :=
  objectList <- fetch (groupByScopeName remoteLaneIds) (opts_type "lane") None ;;
  let lanes := getLanes objectList in
  mapSeries (fun lane => syncWithLaneObject (Lane.scope lane) lane) lanes ;;;
  ret lanes.

Definition importFromLanes (fuel : nat) (remoteLaneIds : list RemoteLaneId.t)
    : M W (list Lane.t) :=
  lanes <- importLanes remoteLaneIds ;;
  let ids := List.map Lane.toBitIds lanes in
  let bitIds := uniqFromArray (concat ids) in
  importManyWithAllVersions fuel (List.map Some bitIds) false false ;;;
  ret lanes.

(** The hashes of one scope that the local store lacks. *)
Definition missingHashes (w : W) (hashes : list string) : list string :=
  List.filter (fun hash => negb (objects_has scope w hash)) (uniq hashes).

(** The loop over [Object.keys(groupedHashes)] that fills
    [groupedHashedMissing]. *)
Definition groupMissing (w : W) (groupedHashes : gmap string (list string))
    : gmap string (list string) :=
  fold_right (fun '(scopeName, hashes) groupedHashedMissing =>
                let missing := missingHashes w hashes in
                if negb (Nat.eqb (length missing) 0)
                then <[scopeName := missing]> groupedHashedMissing
                else groupedHashedMissing)
             ∅ (map_to_list groupedHashes).

Definition importManyObjects (groupedHashes : gmap string (list string)) : M W unit :=
  groupedHashedMissing <- (fun st => (Ret (groupMissing (world st) groupedHashes), st)) ;;
  if bool_decide (groupedHashedMissing = ∅) then ret tt
  else
    objectList <- fetch groupedHashedMissing (opts_type "object") None ;;
    addMany (getAll objectList) ;;;
    persist_m ;;;
    ret tt.

End Importer.

Arguments importMany {W} scope fuel ids cache persist _.
Arguments _getExternalMany {W} scope fuel ids localFetch persist _.
Arguments _getExternalManyWithoutDependencies {W} scope fuel ids localFetch _.
Arguments importManyWithoutDependencies {W} scope fuel ids cache _.
Arguments componentToVersionDependencies {W} scope fuel component id _.
Arguments _getExternal {W} scope fuel id localFetch _.
Arguments importManyWithAllVersions {W} scope fuel ids cache allDepsVersions _.
Arguments importDependencies {W} scope fuel dependencies _.
Arguments importLanes {W} scope remoteLaneIds _.
Arguments importFromLanes {W} scope fuel remoteLaneIds _.
Arguments importManyObjects {W} scope groupedHashes _.

(** ** The loaders

    The methods of the importer that load a single component.  The consumer
    component and [ComponentVersion.toConsumer] are not under src/: the type
    and the conversion, a read of the objects of the scope that may fail, are
    parameters. *)

Section Loaders.
Context {W : Type} (scope : Scope W).
Context {ConsumerComponent : Type}.
Context (toConsumer : W -> ComponentVersion.t -> Error + ConsumerComponent).

(** [component.toConsumer(this.scope.objects)]. *)
Definition toConsumer_m (component : ComponentVersion.t) : M W ConsumerComponent :=
  fun st =>
    match toConsumer (world st) component with
    | inl e => (Throw e, st)
    | inr consumer => (Ret consumer, st)
    end.

(** [_getExternalWithoutDependencies({ id, remotes, localFetch })]; the
    context of every call in the source is the default [{}]. *)
Definition _getExternalWithoutDependencies (fuel : nat) (id : BitId.t) (localFetch : bool)
    : M W ComponentVersion.t :=
  component <- sources_get_m scope id ;;
  match component, localFetch with
  | Some c, true => ret (toComponentVersion c (BitId.version id))
  | _, _ =>
      objectList <- fetch scope (groupByScopeName [id]) opts_withoutDependencies None ;;
      writeManyComponentsToModel scope objectList (Some true) [id] ;;;
      versionDependencies <- _getExternal scope fuel id true ;;
      ret (VersionDependencies.component versionDependencies)
  end.

(** [_getComponentVersion(id)]. *)
Definition _getComponentVersion (fuel : nat) (id : BitId.t) : M W ComponentVersion.t :=
  if negb (BitId.isLocal (name scope) id)
  then _getExternalWithoutDependencies fuel id true
  else
    component <- sources_get_m scope id ;;
    match component with
    | None => throw (ComponentNotFound (BitId.toString id))
    | Some c => ret (toComponentVersion c (BitId.version id))
    end.

(** [loadRemoteComponent(id)]; [_getComponentVersion] resolves to a component
    version, never to a nil value, so the [ComponentNotFound] of the callback
    is not reached. *)
Definition loadRemoteComponent (fuel : nat) (id : BitId.t) : M W ConsumerComponent :=
  component <- _getComponentVersion fuel id ;;
  toConsumer_m component.

(** [loadComponent(id, localOnly)]; the method is not [async], its
    [GeneralError] is thrown to the caller instead of rejecting a promise. *)
Definition loadComponent (fuel : nat) (id : BitId.t) (localOnly : bool)
    : M W ConsumerComponent :=
  if localOnly && negb (BitId.isLocal (name scope) id)
  then throw (GeneralError "cannot load a component from remote scope, please import first")
  else loadRemoteComponent fuel id.

End Loaders.

Arguments _getExternalWithoutDependencies {W} scope fuel id localFetch _.
Arguments _getComponentVersion {W} scope fuel id _.
Arguments loadRemoteComponent {W} scope {ConsumerComponent} toConsumer fuel id _.
Arguments loadComponent {W} scope {ConsumerComponent} toConsumer fuel id localOnly _.

(** ** The list of started preview servers

    The component [ComponentPreviewServerStarted] and the elements it
    renders. *)

Module PreviewServers.
Record Server := mkServer { host : option string; port : string }.
Record Item := mkItem { id : string; server : Server; status : string }.

#[warnings="-register-all"]
Inductive Element :=
| Fragment (children : list Element)
| ComponentPreviewServerStartedHeaders
| Box (key : option nat) (width : option string) (children : list Element)
| Text (color : option string) (content : string).

(** [item.server.host || 'localhost']: a missing host and the empty string
    are falsy. *)
Definition hostOrLocalhost (h : option string) : string :=
  match h with
  | Some s => if String.eqb s "" then "localhost" else s
  | None => "localhost"
  end.

Definition url (item : Item) : string :=
  "http://" +:+ hostOrLocalhost (host (server item)) +:+ ":" +:+ port (server item).

Definition row (index : nat) (item : Item) : Element :=
  Box (Some index) None
    [Box None (Some "30%") [Text (Some "rgb(45, 164, 157)") (id item)];
     Box None (Some "50%") [Text None (url item)];
     Box None (Some "20%") [Text (Some "yellow") (status item)]].

Definition ComponentPreviewServerStarted (items : list Item) : option Element :=
  if Nat.eqb (length items) 0 then None
  else Some (Fragment (ComponentPreviewServerStartedHeaders :: imap row items)).

(** The key of a rendered row and the address it shows. *)
Definition rowKey (e : Element) : option nat :=
  match e with Box key _ _ => key | _ => None end.

Definition rowAddress (e : Element) : option string :=
  match e with
  | Box _ _ [_; Box _ _ [Text _ address]; _] => Some address
  | _ => None
  end.
End PreviewServers.

(** ** Predicates used in the statements *)

(** The members of one scope, in order. *)
Definition ofScope {A : Type} `{ScopedId A} (s : string) (ids : list A) : list A :=
  List.filter (fun id => String.eqb (scopeOf id) s) ids.

Section TracePredicates.
Context {W : Type}.

(** A computation only ever appends to the trace. *)
Definition extends {A : Type} (m : M W A) : Prop :=
  forall st, exists evs, trace (snd (m st)) = trace st ++ evs.

(** A computation that leaves the state alone and does not run out of fuel. *)
Definition quiet {A : Type} (m : M W A) (st : State W) : Prop :=
  snd (m st) = st /\ fst (m st) <> Diverge.

(** A computation whose trace, from [st], passes through [trace st0 ++ [ev]]. *)
Definition emits {A} (m : M W A) (st st0 : State W) (ev : Event) : Prop :=
  exists evs, trace (snd (m st)) = trace st0 ++ ev :: evs.

End TracePredicates.

Section ScopePredicates.
Context {W : Type} (scope : Scope W).

(** What the loop keeps for one scope: its missing hashes, when there are
    any. *)
Definition keepMissing (w : W) (hashes : list string) : option (list string) :=
  match missingHashes scope w hashes with
  | [] => None
  | missing => Some missing
  end.

Definition allLocal (ids : list BitId.t) : Prop :=
  forall id, In id ids -> BitId.isLocal (name scope) id = true.

(** The version content of [id] under the record [c] keeps resolution
    local: it is present and lists local dependencies only, or it is absent
    and the record is owned by the importer's scope. *)
Definition staysLocal (w : W) (c : ModelComponent.t) (id : BitId.t) : Prop :=
  match getVersion scope w (toComponentVersion c (BitId.version id)) with
  | Some v =>
      allLocal (Version.flattenedDependencies v)
      /\ allLocal (Version.flattenedDevDependencies v)
      /\ allLocal (Version.extensionsBitIds v)
  | None => ModelComponent.scope c = name scope
  end.

(** What a call across the boundary makes of the store. *)
Definition perform (w : W) (e : Event) : W :=
  match e with
  | EvFetch grouped opts ctx => snd (remotes_fetch scope grouped opts ctx w)
  | EvWrite objectList persist ids =>
      snd (scope_writeManyComponentsToModel scope objectList persist ids w)
  | EvAddMany objects => objects_addMany scope objects w
  | EvPersist => objects_persist scope w
  | EvSyncLane s lane => remoteLanes_syncWithLaneObject scope s lane w
  end.

(** The state [s'] follows the state [s]: it is reached from [s] by calls
    across the boundary, which continue the trace of [s] and make the store
    of [s'] out of the store of [s].  The states of a run from [st] to
    [st'] are those that follow [st] and that [st'] follows: the states
    after the first calls of the run. *)
Definition follows (s s' : State W) : Prop :=
  exists evs, trace s' = trace s ++ evs /\ world s' = fold_left perform evs (world s).

(** A computation changes the state by calls across the boundary only. *)
Definition performs {A : Type} (m : M W A) : Prop :=
  forall st, follows st (snd (m st)).

(** In the stores of [I], the write-back of a batch that the remote has
    just answered returns the identifiers it was given, and leaves a store
    of [I]. *)
Definition writeBacksReturnIds (I : W -> Prop) : Prop :=
  forall grouped opts ctx w objectList w1 persist ids res w2,
    I w ->
    remotes_fetch scope grouped opts ctx w = (inr objectList, w1) ->
    scope_writeManyComponentsToModel scope objectList persist ids w1 = (inr res, w2) ->
    res = ids /\ I w2.

(** The order of a dependency array: the local identifiers of the list,
    then the external ones. *)
Definition localsFirst (ids : list BitId.t) : list BitId.t :=
  List.filter (BitId.isLocal (name scope)) ids
    ++ List.filter (fun id => negb (BitId.isLocal (name scope) id)) ids.

(** The definitions that [sources.getMany] gives for [ids] in the store
    [w], and those among them that a resolver has left to fetch. *)
Definition defsOf (w : W) (ids : list BitId.t) : list ComponentDef :=
  List.map (fun id => mkDef id (sources_get scope w id)) ids.

Definition leftOf (localFetch : bool) (w : W) (ids : list BitId.t) : list ComponentDef :=
  List.filter (isLeft localFetch) (defsOf w ids).

(** One round-trip of a recursive resolver on the request [ids] in the store
    [w]: something is left to fetch, the remote answers the fetch of what is
    left, and the write-back of the answer returns the residual [res] and
    leaves the store [w2]. *)
Definition roundTrip (opts : FetchOptions) (persist : option bool) (localFetch : bool)
    (w : W) (ids : list BitId.t) (w2 : W) (res : list BitId.t) : Prop :=
  ids <> [] /\ leftOf localFetch w ids <> []
  /\ exists objectList w1,
       remotes_fetch scope (groupByScopeName (List.map def_id (leftOf localFetch w ids)))
                     opts (Some (List.map BitId.toString ids)) w
       = (inr objectList, w1)
       /\ scope_writeManyComponentsToModel scope objectList persist ids w1 = (inr res, w2).

(** The round-trips that start from a request and a store of [Inv] make
    progress: they lead to a residual and a store of [Inv], local fetch being
    allowed as the recursive call has it, and they decrease [measure]. *)
Definition makesProgress (opts : FetchOptions) (Inv : bool -> W -> list BitId.t -> Prop)
    (measure : W -> list BitId.t -> nat) : Prop :=
  forall persist localFetch w ids w2 res,
    Inv localFetch w ids ->
    roundTrip opts persist localFetch w ids w2 res ->
    Inv true w2 res /\ measure w2 res < measure w ids.

End ScopePredicates.

(** ** Predicates on traces and on the local store *)

Section MorePredicates.
Context {W : Type} (scope : Scope W).

(** A computation only appends events that satisfy [P]. *)
Definition adds (P : Event -> Prop) {A : Type} (m : M W A) : Prop :=
  forall st, exists evs, trace (snd (m st)) = trace st ++ evs /\ Forall P evs.

(** The calls of the resolution without dependencies: a fetch of
    components without their dependencies whose context holds the string
    forms of the identifiers [ids] of a request and whose grouping is built
    from identifiers of that request, at least one, and a write-back for a
    non-empty request with [persist] left undefined. *)
Definition shallowCall (e : Event) : Prop :=
  match e with
  | EvFetch grouped opts ctx =>
      exists ids left,
        left <> [] /\ (forall id, In id left -> In id ids)
        /\ grouped = groupByScopeName left
        /\ opts = opts_withoutDependencies
        /\ ctx = Some (List.map BitId.toString ids)
  | EvWrite _ persist ids => persist = None /\ ids <> []
  | _ => False
  end.


(** The calls of the resolution with dependencies: a non-empty request for
    components, and a write-back for a non-empty request. *)
Definition resolverCall (e : Event) : Prop :=
  match e with
  | EvFetch grouped opts _ => grouped <> ∅ /\ fo_type opts = None
  | EvWrite _ _ ids => ids <> []
  | _ => False
  end.

(** Every identifier of the list has a record in the store. *)
Definition allStored (w : W) (ids : list BitId.t) : Prop :=
  forall id, In id ids -> is_Some (sources_get scope w id).

(** The entry that the store [w] gives for [id], and the entries of a list. *)
Definition entryOf (w : W) (id : BitId.t) : option ComponentVersion.t :=
  (fun c => toComponentVersion c (BitId.version id)) <$> sources_get scope w id.

Definition entriesOf (w : W) (ids : list BitId.t) : list ComponentVersion.t :=
  omap (entryOf w) ids.

(** The closure that the store [w] gives for [id] without any fetch. *)
Definition closureOf (w : W) (id : BitId.t) : option VersionDependencies.t :=
  match sources_get scope w id with
  | Some c =>
      match getVersion scope w (toComponentVersion c (BitId.version id)) with
      | Some v =>
          Some (VersionDependencies.mk
                  (toComponentVersion c (BitId.version id))
                  (entriesOf w (localsFirst scope (Version.flattenedDependencies v)))
                  (entriesOf w (localsFirst scope (Version.flattenedDevDependencies v)))
                  (entriesOf w (localsFirst scope (Version.extensionsBitIds v)))
                  (BitId.scope id))
      | None => None
      end
  | None => None
  end.

(** [id] is stored in [w] with its version content and a record for each of
    its flattened dependencies. *)
Definition storedWithDependencies (w : W) (id : BitId.t) : Prop :=
  exists c v,
    sources_get scope w id = Some c
    /\ getVersion scope w (toComponentVersion c (BitId.version id)) = Some v
    /\ allStored w (Version.flattenedDependencies v)
    /\ allStored w (Version.flattenedDevDependencies v)
    /\ allStored w (Version.extensionsBitIds v).

(** The identifiers of the list without a record in the store. *)
Definition missingIds (w : W) (ids : list BitId.t) : list BitId.t :=
  List.filter (fun id => negb (bool_decide (is_Some (sources_get scope w id)))) ids.

(** The dependency array [cvs] resolves the flattened list [ids] between the
    states [s] and [s'] of a run: it holds, locals first, the entry of each
    identifier of the list, that of a local identifier as the store gives it
    in [s], that of an external one as the store gives it in [s']. *)
Definition resolvedBetween (s s' : State W) (ids : list BitId.t)
    (cvs : list ComponentVersion.t) : Prop :=
  Forall2 (fun id cv =>
             entryOf (world (if BitId.isLocal (name scope) id then s else s')) id = Some cv)
          (localsFirst scope ids) cvs.

(** The closure [vd] of [id] is built in the run that ends in [st'] from the
    record [c] and its version content [version], found in the state [s0];
    [s1] and [s2] are the states between the resolutions of the three
    flattened lists. *)
Definition closureVia (c : ModelComponent.t) (version : Version.t)
    (s0 s1 s2 st' : State W) (id : BitId.t) (vd : VersionDependencies.t) : Prop :=
  getVersion scope (world s0) (toComponentVersion c (BitId.version id)) = Some version
  /\ VersionDependencies.component vd = toComponentVersion c (BitId.version id)
  /\ VersionDependencies.sourceScope vd = BitId.scope id
  /\ resolvedBetween s0 s1 (Version.flattenedDependencies version)
                     (VersionDependencies.dependencies vd)
  /\ resolvedBetween s1 s2 (Version.flattenedDevDependencies version)
                     (VersionDependencies.devDependencies vd)
  /\ resolvedBetween s2 st' (Version.extensionsBitIds version)
                     (VersionDependencies.extensionsDependencies vd)
  /\ follows scope s0 s1 /\ follows scope s1 s2 /\ follows scope s2 st'.

(** The component version [cv] resolves [id] in a run from [st] to [st']:
    it is what [toComponentVersion] gives, for the version of [id], on the
    record that the store holds for [id] in a state of that run. *)
Definition resolvesWithin (st st' : State W) (id : BitId.t) (cv : ComponentVersion.t)
    : Prop :=
  exists c s,
    follows scope st s /\ follows scope s st'
    /\ sources_get scope (world s) id = Some c
    /\ cv = toComponentVersion c (BitId.version id).

(** The closure [vd] answers [id] in a run from [st] to [st']: it carries
    the scope of [id] and a component version that resolves [id] in that
    run. *)
Definition closesWithin (st st' : State W) (id : BitId.t) (vd : VersionDependencies.t)
    : Prop :=
  VersionDependencies.sourceScope vd = BitId.scope id
  /\ resolvesWithin st st' id (VersionDependencies.component vd).

End MorePredicates.

(** ** A scope to run the importer on

    An in-memory store and a remote that answers from a script: the n-th
    fetch returns the n-th scripted answer, and an empty object list once the
    script is exhausted. *)

Module Toy.
Record World := mkWorld {
  components : list ModelComponent.t;
  versions : list (BitId.t * Version.t);
  hashes : list string;
  answers : list (Error + ObjectList);
  flushes : nat;
  tracked : list (string * Lane.t)
}.

Definition get (w : World) (id : BitId.t) : option ModelComponent.t :=
  List.find (fun c => String.eqb (ModelComponent.scope c) (BitId.scope id)
                      && String.eqb (ModelComponent.name c) (BitId.name id))
            (components w).

Definition getVersion (w : World) (cv : ComponentVersion.t) : option Version.t :=
  snd <$> List.find (fun p => bool_decide (fst p = ComponentVersion.id cv)) (versions w).

Definition has (w : World) (hash : string) : bool :=
  bool_decide (hash ∈ hashes w).

Definition fetch (_ : gmap string (list string)) (_ : FetchOptions) (_ : Context)
    (w : World) : (Error + ObjectList) * World :=
  match answers w with
  | [] => (inr [], w)
  | a :: rest =>
      (a, mkWorld (components w) (versions w) (hashes w) rest (flushes w) (tracked w))
  end.

Definition mergeObjects (objects : list BitObject) (w : World) : World :=
  mkWorld
    (flat_map (fun o => match o with ObjComponent c => [c] | _ => [] end) objects
       ++ components w)
    (flat_map (fun o => match o with ObjVersion id v => [(id, v)] | _ => [] end) objects
       ++ versions w)
    (flat_map (fun o => match o with ObjBlob h => [h] | _ => [] end) objects
       ++ hashes w)
    (answers w) (flushes w) (tracked w).

Definition isLaneOf (lanes : list Lane.t) (id : BitId.t) : bool :=
  existsb (fun l => String.eqb (Lane.scope l) (BitId.scope id)
                    && String.eqb (Lane.name l) (BitId.name id)) lanes.

(** The write-back of the example scope, one instance of the parameter
    [scope_writeManyComponentsToModel]: it merges the objects of the batch
    into the store and returns the requested ids, all of them, or, with
    [laneAware], those that the batch did not answer with a lane (the
    resolvers bind what the write-back returns to [nonLaneIds]). *)
Definition write (laneAware : bool) (objectList : ObjectList) (_ : option bool)
    (ids : list BitId.t) (w : World) : (Error + list BitId.t) * World :=
  (inr (if laneAware
        then List.filter (fun id => negb (isLaneOf (getLanes objectList) id)) ids
        else ids),
   mergeObjects objectList w).

Definition persist (w : World) : World :=
  mkWorld (components w) (versions w) (hashes w) (answers w) (S (flushes w)) (tracked w).

Definition sync (s : string) (lane : Lane.t) (w : World) : World :=
  mkWorld (components w) (versions w) (hashes w) (answers w) (flushes w)
          ((s, lane) :: tracked w).

Definition scope (self : string) (laneAware : bool) : Scope World :=
  mkScope World self get getVersion has fetch (write laneAware) mergeObjects persist sync.

Definition init (w : World) : State World := mkState w [].
End Toy.

(** ** Example stores and requests *)

Module Examples.
Definition self : string := "me".

Definition foo : BitId.t := BitId.mk "me" "foo" "1.0.0".
Definition baz : BitId.t := BitId.mk "me" "baz" "2.0.0".
Definition bar : BitId.t := BitId.mk "other" "bar" "1.0.0".
Definition dev : BitId.t := BitId.mk "other" "dev" "latest".
Definition qux : BitId.t := BitId.mk "third" "qux" "0.1.0".

Definition fooRecord :=
  ModelComponent.mk "me" "foo" ["0.9.0"; "1.0.0"]
                    (Some "ceceb478e3bf4cb9557fed87405e014cea819083").
Definition bazRecord := ModelComponent.mk "me" "baz" ["2.0.0"] None.
Definition barRecord := ModelComponent.mk "other" "bar" ["1.0.0"] None.
Definition quxRecord := ModelComponent.mk "third" "qux" ["0.1.0"] None.

Definition noDeps : Version.t := Version.mk [] [] [].

Definition store (components : list ModelComponent.t)
    (versions : list (BitId.t * Version.t)) (answers : list (Error + ObjectList))
    : State Toy.World :=
  Toy.init (Toy.mkWorld components versions [] answers 0 []).

(** Nothing stored, and a remote that answers every fetch with an empty
    object list. *)
Definition silentRemote : State Toy.World := store [] [] [].

(** [foo] is stored with a runtime dependency on the external [bar], which
    is not stored; the remote has it. *)
Definition fooNeedsBar : State Toy.World :=
  store [fooRecord] [(foo, Version.mk [bar] [] [])] [inr [ObjComponent barRecord]].

(** [foo] is stored with a runtime dependency on the local [baz], stored
    too. *)
Definition fooNeedsBaz : State Toy.World :=
  store [fooRecord; bazRecord] [(foo, Version.mk [baz] [] []); (baz, noDeps)] [].

(** [foo] is stored with the runtime dependencies [bar] (external) then
    [baz] (local), both stored. *)
Definition fooNeedsBarBaz : State Toy.World :=
  store [fooRecord; barRecord; bazRecord]
        [(foo, Version.mk [bar; baz] [] []); (bar, noDeps); (baz, noDeps)] [].

(** Nothing stored; the remote answers the first fetch with [bar] and its
    version only, and the second with [qux] and its version. *)
Definition partialRemote : State Toy.World :=
  store [] [] [inr [ObjComponent barRecord; ObjVersion bar noDeps];
               inr [ObjComponent quxRecord; ObjVersion qux noDeps]].

(** The record of [foo] is stored without the content of its version. *)
Definition fooWithoutContent : State Toy.World := store [fooRecord] [] [].

(** [foo] and [bar] are stored with their versions; the remote answers the
    request for the lane [other/dev] with a lane that refers to both. *)
Definition laneOverStored : State Toy.World :=
  store [fooRecord; barRecord] [(foo, noDeps); (bar, noDeps)]
        [inr [ObjLane (Lane.mk "other" "dev" [bar; foo])]].



(** Nothing stored; the remote answers the first fetch with [bar] and its
    content only, and the second with [qux] and a content that lists the
    external runtime dependency [dev], which the remote does not have. *)
Definition twoAnswers : State Toy.World :=
  store [] [] [inr [ObjComponent barRecord; ObjVersion bar noDeps];
               inr [ObjComponent quxRecord; ObjVersion qux (Version.mk [dev] [] [])]].

(** The stores that the round-trips for [bar] and [qux] leave, one after the
    other, from [twoAnswers]. *)
Definition afterFirstAnswer : Toy.World :=
  Toy.mkWorld [barRecord] [(bar, noDeps)] []
              [inr [ObjComponent quxRecord; ObjVersion qux (Version.mk [dev] [] [])]] 0 [].

Definition afterSecondAnswer : Toy.World :=
  Toy.mkWorld [quxRecord; barRecord] [(qux, Version.mk [dev] [] []); (bar, noDeps)]
              [] [] 0 [].

(** A component without version tags, known by its head alone, and stored
    with the content of that version. *)
Definition snapHead : string := "f812c05854612948a5ab0e77da6d43023bee8054".
Definition snap : BitId.t := BitId.mk "me" "snap" snapHead.
Definition snapRecord := ModelComponent.mk "me" "snap" [] (Some snapHead).
Definition snapStored : State Toy.World := store [snapRecord] [(snap, noDeps)] [].

(** The requests and stores of the resolution of [bar] and [qux] from
    [twoAnswers], and the number of requested identifiers that a store
    lacks. *)
Definition roundTripStates (localFetch : bool) (w : Toy.World) (ids : list BitId.t) : Prop :=
  localFetch = true /\ ids = [bar; qux]
  /\ (w = world twoAnswers \/ w = afterFirstAnswer \/ w = afterSecondAnswer).

Definition missingCount (w : Toy.World) (ids : list BitId.t) : nat :=
  length (missingIds (Toy.scope self true) w ids).

(** A request for raw objects of two scopes. *)
Definition twoScopes : gmap string (list string) :=
  {[ "other" := ["4300cbccff3f1b0a119907fa29492fa1611debd7"];
     "third" := ["f02dd7fd5c804cd1b0a95403af53fc80b792bd00"] ]}.


Definition isWrite (e : Event) : bool :=
  match e with EvWrite _ _ _ => true | _ => false end.
End Examples.

(** Further stores for the properties of the importer. *)
Module MoreExamples.
Import Examples.

(** [bar] is stored with its version, [qux] is not; the remote has [qux]. *)
Definition barStored : State Toy.World :=
  store [barRecord] [(bar, noDeps)] [inr [ObjComponent quxRecord; ObjVersion qux noDeps]].
End MoreExamples.

(** * Properties *)

(** ** Lists of identifiers *)

Lemma removeNils_map_Some {A : Type} (l : list A) : removeNils (List.map Some l) = l.
Proof. induction l as [|x l IH]; simpl; [reflexivity | now rewrite IH]. Qed.

Lemma removeNils_In {A : Type} (l : list (option A)) (x : A) :
  In x (removeNils l) <-> In (Some x) l.
Proof.
  unfold removeNils. rewrite in_flat_map. split.
  - intros [[y|] [Hy Hx]]; simpl in Hx; [|tauto].
    destruct Hx as [->|[]]. exact Hy.
  - intros H. exists (Some x). split; [exact H | now left].
Qed.

Lemma isEmpty_true {A : Type} (l : list A) : isEmpty l = true <-> l = [].
Proof. destruct l; simpl; split; congruence. Qed.

Lemma isEmpty_false {A : Type} (l : list A) : isEmpty l = false <-> l <> [].
Proof. destruct l; simpl; split; congruence. Qed.

Section Uniq.
Context {A : Type} `{EqDecision A}.

Lemma uniq_from_In (seen l : list A) (x : A) :
  In x (uniq_from seen l) <-> In x l /\ ~ In x seen.
Proof.
  revert seen. induction l as [|y l IH]; intros seen; simpl.
  - tauto.
  - case_bool_decide as Hy; rewrite list_elem_of_In in Hy.
    + rewrite IH. split.
      * intros [H1 H2]. tauto.
      * intros [[->|H1] H2]; [contradiction | tauto].
    + simpl. rewrite IH. simpl. split.
      * intros [->|[H1 H2]]; [tauto|]. split; [tauto|]. intros H3. apply H2. now right.
      * intros [[->|H1] H2]; [now left|].
        destruct (decide (y = x)) as [->|Hne]; [now left|].
        right. split; [exact H1|]. intros [H3|H3]; [contradiction | contradiction].
Qed.

Lemma uniq_from_NoDup (seen l : list A) : List.NoDup (uniq_from seen l).
Proof.
  revert seen. induction l as [|y l IH]; intros seen; simpl.
  - constructor.
  - case_bool_decide as Hy.
    + apply IH.
    + constructor; [|apply IH].
      rewrite uniq_from_In. intros [_ H]. apply H. now left.
Qed.

Lemma uniq_from_id (seen l : list A) :
  List.NoDup l -> (forall x, In x l -> ~ In x seen) -> uniq_from seen l = l.
Proof.
  revert seen. induction l as [|y l IH]; intros seen Hnd Hseen; simpl.
  - reflexivity.
  - inversion Hnd as [|? ? Hy Hnd']; subst.
    case_bool_decide as Hin; rewrite list_elem_of_In in Hin.
    + exfalso. apply (Hseen y); [now left | exact Hin].
    + f_equal. apply IH; [exact Hnd'|].
      intros x Hx [->|Hs]; [contradiction|].
      apply (Hseen x); [now right | exact Hs].
Qed.

Lemma uniq_In (l : list A) (x : A) : In x (uniq l) <-> In x l.
Proof. unfold uniq. rewrite uniq_from_In. simpl. tauto. Qed.

Lemma uniq_NoDup (l : list A) : List.NoDup (uniq l).
Proof. apply uniq_from_NoDup. Qed.

Lemma uniq_id (l : list A) : List.NoDup l -> uniq l = l.
Proof. intros H. apply uniq_from_id; [exact H | intros x _ []]. Qed.
End Uniq.

Lemma hasWithoutVersion_true (ids : list (option BitId.t)) (id : BitId.t) :
  hasWithoutVersion ids id = true <->
  exists i, In (Some i) ids /\ BitId.scope i = BitId.scope id /\ BitId.name i = BitId.name id.
Proof.
  unfold hasWithoutVersion. rewrite existsb_exists. split.
  - intros [[i|] [Hin H]]; [|discriminate].
    unfold BitId.isEqualWithoutVersion in H.
    apply andb_prop in H as [H1 H2].
    apply String.eqb_eq in H1, H2. eauto.
  - intros (i & Hin & H1 & H2). exists (Some i). split; [exact Hin|].
    unfold BitId.isEqualWithoutVersion. rewrite H1, H2, !String.eqb_refl. reflexivity.
Qed.

(** ** Grouping *)

Section Grouping.
Context {A : Type} `{ScopedId A}.

Lemma groupArray_fold_lookup (ids : list A) (acc : gmap string (list A)) (s : string) :
  fold_left (fun grouped id =>
               <[scopeOf id := default [] (grouped !! scopeOf id) ++ [id]]> grouped)
            ids acc !! s
  = match acc !! s, ofScope s ids with
    | None, [] => None
    | o, l => Some (default [] o ++ l)
    end.
Proof.
  revert acc. induction ids as [|id ids IH]; intros acc; simpl.
  - destruct (acc !! s); [now rewrite app_nil_r | reflexivity].
  - rewrite IH. destruct (String.eqb_spec (scopeOf id) s) as [->|Hne].
    + rewrite lookup_insert_eq. simpl.
      rewrite <- app_assoc. simpl.
      destruct (acc !! s); reflexivity.
    + rewrite lookup_insert_ne by exact Hne. reflexivity.
Qed.

Lemma groupArray_lookup (ids : list A) (s : string) :
  groupArray ids !! s
  = match ofScope s ids with [] => None | l => Some l end.
Proof.
  unfold groupArray. rewrite groupArray_fold_lookup, lookup_empty.
  destruct (ofScope s ids); reflexivity.
Qed.

Lemma groupByScopeName_lookup (ids : list A) (s : string) :
  groupByScopeName ids !! s
  = match ofScope s ids with [] => None | l => Some (List.map idToString l) end.
Proof.
  unfold groupByScopeName. rewrite lookup_fmap, groupArray_lookup.
  destruct (ofScope s ids); reflexivity.
Qed.
End Grouping.

(** ** The monad *)

Section MonadFacts.
Context {W : Type}.
Local Abbreviation extends := (extends (W:=W)).
Local Abbreviation quiet := (quiet (W:=W)).
Local Abbreviation emits := (emits (W:=W)).

Lemma extends_ret {A} (a : A) : extends (ret a).
Proof. intros st. exists []. simpl. now rewrite app_nil_r. Qed.

Lemma extends_throw {A} (e : Error) : extends (@throw W A e).
Proof. intros st. exists []. simpl. now rewrite app_nil_r. Qed.

Lemma extends_diverge {A} : extends (@diverge W A).
Proof. intros st. exists []. simpl. now rewrite app_nil_r. Qed.

Lemma extends_bind {A B} (m : M W A) (k : A -> M W B) :
  extends m -> (forall a, extends (k a)) -> extends (bind m k).
Proof.
  intros Hm Hk st. unfold bind.
  destruct (Hm st) as [evs Hevs].
  destruct (m st) as [[a|e|] st1]; simpl in *.
  - destruct (Hk a st1) as [evs' Hevs']. exists (evs ++ evs').
    rewrite Hevs', Hevs. now rewrite app_assoc.
  - eauto.
  - eauto.
Qed.

Lemma extends_mapSeries {A B} (f : A -> M W B) (l : list A) :
  (forall a, extends (f a)) -> extends (mapSeries f l).
Proof.
  intros Hf. induction l as [|x l IH]; simpl.
  - apply extends_ret.
  - apply extends_bind; [apply Hf|]. intros y.
    apply extends_bind; [exact IH|]. intros ys. apply extends_ret.
Qed.

Lemma quiet_ret {A} (a : A) st : quiet (@ret W A a) st.
Proof. split; simpl; congruence. Qed.

Lemma quiet_throw {A} (e : Error) st : quiet (@throw W A e) st.
Proof. split; simpl; congruence. Qed.

Lemma quiet_bind {A B} (m : M W A) (k : A -> M W B) st :
  quiet m st -> (forall a, fst (m st) = Ret a -> quiet (k a) st) -> quiet (bind m k) st.
Proof.
  intros [Hs Hd] Hk. unfold quiet, bind in *.
  destruct (m st) as [[a|e|] st1]; simpl in *; subst.
  - apply Hk. reflexivity.
  - split; [reflexivity | congruence].
  - congruence.
Qed.

Lemma quiet_mapSeries {A B} (f : A -> M W B) (l : list A) st :
  (forall a, In a l -> quiet (f a) st) -> quiet (mapSeries f l) st.
Proof.
  induction l as [|x l IH]; intros Hf; simpl.
  - apply quiet_ret.
  - apply quiet_bind; [apply Hf; now left|]. intros y _.
    apply quiet_bind; [apply IH; intros a Ha; apply Hf; now right|].
    intros ys _. apply quiet_ret.
Qed.

(** What [mapSeries] returns when it returns. *)
Lemma mapSeries_length {A B} (f : A -> M W B) (l : list A) st r st' :
  mapSeries f l st = (Ret r, st') -> length r = length l.
Proof.
  revert st r st'. induction l as [|x l IH]; intros st r st'; simpl.
  - unfold ret. intros [= <- _]. reflexivity.
  - unfold bind at 1. destruct (f x st) as [[y|e|] st1]; try discriminate.
    unfold bind at 1. destruct (mapSeries f l st1) as [[ys|e|] st2] eqn:E; try discriminate.
    unfold ret. intros [= <- _]. simpl. f_equal. eapply IH. exact E.
Qed.

Lemma mapSeries_no_diverge {A B} (f : A -> M W B) (l : list A) :
  (forall a st, In a l -> fst (f a st) <> Diverge) ->
  forall st, fst (mapSeries f l st) <> Diverge.
Proof.
  induction l as [|x l IH]; intros Hf st; simpl.
  - discriminate.
  - unfold bind at 1. pose proof (Hf x st (or_introl eq_refl)) as Hx.
    destruct (f x st) as [[y|e|] st1]; simpl in *; try congruence.
    unfold bind at 1.
    assert (Hl : fst (mapSeries f l st1) <> Diverge).
    { apply IH. intros a st0 Ha. apply Hf. now right. }
    destruct (mapSeries f l st1) as [[ys|e|] st2]; simpl in *; congruence.
Qed.

(** Running a computation step by step. *)
Lemma bind_Ret_inv {A B} (m : M W A) (k : A -> M W B) st r st' :
  bind m k st = (Ret r, st') ->
  exists a st1, m st = (Ret a, st1) /\ k a st1 = (Ret r, st').
Proof.
  unfold bind. destruct (m st) as [[a|e|] st1]; try discriminate. eauto.
Qed.

Lemma ret_inv {A} (a r : A) (st st' : State W) :
  ret a st = (Ret r, st') -> r = a /\ st' = st.
Proof. unfold ret. intros [= <- <-]. auto. Qed.

Lemma mapSeries_Forall2 {A B} (f : A -> M W B) (P : A -> B -> Prop) (l : list A) :
  (forall a st b st', In a l -> f a st = (Ret b, st') -> P a b) ->
  forall st r st', mapSeries f l st = (Ret r, st') -> Forall2 P l r.
Proof.
  induction l as [|x l IH]; intros Hf st r st' Hrun; simpl in Hrun.
  - apply ret_inv in Hrun as [-> _]. constructor.
  - apply bind_Ret_inv in Hrun as (y & st1 & Hx & Hrun).
    apply bind_Ret_inv in Hrun as (ys & st2 & Hl & Hrun).
    apply ret_inv in Hrun as [-> _]. constructor.
    + eapply Hf; [now left | exact Hx].
    + eapply IH; [|exact Hl]. intros a s b s' Ha. apply Hf. now right.
Qed.

End MonadFacts.

(** ** The importer *)

Section ImporterFacts.
Context {W : Type} (scope : Scope W).
Local Abbreviation extends := (extends (W:=W)).
Local Abbreviation quiet := (quiet (W:=W)).
Local Abbreviation emits := (emits (W:=W)).
Local Abbreviation follows := (follows scope).
Local Abbreviation performs := (performs scope).

(** *** The string form of the request *)

Lemma BitIds_toString_None (ids : list (option BitId.t)) :
  BitIds_toString ids = None <-> In None ids.
Proof.
  unfold BitIds_toString.
  destruct (forallb _ ids) eqn:E.
  - split; [discriminate|]. intros Hin.
    rewrite forallb_forall in E. specialize (E None Hin). discriminate.
  - split; [intros _|reflexivity].
    induction ids as [|[x|] ids IH]; cbn [forallb] in E; [discriminate| |now left].
    right. apply IH. rewrite bool_decide_eq_true_2 in E by eauto. exact E.
Qed.

Lemma BitIds_toString_map_Some (ids : list BitId.t) :
  BitIds_toString (List.map Some ids)
  = Some (String.concat ", " (List.map BitId.toString ids)).
Proof.
  unfold BitIds_toString. rewrite removeNils_map_Some.
  replace (forallb _ (List.map Some ids)) with true; [reflexivity|].
  symmetry. apply forallb_forall. intros o Ho.
  apply in_map_iff in Ho as (id & <- & _). apply bool_decide_eq_true_2. eauto.
Qed.

Lemma idsToString_Ret_inv (ids : list (option BitId.t)) (st st' : State W) (str : string) :
  idsToString ids st = (Ret str, st') -> st' = st /\ ~ In None ids.
Proof.
  unfold idsToString. destruct (BitIds_toString ids) eqn:E.
  - intros [= _ <-]. split; [reflexivity|].
    intros Hin. apply BitIds_toString_None in Hin. congruence.
  - discriminate.
Qed.

Lemma extends_idsToString (ids : list (option BitId.t)) : extends (@idsToString W ids).
Proof.
  unfold idsToString. destruct (BitIds_toString ids); intros st; exists [];
    simpl; now rewrite app_nil_r.
Qed.

Lemma quiet_idsToString (ids : list (option BitId.t)) st : quiet (@idsToString W ids) st.
Proof.
  unfold idsToString. destruct (BitIds_toString ids); split; simpl; congruence.
Qed.

(** [importMany] on a request without nil entries. *)
Lemma importMany_without_nils (fuel : nat) (ids : list BitId.t) (cache persist : bool)
    (st : State W) :
  importMany scope fuel (List.map Some ids) cache persist st
  = (if isEmpty ids then ret []
     else
       let '(locals, externals) := List.partition (BitId.isLocal (name scope)) ids in
       localDefs <- sources_getMany scope locals ;;
       versionDeps <- mapSeries (localDefToVersionDependencies scope fuel) localDefs ;;
       externalDeps <- _getExternalMany scope fuel externals cache persist ;;
       ret (versionDeps ++ externalDeps)) st.
Proof.
  unfold importMany, bind at 1, idsToString.
  rewrite BitIds_toString_map_Some, removeNils_map_Some. reflexivity.
Qed.

(** *** Errors of [importDependencies] *)

(** C7 (as amended): [importDependencies] runs [importMany] once with the
    default flags.  When that run fails with an error [e],
    [importDependencies] fails from the same final state (nothing is
    retried) with [e] itself if [e] is a [RemoteScopeNotFound] or a
    [PermissionDenied], and with [DependencyNotFound] around the [id]
    property of [e] otherwise.  That property is the identifier that was not
    found when [e] is a [ComponentNotFound]; it is undefined, and the wrapper
    names no identifier, when [e] is a [ShowDoctorError] (a missing version
    content), a [TypeError] or a [GeneralError].  Any other outcome is
    passed on unchanged. *)
Theorem C7_importDependencies_wraps (fuel : nat) (dependencies : list (option BitId.t))
    (st : State W) :
  match importMany scope fuel dependencies true true st with
  | (Throw e, st') =>
      importDependencies scope fuel dependencies st
      = (Throw (if passesThrough e then e else DependencyNotFound (error_id e)), st')
  | (r, st') => importDependencies scope fuel dependencies st = (r, st')
  end
  /\ (forall e, passesThrough e = true <->
                (exists n, e = RemoteScopeNotFound n) \/ (exists s, e = PermissionDenied s))
  /\ (forall id, error_id (ComponentNotFound id) = Some id)
  /\ (forall msg, error_id (ShowDoctorError msg) = None
                  /\ error_id (TypeError msg) = None
                  /\ error_id (GeneralError msg) = None).
Proof.
  split; [|split; [|split; [|intros msg; repeat split]]].
  - unfold importDependencies, catch.
    destruct (importMany scope fuel dependencies true true st) as [[r|e|] st'];
      try reflexivity.
    destruct (passesThrough e); reflexivity.
  - intros e. split.
    + destruct e; simpl; try discriminate; eauto.
    + intros [[n ->]|[s ->]]; reflexivity.
  - reflexivity.
Qed.

(** *** All versions *)

Lemma idsWithAllVersions_In (vd : VersionDependencies.t) (id : BitId.t) :
  let cv := VersionDependencies.component vd in
  let c := ComponentVersion.component cv in
  In id (idsWithAllVersions vd) <->
  (exists v, In v (ModelComponent.listVersions c)
             /\ v <> ComponentVersion.version cv
             /\ id = BitId.changeVersion (ComponentVersion.id cv) v)
  \/ (exists h, ModelComponent.getHead c = Some h
                /\ id = BitId.changeVersion (ComponentVersion.id cv) h).
Proof.
  intros cv c. unfold idsWithAllVersions. fold cv. fold c.
  rewrite in_app_iff, removeNils_In, in_map_iff. split.
  - intros [(v & Hv & Hin)|Hh].
    + left. destruct (String.eqb_spec v (ComponentVersion.version cv)) as [|Hne];
        [discriminate|]. injection Hv as <-. eauto.
    + right. destruct (ModelComponent.getHead c) as [h|]; [|destruct Hh].
      destruct Hh as [<-|[]]. eauto.
  - intros [(v & Hin & Hne & ->)|(h & Hh & ->)].
    + left. exists v. split; [|exact Hin].
      destruct (String.eqb_spec v (ComponentVersion.version cv)); [contradiction|reflexivity].
    + right. rewrite Hh. now left.
Qed.

Lemma dependenciesOnly_In (ids : list (option BitId.t))
    (arr : list VersionDependencies.t) (id : BitId.t) :
  In id (dependenciesOnly ids arr) <->
  (exists vd d, In vd arr /\ In d (VersionDependencies.allDependencies vd)
                /\ id = ComponentVersion.id d)
  /\ hasWithoutVersion ids id = false.
Proof.
  unfold dependenciesOnly. rewrite filter_In, negb_true_iff.
  rewrite in_concat.
  split; intros [H1 H2]; (split; [|exact H2]).
  - destruct H1 as (l & Hl & Hid).
    apply in_map_iff in Hl as (vd & <- & Hvd).
    apply in_map_iff in Hid as (d & <- & Hd). eauto.
  - destruct H1 as (vd & d & Hvd & Hd & ->).
    exists (List.map ComponentVersion.id (VersionDependencies.allDependencies vd)).
    split; apply in_map_iff; eauto.
Qed.

(** C8 (as amended): the identifiers that multi-version import derives from
    one result are the identifier of the result at every listed version tag
    other than the resolved one, and at the head whenever the record has
    one: the head is not compared with the resolved version.  A result that
    deep mode returns for a non-empty request is made of the closures of the
    request, of the closures of these derived identifiers, and of what the
    recursive call returns, in this order; the recursive call receives,
    without duplicates, exactly the identifiers of the dependencies of the
    first two (requested and older versions) for which the originally
    requested set holds no identifier of the same scope and name. *)
Theorem C8_all_versions_expansion (fuel : nat) (ids : list (option BitId.t))
    (cache : bool) :
  (forall vd id,
      In id (idsWithAllVersions vd) <->
      (exists v, In v (ModelComponent.listVersions
                         (ComponentVersion.component (VersionDependencies.component vd)))
                 /\ v <> ComponentVersion.version (VersionDependencies.component vd)
                 /\ id = BitId.changeVersion
                           (ComponentVersion.id (VersionDependencies.component vd)) v)
      \/ (exists h, ModelComponent.getHead
                      (ComponentVersion.component (VersionDependencies.component vd)) = Some h
                    /\ id = BitId.changeVersion
                              (ComponentVersion.id (VersionDependencies.component vd)) h))
  /\ (forall st r st',
        removeNils ids <> [] ->
        importManyWithAllVersions scope (S fuel) ids cache true st = (Ret r, st') ->
        exists versionDependenciesArr verDepsOfOlderVersions verDepsOfAllFlattenDeps st1 st2,
          importMany scope (S fuel) (List.map Some (removeNils ids)) cache true st
          = (Ret versionDependenciesArr, st1)
          /\ importMany scope (S fuel)
               (List.map Some (flat_map idsWithAllVersions versionDependenciesArr))
               cache true st1
             = (Ret verDepsOfOlderVersions, st2)
          /\ importManyWithAllVersions scope fuel
               (List.map Some (uniqFromArray
                  (dependenciesOnly ids (versionDependenciesArr ++ verDepsOfOlderVersions))))
               true false st2
             = (Ret verDepsOfAllFlattenDeps, st')
          /\ r = (versionDependenciesArr ++ verDepsOfOlderVersions)
                 ++ verDepsOfAllFlattenDeps)
  /\ (forall arr id,
        In id (uniqFromArray (dependenciesOnly ids arr)) <->
        (exists vd d, In vd arr /\ In d (VersionDependencies.allDependencies vd)
                      /\ id = ComponentVersion.id d)
        /\ ~ (exists i, In (Some i) ids /\ BitId.scope i = BitId.scope id
                        /\ BitId.name i = BitId.name id))
  /\ (forall arr, List.NoDup (uniqFromArray (dependenciesOnly ids arr))).
Proof.
  split; [|split; [|split]].
  - intros vd id. apply idsWithAllVersions_In.
  - intros st r st' Hne Hrun. cbn [importManyWithAllVersions] in Hrun.
    destruct (removeNils ids) as [|i l] eqn:E; [congruence|]. cbn [isEmpty] in Hrun.
    apply bind_Ret_inv in Hrun as (arr & st1 & Harr & Hrun).
    apply bind_Ret_inv in Hrun as (older & st2 & Holder & Hrun).
    apply bind_Ret_inv in Hrun as (deps & st3 & Hdeps & Hrun).
    apply ret_inv in Hrun as [-> ->].
    exists arr, older, deps, st1, st2. auto.
  - intros arr id. unfold uniqFromArray.
    rewrite uniq_In, dependenciesOnly_In, <- hasWithoutVersion_true.
    destruct (hasWithoutVersion ids id); split; intros [H1 H2]; split;
      try exact H1; try congruence.
  - intros arr. apply uniq_NoDup.
Qed.

(** *** Raw objects *)

Lemma missingHashes_In (w : W) (hashes : list string) (h : string) :
  In h (missingHashes scope w hashes) <-> In h hashes /\ objects_has scope w h = false.
Proof. unfold missingHashes. now rewrite filter_In, uniq_In, negb_true_iff. Qed.

Lemma missingHashes_NoDup (w : W) (hashes : list string) :
  List.NoDup (missingHashes scope w hashes).
Proof. unfold missingHashes. apply List.NoDup_filter, uniq_NoDup. Qed.

Lemma groupMissing_fold_lookup (w : W) (l : list (string * list string)) (s : string) :
  List.NoDup (List.map fst l) ->
  fold_right (fun '(scopeName, hashes) groupedHashedMissing =>
                let missing := missingHashes scope w hashes in
                if negb (Nat.eqb (length missing) 0)
                then <[scopeName := missing]> groupedHashedMissing
                else groupedHashedMissing)
             (∅ : gmap string (list string)) l !! s
  = (list_to_map l : gmap string (list string)) !! s ≫= keepMissing scope w.
Proof.
  induction l as [|[k hs] l IH]; intros Hnd; simpl.
  - now rewrite lookup_empty.
  - inversion Hnd as [|? ? Hk Hnd']; subst.
    destruct (decide (k = s)) as [->|Hne].
    + rewrite (lookup_insert_eq (list_to_map l)). simpl. unfold keepMissing.
      destruct (missingHashes scope w hs) as [|m ms] eqn:E; simpl.
      * etransitivity; [exact (IH Hnd')|].
        rewrite (not_elem_of_list_to_map_1 (M:=gmap string)); [reflexivity|].
        rewrite list_elem_of_In. exact Hk.
      * now rewrite lookup_insert_eq.
    + rewrite (lookup_insert_ne (list_to_map l)) by exact Hne.
      destruct (negb (Nat.eqb (length (missingHashes scope w hs)) 0)).
      * rewrite lookup_insert_ne by exact Hne. apply IH, Hnd'.
      * apply IH, Hnd'.
Qed.

Lemma groupMissing_lookup (w : W) (groupedHashes : gmap string (list string))
    (s : string) :
  groupMissing scope w groupedHashes !! s = groupedHashes !! s ≫= keepMissing scope w.
Proof.
  unfold groupMissing. rewrite groupMissing_fold_lookup.
  - now rewrite list_to_map_to_list.
  - rewrite <- NoDup_ListNoDup. apply NoDup_fst_map_to_list.
Qed.

(** C9 (as amended): for every scope of the request, [importManyObjects]
    keeps the requested hashes without duplicates that the local store
    lacks, and only scopes with such hashes enter the grouping of the fetch.
    When the grouping is empty the call returns at once and leaves the state
    alone: no fetch, no insert, no persist.  Otherwise it issues one fetch
    in all, not one per scope: a single request of type object that holds
    one group per scope with missing hashes; on an answer it inserts the
    objects in bulk and persists once, and these are its only three calls
    across the boundary; on a failure of the fetch it fails with the same
    error after the fetch alone. *)
Theorem C9_importManyObjects (groupedHashes : gmap string (list string))
    (st : State W) :
  let missing := groupMissing scope (world st) groupedHashes in
  (forall s, missing !! s = groupedHashes !! s ≫= keepMissing scope (world st))
  /\ (forall hashes h,
        In h (missingHashes scope (world st) hashes) <->
        In h hashes /\ objects_has scope (world st) h = false)
  /\ (forall hashes, List.NoDup (missingHashes scope (world st) hashes))
  /\ (missing = ∅ <->
      forall s hashes, groupedHashes !! s = Some hashes ->
                       missingHashes scope (world st) hashes = [])
  /\ importManyObjects scope groupedHashes st
     = if bool_decide (missing = ∅) then (Ret tt, st)
       else
         match remotes_fetch scope missing (opts_type "object") None (world st) with
         | (inl e, w') =>
             (Throw e,
              mkState w' (trace st ++ [EvFetch missing (opts_type "object") None]))
         | (inr objectList, w') =>
             (Ret tt,
              mkState (objects_persist scope (objects_addMany scope (getAll objectList) w'))
                      (trace st ++ [EvFetch missing (opts_type "object") None;
                                    EvAddMany (getAll objectList);
                                    EvPersist]))
         end.
Proof.
  intros missing. split; [|split; [|split; [|split]]].
  - intros s. apply groupMissing_lookup.
  - intros hashes h. apply missingHashes_In.
  - intros hashes. apply missingHashes_NoDup.
  - split.
    + intros Hempty s hashes Hs.
      pose proof (groupMissing_lookup (world st) groupedHashes s) as Hl.
      fold missing in Hl. rewrite Hempty, lookup_empty, Hs in Hl. simpl in Hl.
      unfold keepMissing in Hl.
      destruct (missingHashes scope (world st) hashes); [reflexivity | discriminate].
    + intros Hall. apply map_eq. intros s.
      unfold missing. rewrite groupMissing_lookup, lookup_empty.
      destruct (groupedHashes !! s) as [hashes|] eqn:Hs; [|reflexivity].
      simpl. unfold keepMissing. now rewrite (Hall s hashes Hs).
  - unfold importManyObjects, bind at 1. simpl. fold missing.
    case_bool_decide; [reflexivity|].
    unfold bind, fetch, addMany, persist_m, ret. simpl.
    destruct (remotes_fetch scope missing (opts_type "object") None (world st))
      as [[e|objectList] w']; simpl; [reflexivity|].
    rewrite <- !app_assoc. reflexivity.
Qed.

(** *** Missing version content *)

(** C6: let the version content of [id]'s exact version be absent for the
    record [component] of [id] (same owning scope).  If the scope of [id] is
    the importer's own, [componentToVersionDependencies] fails with the
    consistency error from an unchanged state: nothing is fetched or
    retried.  If the scope is external, it issues a fetch for the single id
    grouped under its scope, whatever the local store holds, writes the
    answer back for that id with persistence, and goes on as [_getExternal]
    with local fetch allowed, which expands the record found for [id] in
    the store as written. *)
Theorem C6_missing_version_content (fuel : nat) (component : ModelComponent.t)
    (id : BitId.t) (st : State W) :
  getVersion scope (world st) (toComponentVersion component (BitId.version id)) = None ->
  ModelComponent.scope component = BitId.scope id ->
  (BitId.isLocal (name scope) id = true ->
   componentToVersionDependencies scope (S fuel) component id st
   = (Throw (ShowDoctorError
               (versionNotFoundMessage scope
                  (toComponentVersion component (BitId.version id)) component)), st))
  /\ (BitId.isLocal (name scope) id = false ->
      componentToVersionDependencies scope (S (S fuel)) component id st
      = (objectList <- fetch scope {[ BitId.scope id := [BitId.toString id] ]}
                             opts_undefined None ;;
         writeManyComponentsToModel scope objectList (Some true) [id] ;;;
         _getExternal scope fuel id true) st)
  /\ (forall fuel' st' component',
        sources_get scope (world st') id = Some component' ->
        _getExternal scope (S fuel') id true st'
        = componentToVersionDependencies scope fuel' component' id st').
Proof.
  intros Hversion Hscope. split; [|split].
  - intros Hlocal. unfold BitId.isLocal in Hlocal. rewrite <- Hscope in Hlocal.
    simpl. unfold bind at 1, getVersion_m. simpl. rewrite Hversion, Hlocal. reflexivity.
  - intros Hext. unfold BitId.isLocal in Hext. rewrite <- Hscope in Hext.
    cbn [componentToVersionDependencies]. unfold bind at 1, getVersion_m.
    cbn [fst snd]. rewrite Hversion, Hext.
    cbn [_getExternal]. unfold bind at 1, sources_get_m.
    assert (Hg : groupByScopeName [id]
                 = ({[ BitId.scope id := [BitId.toString id] ]} : gmap string (list string))).
    { unfold groupByScopeName, groupArray. simpl.
      rewrite lookup_empty. simpl. rewrite fmap_insert, fmap_empty. reflexivity. }
    rewrite Hg.
    destruct (sources_get scope (world st) id); reflexivity.
  - intros fuel' st' component' Hget.
    cbn [_getExternal]. unfold bind at 1, sources_get_m. now rewrite Hget.
Qed.

(** *** The trace only grows *)

Lemma extends_quiet_read {A} (f : State W -> A) :
  extends (fun st : State W => (Ret (f st), st)).
Proof. intros st. exists []. simpl. now rewrite app_nil_r. Qed.

Lemma extends_fetch grouped opts ctx : extends (fetch scope grouped opts ctx).
Proof.
  intros st. unfold fetch. exists [EvFetch grouped opts ctx].
  destruct (remotes_fetch scope grouped opts ctx (world st)) as [[e|ol] w']; reflexivity.
Qed.

Lemma extends_write objectList persist ids :
  extends (writeManyComponentsToModel scope objectList persist ids).
Proof.
  intros st. unfold writeManyComponentsToModel. exists [EvWrite objectList persist ids].
  destruct (scope_writeManyComponentsToModel scope objectList persist ids (world st))
    as [[e|res] w']; reflexivity.
Qed.

Ltac extends_step :=
  match goal with
  | |- extends (bind _ _) => apply extends_bind; [|intros ?]
  | |- extends (ret _) => apply extends_ret
  | |- extends (throw _) => apply extends_throw
  | |- extends diverge => apply extends_diverge
  | |- extends (mapSeries _ _) => apply extends_mapSeries; intros ?
  | |- extends (fetch _ _ _ _) => apply extends_fetch
  | |- extends (writeManyComponentsToModel _ _ _ _) => apply extends_write
  | |- extends (sources_getMany _ _) => apply extends_quiet_read
  | |- extends (sources_get_m _ _) => apply extends_quiet_read
  | |- extends (getVersion_m _ _) => apply extends_quiet_read
  | |- extends (if ?b then _ else _) => destruct b
  | |- extends (match ?x with _ => _ end) => destruct x
  end.

Lemma extends_defToComponentVersion def : extends (@defToComponentVersion W def).
Proof. unfold defToComponentVersion. repeat extends_step. Qed.

Lemma extends_localDefToComponentVersion def :
  extends (@localDefToComponentVersion W def).
Proof. unfold localDefToComponentVersion. repeat extends_step. Qed.

Lemma extends_getExternalManyWithoutDependencies fuel ids localFetch :
  extends (_getExternalManyWithoutDependencies scope fuel ids localFetch).
Proof.
  revert ids localFetch. induction fuel as [|fuel IH]; intros ids localFetch; simpl.
  - apply extends_diverge.
  - repeat extends_step;
      auto using extends_defToComponentVersion.
Qed.

Lemma extends_importManyWithoutDependencies fuel ids cache :
  extends (importManyWithoutDependencies scope fuel ids cache).
Proof.
  unfold importManyWithoutDependencies, splitBy.
  repeat extends_step;
    auto using extends_localDefToComponentVersion,
               extends_getExternalManyWithoutDependencies.
Qed.

Lemma extends_expansion fuel :
  (forall component id, extends (componentToVersionDependencies scope fuel component id))
  /\ (forall id localFetch, extends (_getExternal scope fuel id localFetch)).
Proof.
  induction fuel as [|fuel [IHc IHe]]; split; intros; simpl;
    repeat extends_step;
    auto using extends_diverge, extends_importManyWithoutDependencies.
Qed.

Lemma extends_componentToVersionDependencies fuel component id :
  extends (componentToVersionDependencies scope fuel component id).
Proof. apply extends_expansion. Qed.

Lemma extends_getExternalMany fuel ids localFetch persist :
  extends (_getExternalMany scope fuel ids localFetch persist).
Proof.
  revert ids localFetch persist.
  induction fuel as [|fuel IH]; intros ids localFetch persist; simpl.
  - apply extends_diverge.
  - repeat extends_step; auto.
    unfold defToVersionDependencies. repeat extends_step.
    apply extends_componentToVersionDependencies.
Qed.

Lemma extends_importMany fuel ids cache persist :
  extends (importMany scope fuel ids cache persist).
Proof.
  unfold importMany. apply extends_bind; [apply extends_idsToString|]. intros _.
  destruct (isEmpty (removeNils ids)); [apply extends_ret|].
  destruct (List.partition _ _) as [locals externals].
  repeat extends_step; auto using extends_getExternalMany.
  unfold localDefToVersionDependencies. repeat extends_step.
  apply extends_componentToVersionDependencies.
Qed.

Lemma extends_importManyWithAllVersions fuel ids cache allDepsVersions :
  extends (importManyWithAllVersions scope fuel ids cache allDepsVersions).
Proof.
  revert ids cache allDepsVersions.
  induction fuel as [|fuel IH]; intros ids cache allDepsVersions; simpl.
  - apply extends_diverge.
  - destruct (isEmpty (removeNils ids)); [apply extends_ret|].
    apply extends_bind; [apply extends_importMany|]. intros arr.
    destruct allDepsVersions.
    + apply extends_bind; [apply extends_importMany|]. intros older.
      apply extends_bind; [apply IH|]. intros deps. apply extends_ret.
    + apply extends_bind; [apply extends_importManyWithoutDependencies|].
      intros _. apply extends_ret.
Qed.

Lemma emits_bind {A B} (m : M W A) (k : A -> M W B) st st0 ev :
  emits m st st0 ev -> (forall a, extends (k a)) -> emits (bind m k) st st0 ev.
Proof.
  intros [evs Hm] Hk. unfold emits, bind.
  destruct (m st) as [[a|e|] st1]; simpl in *; eauto.
  destruct (Hk a st1) as [evs' Hk']. exists (evs ++ evs').
  rewrite Hk', Hm, <- app_assoc. reflexivity.
Qed.

Lemma emits_after {A B} (m : M W A) (k : A -> M W B) st st1 st0 a ev :
  m st = (Ret a, st1) -> emits (k a) st1 st0 ev -> emits (bind m k) st st0 ev.
Proof. intros Hm Hk. unfold emits, bind. now rewrite Hm. Qed.

Lemma filter_isLeft_false (defs : list ComponentDef) :
  List.filter (isLeft false) defs = defs.
Proof. induction defs as [|d defs IH]; simpl; [reflexivity | now rewrite IH]. Qed.

Lemma map_def_id (f : BitId.t -> option ModelComponent.t) (ids : list BitId.t) :
  List.map def_id (List.map (fun id => mkDef id (f id)) ids) = ids.
Proof. induction ids as [|id ids IH]; simpl; [reflexivity | now rewrite IH]. Qed.

(** With local fetch disallowed, a non-empty request is always fetched. *)
Lemma getExternalMany_no_cache_fetches fuel ids persist st :
  ids <> [] ->
  emits (_getExternalMany scope (S fuel) ids false persist) st st
        (EvFetch (groupByScopeName ids) opts_undefined (Some (List.map BitId.toString ids))).
Proof.
  intros Hne. cbn [_getExternalMany].
  destruct ids as [|id ids]; [congruence|]. cbn [isEmpty].
  eapply emits_after; [reflexivity|]. cbv beta.
  rewrite filter_isLeft_false, map_def_id. cbn [List.map length Nat.eqb].
  apply emits_bind.
  - unfold emits, fetch.
    destruct (remotes_fetch _ _ _ _ _) as [[e|ol] w']; exists []; reflexivity.
  - intros ol. apply extends_bind; [apply extends_write|].
    intros res. apply extends_getExternalMany.
Qed.

(** C10: [importFromLanes] hands the identifiers of the fetched lanes to
    multi-version import with the cache flag false (and deep mode off).
    Once the lanes are fetched and the locally-owned identifiers among
    them are resolved, the externally-owned ones are all fetched from the
    remote in one request grouped by scope, whatever records the local
    store holds for them. *)
Theorem C10_importFromLanes_bypasses_cache (fuel : nat)
    (remoteLaneIds : list RemoteLaneId.t) (st st1 st2 : State W)
    (lanes : list Lane.t) (versionDeps : list VersionDependencies.t) :
  let bitIds := uniqFromArray (concat (List.map Lane.toBitIds lanes)) in
  let locals := List.filter (BitId.isLocal (name scope)) bitIds in
  let externals := List.filter (fun id => negb (BitId.isLocal (name scope) id)) bitIds in
  importLanes scope remoteLaneIds st = (Ret lanes, st1) ->
  externals <> [] ->
  mapSeries (localDefToVersionDependencies scope (S fuel))
            (List.map (fun id => mkDef id (sources_get scope (world st1) id)) locals) st1
  = (Ret versionDeps, st2) ->
  importFromLanes scope (S fuel) remoteLaneIds
  = (lanes' <- importLanes scope remoteLaneIds ;;
     importManyWithAllVersions scope (S fuel)
       (List.map Some (uniqFromArray (concat (List.map Lane.toBitIds lanes')))) false false ;;;
     ret lanes')
  /\ exists evs,
      trace (snd (importFromLanes scope (S fuel) remoteLaneIds st))
      = trace st2
          ++ EvFetch (groupByScopeName externals) opts_undefined
                     (Some (List.map BitId.toString externals)) :: evs.
Proof.
  intros bitIds locals externals Hlanes Hext Hlocal.
  split; [reflexivity|].
  change (emits (importFromLanes scope (S fuel) remoteLaneIds) st st2
            (EvFetch (groupByScopeName externals) opts_undefined
                     (Some (List.map BitId.toString externals)))).
  unfold importFromLanes.
  eapply emits_after; [exact Hlanes|]. fold bitIds.
  apply emits_bind; [|intros; apply extends_ret].
  cbn [importManyWithAllVersions]. rewrite removeNils_map_Some.
  assert (Hne : isEmpty bitIds = false).
  { apply isEmpty_false. intros Hnil. apply Hext. unfold externals. now rewrite Hnil. }
  rewrite Hne.
  apply emits_bind;
    [|intros; apply extends_bind;
      [apply extends_importManyWithoutDependencies | intros; apply extends_ret]].
  unfold emits. rewrite importMany_without_nils, Hne, partition_as_filter.
  fold locals. fold externals.
  change (emits (localDefs <- sources_getMany scope locals ;;
                 versionDeps' <- mapSeries (localDefToVersionDependencies scope (S fuel))
                                           localDefs ;;
                 externalDeps <- _getExternalMany scope (S fuel) externals false true ;;
                 ret (versionDeps' ++ externalDeps)) st1 st2
            (EvFetch (groupByScopeName externals) opts_undefined
                     (Some (List.map BitId.toString externals)))).
  eapply emits_after; [reflexivity|].
  eapply emits_after; [exact Hlocal|].
  apply emits_bind; [|intros; apply extends_ret].
  apply getExternalMany_no_cache_fetches. exact Hext.
Qed.

(** *** Local identifiers *)

Lemma filter_external_allLocal (ids : list BitId.t) :
  allLocal scope ids ->
  List.filter (fun id => negb (BitId.isLocal (name scope) id)) ids = [].
Proof.
  induction ids as [|id ids IH]; intros Hl; simpl; [reflexivity|].
  rewrite (Hl id) by now left. simpl. apply IH. intros x Hx. apply Hl. now right.
Qed.

Lemma filter_local_allLocal (ids : list BitId.t) :
  allLocal scope ids -> List.filter (BitId.isLocal (name scope)) ids = ids.
Proof.
  induction ids as [|id ids IH]; intros Hl; simpl; [reflexivity|].
  rewrite (Hl id) by now left. f_equal. apply IH. intros x Hx. apply Hl. now right.
Qed.

Lemma quiet_sources_getMany ids st : quiet (sources_getMany scope ids) st.
Proof. split; simpl; congruence. Qed.

Lemma quiet_localDefToComponentVersion def st :
  quiet (@localDefToComponentVersion W def) st.
Proof.
  unfold localDefToComponentVersion.
  destruct (def_component def); [apply quiet_ret | apply quiet_throw].
Qed.

(** Resolving local identifiers without dependencies touches nothing. *)
Lemma quiet_importManyWithoutDependencies_local fuel ids cache st :
  allLocal scope ids ->
  quiet (importManyWithoutDependencies scope (S fuel) (List.map Some ids) cache) st.
Proof.
  intros Hl. unfold importManyWithoutDependencies, splitBy.
  destruct (isEmpty (List.map Some ids)); [apply quiet_ret|].
  rewrite removeNils_map_Some.
  destruct (isEmpty ids); [apply quiet_ret|].
  rewrite filter_external_allLocal, filter_local_allLocal by exact Hl.
  apply quiet_bind; [apply quiet_sources_getMany|]. intros defs _.
  apply quiet_bind;
    [apply quiet_mapSeries; intros; apply quiet_localDefToComponentVersion|].
  intros cvs _.
  apply quiet_bind; [simpl; apply quiet_ret|]. intros ext _. apply quiet_ret.
Qed.

Lemma quiet_componentToVersionDependencies_local fuel c id st :
  staysLocal scope (world st) c id ->
  quiet (componentToVersionDependencies scope (S fuel) c id) st.
Proof.
  unfold staysLocal. intros Hs. cbn [componentToVersionDependencies].
  apply quiet_bind; [split; simpl; congruence|].
  intros version Hv. simpl in Hv. injection Hv as <-.
  destruct (getVersion scope (world st) (toComponentVersion c (BitId.version id)))
    as [v|].
  - destruct Hs as (H1 & H2 & H3).
    apply quiet_bind; [now apply quiet_importManyWithoutDependencies_local|].
    intros deps _.
    apply quiet_bind; [now apply quiet_importManyWithoutDependencies_local|].
    intros dev _.
    apply quiet_bind; [now apply quiet_importManyWithoutDependencies_local|].
    intros ext _. apply quiet_ret.
  - rewrite Hs, String.eqb_refl. apply quiet_throw.
Qed.

(** Whenever something is left, the resolver fetches it grouped by scope. *)
Lemma getExternalMany_fetches_grouped fuel ids localFetch persist st :
  let left := List.filter (isLeft localFetch)
                (List.map (fun id => mkDef id (sources_get scope (world st) id)) ids) in
  ids <> [] -> left <> [] ->
  emits (_getExternalMany scope (S fuel) ids localFetch persist) st st
        (EvFetch (groupByScopeName (List.map def_id left)) opts_undefined
                 (Some (List.map BitId.toString ids))).
Proof.
  intros left Hne Hleft. cbn [_getExternalMany].
  destruct ids as [|id ids]; [congruence|]. cbn [isEmpty].
  eapply emits_after; [reflexivity|]. cbv beta. fold left.
  destruct left as [|d left']; [congruence|]. cbn [length Nat.eqb].
  apply emits_bind.
  - unfold emits, fetch.
    destruct (remotes_fetch _ _ _ _ _) as [[e|ol] w']; exists []; reflexivity.
  - intros ol. apply extends_bind; [apply extends_write|].
    intros res. apply extends_getExternalMany.
Qed.

(** C3 (as amended): when every requested identifier is local, the remote
    resolver of [importMany] receives the empty list, so a fetch can only
    come from the expansion of dependencies.  If in addition the version
    content of every requested identifier that has a record keeps
    resolution local, [importMany] ends, with a result or an error, without
    any call across the boundary: the state, trace included, is unchanged.
    Whenever the resolver does fetch, the request is the grouping by owning
    scope of the identifiers that are left, and the group of a scope lists
    exactly the identifiers of that scope, in order. *)
Theorem C3_local_ids_no_fetch (fuel : nat) (ids : list (option BitId.t))
    (cache persist : bool) (st : State W) :
  allLocal scope (removeNils ids) ->
  (forall id c, In id (removeNils ids) ->
                sources_get scope (world st) id = Some c -> staysLocal scope (world st) c id) ->
  (snd (importMany scope (S fuel) ids cache persist st) = st
   /\ fst (importMany scope (S fuel) ids cache persist st) <> Diverge)
  /\ snd (List.partition (BitId.isLocal (name scope)) (removeNils ids)) = []
  /\ (forall st0, _getExternalMany scope (S fuel) [] cache persist st0 = (Ret [], st0))
  /\ (forall externals localFetch st0,
        let left := List.filter (isLeft localFetch)
                      (List.map (fun id => mkDef id (sources_get scope (world st0) id))
                                externals) in
        externals <> [] -> left <> [] ->
        exists evs,
          trace (snd (_getExternalMany scope (S fuel) externals localFetch persist st0))
          = trace st0 ++ EvFetch (groupByScopeName (List.map def_id left)) opts_undefined
                                 (Some (List.map BitId.toString externals)) :: evs)
  /\ (forall (externals : list BitId.t) s,
        groupByScopeName externals !! s
        = match ofScope s externals with
          | [] => None
          | l => Some (List.map BitId.toString l)
          end).
Proof.
  intros Hlocal Hstays. split; [|split; [|split; [|split]]].
  - change (quiet (importMany scope (S fuel) ids cache persist) st).
    unfold importMany.
    apply quiet_bind; [apply quiet_idsToString|]. intros str _.
    destruct (isEmpty (removeNils ids)); [apply quiet_ret|].
    rewrite partition_as_filter.
    rewrite filter_external_allLocal, filter_local_allLocal by exact Hlocal.
    apply quiet_bind; [apply quiet_sources_getMany|].
    intros defs Hdefs. simpl in Hdefs. injection Hdefs as <-.
    apply quiet_bind.
    + apply quiet_mapSeries. intros def Hdef.
      apply in_map_iff in Hdef as (id & <- & Hid).
      unfold localDefToVersionDependencies. simpl.
      destruct (sources_get scope (world st) id) as [c|] eqn:Hc; [|apply quiet_throw].
      apply quiet_componentToVersionDependencies_local. now apply Hstays.
    + intros vds _.
      apply quiet_bind; [simpl; apply quiet_ret|]. intros ext _. apply quiet_ret.
  - rewrite partition_as_filter. simpl. now apply filter_external_allLocal.
  - reflexivity.
  - intros externals localFetch st0 left Hne Hleft.
    now apply getExternalMany_fetches_grouped.
  - intros externals s. rewrite groupByScopeName_lookup. reflexivity.
Qed.

(** *** The states of a run *)

Lemma follows_refl (s : State W) : follows s s.
Proof. exists []. split; [now rewrite app_nil_r | reflexivity]. Qed.

Lemma follows_trans (s1 s2 s3 : State W) :
  follows s1 s2 -> follows s2 s3 -> follows s1 s3.
Proof.
  intros (e1 & H1 & W1) (e2 & H2 & W2). exists (e1 ++ e2). split.
  - rewrite H2, H1. now rewrite app_assoc.
  - rewrite W2, W1. now rewrite fold_left_app.
Qed.

Lemma performs_follows {A} (m : M W A) st r st' :
  performs m -> m st = (r, st') -> follows st st'.
Proof. intros Hm Hrun. specialize (Hm st). now rewrite Hrun in Hm. Qed.

Lemma performs_ret {A} (a : A) : performs (ret a).
Proof. intros st. apply follows_refl. Qed.

Lemma performs_throw {A} (e : Error) : performs (@throw W A e).
Proof. intros st. apply follows_refl. Qed.

Lemma performs_diverge {A} : performs (@diverge W A).
Proof. intros st. apply follows_refl. Qed.

Lemma performs_read {A} (f : State W -> A) :
  performs (fun st : State W => (Ret (f st), st)).
Proof. intros st. apply follows_refl. Qed.

Lemma performs_bind {A B} (m : M W A) (k : A -> M W B) :
  performs m -> (forall a, performs (k a)) -> performs (bind m k).
Proof.
  intros Hm Hk st. unfold bind. specialize (Hm st).
  destruct (m st) as [[a|e|] st1]; simpl in *; [|exact Hm|exact Hm].
  eapply follows_trans; [exact Hm | apply Hk].
Qed.

Lemma performs_mapSeries {A B} (f : A -> M W B) (l : list A) :
  (forall a, performs (f a)) -> performs (mapSeries f l).
Proof.
  intros Hf. induction l as [|x l IH]; simpl.
  - apply performs_ret.
  - apply performs_bind; [apply Hf|]. intros y.
    apply performs_bind; [exact IH|]. intros ys. apply performs_ret.
Qed.

Lemma performs_fetch grouped opts ctx : performs (fetch scope grouped opts ctx).
Proof.
  intros st. unfold fetch. exists [EvFetch grouped opts ctx]. simpl.
  destruct (remotes_fetch scope grouped opts ctx (world st)) as [[e|ol] w']; auto.
Qed.

Lemma performs_write objectList persist ids :
  performs (writeManyComponentsToModel scope objectList persist ids).
Proof.
  intros st. unfold writeManyComponentsToModel. exists [EvWrite objectList persist ids].
  simpl.
  destruct (scope_writeManyComponentsToModel scope objectList persist ids (world st))
    as [[e|res] w']; auto.
Qed.

Ltac performs_step :=
  match goal with
  | |- performs (bind _ _) => apply performs_bind; [|intros ?]
  | |- performs (ret _) => apply performs_ret
  | |- performs (throw _) => apply performs_throw
  | |- performs diverge => apply performs_diverge
  | |- performs (mapSeries _ _) => apply performs_mapSeries; intros ?
  | |- performs (fetch _ _ _ _) => apply performs_fetch
  | |- performs (writeManyComponentsToModel _ _ _ _) => apply performs_write
  | |- performs (sources_getMany _ _) => apply performs_read
  | |- performs (sources_get_m _ _) => apply performs_read
  | |- performs (getVersion_m _ _) => apply performs_read
  | |- performs (if ?b then _ else _) => destruct b
  | |- performs (match ?x with _ => _ end) => destruct x
  end.

Lemma performs_getExternalManyWithoutDependencies fuel ids localFetch :
  performs (_getExternalManyWithoutDependencies scope fuel ids localFetch).
Proof.
  revert ids localFetch. induction fuel as [|fuel IH]; intros ids localFetch; simpl.
  - apply performs_diverge.
  - repeat performs_step; auto.
    unfold defToComponentVersion. repeat performs_step.
Qed.

Lemma performs_importManyWithoutDependencies fuel ids cache :
  performs (importManyWithoutDependencies scope fuel ids cache).
Proof.
  unfold importManyWithoutDependencies, splitBy.
  repeat performs_step; auto using performs_getExternalManyWithoutDependencies.
  unfold localDefToComponentVersion. repeat performs_step.
Qed.

Lemma performs_expansion fuel :
  (forall component id, performs (componentToVersionDependencies scope fuel component id))
  /\ (forall id localFetch, performs (_getExternal scope fuel id localFetch)).
Proof.
  induction fuel as [|fuel [IHc IHe]]; split; intros; simpl;
    repeat performs_step;
    auto using performs_diverge, performs_importManyWithoutDependencies.
Qed.

Lemma performs_getExternalMany fuel ids localFetch persist :
  performs (_getExternalMany scope fuel ids localFetch persist).
Proof.
  revert ids localFetch persist.
  induction fuel as [|fuel IH]; intros ids localFetch persist; simpl.
  - apply performs_diverge.
  - repeat performs_step; auto.
    unfold defToVersionDependencies. repeat performs_step.
    apply performs_expansion.
Qed.

Lemma mapSeries_pure_state {A B} (f : A -> M W B) (l : list A) :
  (forall a st b st', f a st = (Ret b, st') -> st' = st) ->
  forall st r st', mapSeries f l st = (Ret r, st') -> st' = st.
Proof.
  intros Hf. induction l as [|x l IH]; intros st r st' Hrun; simpl in Hrun.
  - apply ret_inv in Hrun as [_ ->]. reflexivity.
  - apply bind_Ret_inv in Hrun as (y & st1 & Hx & Hrun).
    apply bind_Ret_inv in Hrun as (ys & st2 & Hl & Hrun).
    apply ret_inv in Hrun as [_ ->].
    apply Hf in Hx. apply IH in Hl. congruence.
Qed.

Lemma Forall2_filter_impl {A B} (f : A -> bool) (P Q : A -> B -> Prop) (l : list A) :
  (forall x y, f x = true -> P x y -> Q x y) ->
  forall k, Forall2 P (List.filter f l) k -> Forall2 Q (List.filter f l) k.
Proof.
  intros HPQ. induction l as [|a l IH]; intros k H; simpl in *.
  - inversion H. constructor.
  - destruct (f a) eqn:Ea; [|apply IH, H].
    inversion H as [|? y ? k' Hy Hk]; subst. constructor; [now apply HPQ | now apply IH].
Qed.

(** A fetch and the write-back of its answer, when both succeed and the
    write-back returns the identifiers it was given. *)
Lemma fetch_write_Ret (I : W -> Prop) {A} grouped opts ctx persist ids
    (k : list BitId.t -> M W A) st a st' :
  writeBacksReturnIds scope I -> I (world st) ->
  (objectList <- fetch scope grouped opts ctx ;;
   nonLaneIds <- writeManyComponentsToModel scope objectList persist ids ;;
   k nonLaneIds) st = (Ret a, st') ->
  exists st2, I (world st2) /\ follows st st2 /\ k ids st2 = (Ret a, st').
Proof.
  intros Hw HI Hrun.
  apply bind_Ret_inv in Hrun as (ol & st1 & Hf & Hrun).
  apply bind_Ret_inv in Hrun as (res & st2 & Hwr & Hrun).
  unfold fetch in Hf.
  destruct (remotes_fetch scope grouped opts ctx (world st)) as [[e|ol'] w1] eqn:Ef;
    [discriminate|].
  injection Hf as <- <-.
  unfold writeManyComponentsToModel in Hwr. cbn [world trace] in Hwr.
  destruct (scope_writeManyComponentsToModel scope ol' persist ids w1) as [[e|res'] w2] eqn:Ew;
    [discriminate|].
  injection Hwr as <- <-.
  destruct (Hw _ _ _ _ _ _ _ _ _ _ HI Ef Ew) as [-> HI2].
  exists (mkState w2 ((trace st ++ [EvFetch grouped opts ctx]) ++ [EvWrite ol' persist ids])).
  split; [exact HI2|]. split; [|exact Hrun].
  exists [EvFetch grouped opts ctx; EvWrite ol' persist ids]. cbn [trace world].
  split; [now rewrite <- app_assoc|].
  simpl. rewrite Ef. simpl. rewrite Ew. reflexivity.
Qed.

(** *** The entries of a dependency array *)

Lemma defs_entries (f : ComponentDef -> M W ComponentVersion.t) (w : W)
    (ids : list BitId.t) st r st' :
  (forall def b s s', f def s = (Ret b, s') ->
                      exists c, def_component def = Some c
                                /\ b = toComponentVersion c (BitId.version (def_id def))) ->
  mapSeries f (List.map (fun id => mkDef id (sources_get scope w id)) ids) st = (Ret r, st') ->
  Forall2 (fun id cv => entryOf scope w id = Some cv) ids r.
Proof.
  intros Hf Hrun.
  eapply (mapSeries_Forall2 f
            (fun def cv => entryOf scope w (def_id def) = Some cv)) in Hrun.
  - apply (proj1 (Forall2_fmap_l (fun id => mkDef id (sources_get scope w id)) _ ids r))
      in Hrun.
    exact Hrun.
  - intros def s b s' Hin Hb.
    apply in_map_iff in Hin as (id & <- & _).
    apply Hf in Hb as (c & Hc & ->). simpl in *.
    unfold entryOf. rewrite Hc. reflexivity.
Qed.

Lemma defToComponentVersion_Ret def b (s s' : State W) :
  defToComponentVersion def s = (Ret b, s') ->
  s' = s /\ exists c, def_component def = Some c
                      /\ b = toComponentVersion c (BitId.version (def_id def)).
Proof.
  unfold defToComponentVersion. destruct (def_component def) as [c|]; [|discriminate].
  intros H. apply ret_inv in H as [-> ->]. eauto.
Qed.

Lemma localDefToComponentVersion_Ret def b (s s' : State W) :
  localDefToComponentVersion def s = (Ret b, s') ->
  s' = s /\ exists c, def_component def = Some c
                      /\ b = toComponentVersion c (BitId.version (def_id def)).
Proof.
  unfold localDefToComponentVersion. destruct (def_component def) as [c|]; [|discriminate].
  intros H. apply ret_inv in H as [-> ->]. eauto.
Qed.

Lemma getExternalManyWithoutDependencies_resolved (I : W -> Prop) :
  writeBacksReturnIds scope I ->
  forall fuel ids localFetch st r st',
    I (world st) ->
    _getExternalManyWithoutDependencies scope fuel ids localFetch st = (Ret r, st') ->
    I (world st') /\ Forall2 (fun id cv => entryOf scope (world st') id = Some cv) ids r.
Proof.
  intros Hw. induction fuel as [|fuel IH]; intros ids localFetch st r st' HI Hrun.
  - discriminate.
  - cbn [_getExternalManyWithoutDependencies] in Hrun.
    destruct ids as [|id ids]; cbn [isEmpty] in Hrun.
    { apply ret_inv in Hrun as [-> ->]. split; [exact HI | constructor]. }
    apply bind_Ret_inv in Hrun as (defs & st1 & Hdefs & Hrun).
    injection Hdefs as <- <-.
    destruct (Nat.eqb _ 0).
    + assert (st' = st) as ->.
      { eapply mapSeries_pure_state; [|exact Hrun].
        intros def s b s' Hb. now apply defToComponentVersion_Ret in Hb. }
      split; [exact HI|].
      eapply defs_entries; [|exact Hrun].
      intros def b s s' Hb. now apply defToComponentVersion_Ret in Hb.
    + apply (fetch_write_Ret I) in Hrun as (st2 & HI2 & _ & Hrun);
        [|exact Hw | exact HI].
      eapply IH; eassumption.
Qed.

Lemma importManyWithoutDependencies_resolved (I : W -> Prop) fuel ids cache st r st' :
  writeBacksReturnIds scope I -> I (world st) ->
  importManyWithoutDependencies scope fuel (List.map Some ids) cache st = (Ret r, st') ->
  I (world st') /\ resolvedBetween scope st st' ids r /\ follows st st'.
Proof.
  intros Hw HI Hrun.
  assert (Hfollows : follows st st')
    by (eapply performs_follows; [apply performs_importManyWithoutDependencies | exact Hrun]).
  unfold importManyWithoutDependencies, splitBy in Hrun.
  rewrite removeNils_map_Some in Hrun.
  destruct ids as [|id ids]; cbn [List.map isEmpty] in Hrun.
  { apply ret_inv in Hrun as [-> ->]. repeat split; [exact HI | constructor | exact Hfollows]. }
  apply bind_Ret_inv in Hrun as (defs & st1 & Hdefs & Hrun).
  injection Hdefs as <- <-.
  apply bind_Ret_inv in Hrun as (cvs & st2 & Hcvs & Hrun).
  apply bind_Ret_inv in Hrun as (ext & st3 & Hext & Hrun).
  apply ret_inv in Hrun as [-> ->].
  assert (st2 = st) as ->.
  { eapply mapSeries_pure_state; [|exact Hcvs].
    intros def s b s' Hb. now apply localDefToComponentVersion_Ret in Hb. }
  apply (getExternalManyWithoutDependencies_resolved I Hw) in Hext as [HI3 Hext];
    [|exact HI].
  split; [exact HI3|]. split; [|exact Hfollows].
  unfold resolvedBetween, localsFirst. apply Forall2_app.
  - eapply (Forall2_filter_impl _ (fun id cv => entryOf scope (world st) id = Some cv)).
    + intros x y Hx Hy. rewrite Hx. exact Hy.
    + eapply defs_entries; [|exact Hcvs].
      intros def b s s' Hb. now apply localDefToComponentVersion_Ret in Hb.
  - eapply (Forall2_filter_impl _ (fun id cv => entryOf scope (world st3) id = Some cv)).
    + intros x y Hx Hy. apply negb_true_iff in Hx. rewrite Hx. exact Hy.
    + exact Hext.
Qed.


(** *** The closure of one component *)

Lemma expansion_closure (I : W -> Prop) :
  writeBacksReturnIds scope I ->
  forall fuel,
    (forall component id st vd st',
        I (world st) ->
        componentToVersionDependencies scope fuel component id st = (Ret vd, st') ->
        I (world st')
        /\ exists c version s0 s1 s2,
             (s0 = st /\ c = component \/ sources_get scope (world s0) id = Some c)
             /\ follows st s0
             /\ closureVia scope c version s0 s1 s2 st' id vd
             /\ (forall v0,
                   getVersion scope (world st)
                              (toComponentVersion component (BitId.version id)) = Some v0 ->
                   s0 = st /\ c = component /\ version = v0))
    /\ (forall id localFetch st vd st',
          I (world st) ->
          _getExternal scope fuel id localFetch st = (Ret vd, st') ->
          I (world st')
          /\ exists c version s0 s1 s2,
               sources_get scope (world s0) id = Some c
               /\ follows st s0
               /\ closureVia scope c version s0 s1 s2 st' id vd).
Proof.
  intros Hw.
  induction fuel as [|fuel [IHc IHe]]; split; intros until st'; intros HI Hrun;
    try discriminate.
  - cbn [componentToVersionDependencies] in Hrun.
    apply bind_Ret_inv in Hrun as (version & st1 & Hv & Hrun).
    unfold getVersion_m in Hv. injection Hv as <- <-.
    destruct (getVersion scope (world st) _) as [v|] eqn:Ev.
    + apply bind_Ret_inv in Hrun as (deps & s1 & Hdeps & Hrun).
      apply bind_Ret_inv in Hrun as (dev & s2 & Hdev & Hrun).
      apply bind_Ret_inv in Hrun as (ext & s3 & Hext & Hrun).
      apply ret_inv in Hrun as [-> ->].
      apply (importManyWithoutDependencies_resolved I) in Hdeps as (HI1 & Hd1 & Hf1);
        [|exact Hw | exact HI].
      apply (importManyWithoutDependencies_resolved I) in Hdev as (HI2 & Hd2 & Hf2);
        [|exact Hw | exact HI1].
      apply (importManyWithoutDependencies_resolved I) in Hext as (HI3 & Hd3 & Hf3);
        [|exact Hw | exact HI2].
      split; [exact HI3|]. exists component, v, st, s1, s2.
      split; [left; auto|]. split; [apply follows_refl|]. split.
      { unfold closureVia. cbn [VersionDependencies.component VersionDependencies.sourceScope
                                VersionDependencies.dependencies
                                VersionDependencies.devDependencies
                                VersionDependencies.extensionsDependencies].
        tauto. }
      intros v0 Hv0. split; [reflexivity|]. split; [reflexivity | congruence].
    + destruct (String.eqb _ _); [discriminate|].
      apply IHe in Hrun as (HI' & c & v & s0 & s1 & s2 & Hc & Hf & Hcl); [|exact HI].
      split; [exact HI'|]. exists c, v, s0, s1, s2.
      split; [right; exact Hc|]. split; [exact Hf|]. split; [exact Hcl|].
      intros v0 Hv0. congruence.
  - cbn [_getExternal] in Hrun.
    apply bind_Ret_inv in Hrun as (component & st1 & Hc & Hrun).
    unfold sources_get_m in Hc. injection Hc as <- <-.
    assert (Hfetch :
              (objectList <- fetch scope (groupByScopeName [id]) opts_undefined None ;;
               writeManyComponentsToModel scope objectList (Some true) [id] ;;;
               _getExternal scope fuel id true) st = (Ret vd, st') ->
              I (world st')
              /\ exists c version s0 s1 s2,
                   sources_get scope (world s0) id = Some c
                   /\ follows st s0
                   /\ closureVia scope c version s0 s1 s2 st' id vd).
    { intros H.
      apply (fetch_write_Ret I _ _ _ _ _ (fun _ => _getExternal scope fuel id true)) in H
        as (st2 & HI2 & Hf2 & H); [|exact Hw | exact HI].
      apply IHe in H as (HI' & c & v & s0 & s1 & s2 & Hc & Hf & Hcl); [|exact HI2].
      split; [exact HI'|]. exists c, v, s0, s1, s2.
      split; [exact Hc|]. split; [eapply follows_trans; eassumption | exact Hcl]. }
    destruct (sources_get scope (world st) id) as [c|] eqn:Ec; [|exact (Hfetch Hrun)].
    destruct localFetch; [|exact (Hfetch Hrun)].
    apply IHc in Hrun as (HI' & c' & v & s0 & s1 & s2 & Hd & Hf & Hcl & _); [|exact HI].
    split; [exact HI'|]. exists c', v, s0, s1, s2. split; [|split; assumption].
    destruct Hd as [[-> ->]|Hd]; assumption.
Qed.


(** *** Termination of the recursive resolvers *)

Lemma bind_no_diverge {A B} (m : M W A) (k : A -> M W B) st :
  fst (m st) <> Diverge ->
  (forall a st1, m st = (Ret a, st1) -> fst (k a st1) <> Diverge) ->
  fst (bind m k st) <> Diverge.
Proof.
  intros Hm Hk. unfold bind.
  destruct (m st) as [[a|e|] st1]; simpl in *; [eauto | discriminate | congruence].
Qed.

Lemma getExternalManyWithoutDependencies_ends Inv measure :
  makesProgress scope opts_withoutDependencies Inv measure ->
  forall fuel ids localFetch st,
    Inv localFetch (world st) ids ->
    measure (world st) ids < fuel ->
    fst (_getExternalManyWithoutDependencies scope fuel ids localFetch st) <> Diverge.
Proof.
  intros Hp. induction fuel as [|fuel IH]; intros ids localFetch st HInv Hm; [lia|].
  cbn [_getExternalManyWithoutDependencies].
  destruct (isEmpty ids) eqn:Eids; [discriminate|]. apply isEmpty_false in Eids.
  unfold bind at 1. cbn [sources_getMany fst snd]. cbv zeta.
  change (List.filter (isLeft localFetch)
            (List.map (fun id => mkDef id (sources_get scope (world st) id)) ids))
    with (leftOf scope localFetch (world st) ids).
  destruct (leftOf scope localFetch (world st) ids) as [|d left] eqn:El;
    cbn [length Nat.eqb].
  - apply mapSeries_no_diverge. intros def s _.
    unfold defToComponentVersion. destruct (def_component def); discriminate.
  - unfold bind at 1. unfold fetch at 1.
    destruct (remotes_fetch scope _ _ _ (world st)) as [[e|ol] w1] eqn:Ef; [discriminate|].
    unfold bind at 1. unfold writeManyComponentsToModel at 1. cbn [world trace].
    destruct (scope_writeManyComponentsToModel scope ol None ids w1) as [[e|res] w2] eqn:Ew;
      [discriminate|].
    assert (Hrt : roundTrip scope opts_withoutDependencies None localFetch (world st) ids
                            w2 res).
    { split; [exact Eids|]. rewrite El. split; [discriminate|]. eauto. }
    destruct (Hp _ _ _ _ _ _ HInv Hrt) as [HInv2 Hlt].
    apply IH; [exact HInv2 | cbn [world]; lia].
Qed.

(** One call of [_getExternalMany]: it ends, or it is the expansion of its
    request, or it makes a round-trip and goes on as the call on the
    residual. *)
Lemma getExternalMany_step fuel ids localFetch persist st :
  fst (_getExternalMany scope (S fuel) ids localFetch persist st) <> Diverge
  \/ _getExternalMany scope (S fuel) ids localFetch persist st
     = mapSeries (defToVersionDependencies scope (S fuel)) (defsOf scope (world st) ids) st
  \/ exists res st2,
       roundTrip scope opts_undefined (Some persist) localFetch (world st) ids (world st2) res
       /\ follows st st2
       /\ _getExternalMany scope (S fuel) ids localFetch persist st
          = _getExternalMany scope fuel res true true st2.
Proof.
  remember (_getExternalMany scope (S fuel) ids localFetch persist st) as run eqn:Hrun.
  cbn [_getExternalMany] in Hrun.
  destruct (isEmpty ids) eqn:Eids; [left; subst run; discriminate|].
  apply isEmpty_false in Eids.
  unfold bind at 1 in Hrun. cbn [sources_getMany fst snd] in Hrun. cbv zeta in Hrun.
  change (List.filter (isLeft localFetch)
            (List.map (fun id => mkDef id (sources_get scope (world st) id)) ids))
    with (leftOf scope localFetch (world st) ids) in Hrun.
  change (List.map (fun id => mkDef id (sources_get scope (world st) id)) ids)
    with (defsOf scope (world st) ids) in Hrun.
  destruct (leftOf scope localFetch (world st) ids) as [|d left] eqn:El;
    cbn [length Nat.eqb] in Hrun.
  - right. left. exact Hrun.
  - unfold bind at 1 in Hrun. unfold fetch at 1 in Hrun.
    destruct (remotes_fetch scope _ _ _ (world st)) as [[e|ol] w1] eqn:Ef;
      [left; subst run; discriminate|].
    unfold bind at 1 in Hrun. unfold writeManyComponentsToModel at 1 in Hrun.
    cbn [world trace] in Hrun.
    destruct (scope_writeManyComponentsToModel scope ol (Some persist) ids w1)
      as [[e|res] w2] eqn:Ew; [left; subst run; discriminate|].
    right. right.
    exists res, (mkState w2 ((trace st ++ [EvFetch (groupByScopeName (List.map def_id (d :: left)))
                                                   opts_undefined
                                                   (Some (List.map BitId.toString ids))])
                             ++ [EvWrite ol (Some persist) ids])).
    split; [|split; [|exact Hrun]].
    + split; [exact Eids|]. rewrite El. split; [discriminate|]. eauto.
    + exists [EvFetch (groupByScopeName (List.map def_id (d :: left))) opts_undefined
                      (Some (List.map BitId.toString ids));
              EvWrite ol (Some persist) ids].
      cbn [trace world]. split; [now rewrite <- app_assoc|].
      cbn [fold_left perform]. rewrite Ef. cbn [snd]. rewrite Ew. reflexivity.
Qed.

Lemma getExternalMany_runs_out_in_expansions Inv measure :
  makesProgress scope opts_undefined Inv measure ->
  forall fuel ids localFetch persist st,
    Inv localFetch (world st) ids ->
    measure (world st) ids < fuel ->
    fst (_getExternalMany scope fuel ids localFetch persist st) = Diverge ->
    exists k res st2,
      fuel - measure (world st) ids <= k /\ k <= fuel
      /\ follows st st2
      /\ _getExternalMany scope fuel ids localFetch persist st
         = mapSeries (defToVersionDependencies scope k) (defsOf scope (world st2) res) st2.
Proof.
  intros Hp. induction fuel as [|fuel IH]; intros ids localFetch persist st HInv Hm Hd; [lia|].
  destruct (getExternalMany_step fuel ids localFetch persist st)
    as [Hn|[Hb|(res & st2 & Hrt & Hf & Hstep)]].
  - contradiction.
  - exists (S fuel), ids, st.
    split; [lia|]. split; [lia|]. split; [apply follows_refl | exact Hb].
  - destruct (Hp _ _ _ _ _ _ HInv Hrt) as [HInv2 Hlt].
    rewrite Hstep in Hd. apply IH in Hd; [|exact HInv2 | lia].
    destruct Hd as (k & res' & st3 & Hk1 & Hk2 & Hf3 & Heq).
    exists k, res', st3. split; [lia|]. split; [lia|].
    split; [eapply follows_trans; eassumption|]. rewrite Hstep. exact Heq.
Qed.

(** C1 (as amended): the recursive resolvers carry no progress check and no
    error for lack of progress; each round-trip recurses on the residual
    that the write-back returns, so that the progress of the round-trips is
    all that bounds their number.  If, from the requests and stores that the
    run reaches ([Inv]), every round-trip decreases a measure of the store
    and of the residual (such as the number of residual identifiers without
    a record), then with more fuel than the measure of the first request
    [_getExternalManyWithoutDependencies] returns or fails, and
    [_getExternalMany] can run out of fuel only inside the expansions of its
    base case: it is then the expansion of a residual in a state of the run,
    made with all the fuel that the round-trips have not used. *)
Theorem C1_round_trips_end_when_they_make_progress
    (Inv : bool -> W -> list BitId.t -> Prop) (measure : W -> list BitId.t -> nat)
    (fuel : nat) (ids : list BitId.t) (localFetch persist : bool) (st : State W) :
  Inv localFetch (world st) ids ->
  measure (world st) ids < fuel ->
  (makesProgress scope opts_withoutDependencies Inv measure ->
   fst (_getExternalManyWithoutDependencies scope fuel ids localFetch st) <> Diverge)
  /\ (makesProgress scope opts_undefined Inv measure ->
      fst (_getExternalMany scope fuel ids localFetch persist st) = Diverge ->
      exists k res st2,
        fuel - measure (world st) ids <= k /\ k <= fuel
        /\ follows st st2
        /\ _getExternalMany scope fuel ids localFetch persist st
           = mapSeries (defToVersionDependencies scope k)
                       (defsOf scope (world st2) res) st2).
Proof.
  intros HInv Hm. split; intros Hp.
  - now apply (getExternalManyWithoutDependencies_ends Inv measure).
  - now apply (getExternalMany_runs_out_in_expansions Inv measure).
Qed.

(** *** Nil entries *)

(** C2, at its failing inputs: a request that holds a nil entry makes
    [importMany] fail with a [TypeError] from an unchanged state, whatever
    the other entries: the string form of the request is computed for the
    log before the nil entries are removed.  The resolution without
    dependencies, which logs the request by other means, skips the nil
    entry: it does what it does on the request without that entry. *)
Theorem C2_nil_entry_rejects (fuel : nat) (pre post : list (option BitId.t))
    (cache persist : bool) (st : State W) :
  importMany scope fuel (pre ++ None :: post) cache persist st
  = (Throw (TypeError "Cannot read property 'toString' of null"), st)
  /\ removeNils (pre ++ None :: post) = removeNils (pre ++ post)
  /\ importManyWithoutDependencies scope fuel (pre ++ None :: post) cache st
     = importManyWithoutDependencies scope fuel (pre ++ post) cache st.
Proof.
  assert (Hnils : removeNils (pre ++ None :: post) = removeNils (pre ++ post)).
  { unfold removeNils. rewrite !flat_map_app. reflexivity. }
  split; [|split; [exact Hnils|]].
  - unfold importMany, bind at 1, idsToString.
    replace (BitIds_toString (pre ++ None :: post)) with (@None string); [reflexivity|].
    symmetry. apply BitIds_toString_None. apply in_or_app. right. now left.
  - unfold importManyWithoutDependencies. rewrite Hnils.
    assert (Hne : isEmpty (pre ++ None :: post) = false)
      by (apply isEmpty_false; destruct pre; discriminate).
    rewrite Hne.
    destruct (pre ++ post) as [|o l]; reflexivity.
Qed.

(** *** Round-trips *)

(** One round-trip of [_getExternalMany]: fetch what is left, write it back
    and recurse on the residual with the defaults. *)
Lemma getExternalMany_round_trip fuel ids localFetch persist st objectList w1 res w2 :
  let left := List.filter (isLeft localFetch)
                (List.map (fun id => mkDef id (sources_get scope (world st) id)) ids) in
  let grouped := groupByScopeName (List.map def_id left) in
  let context := Some (List.map BitId.toString ids) in
  ids <> [] -> left <> [] ->
  remotes_fetch scope grouped opts_undefined context (world st) = (inr objectList, w1) ->
  scope_writeManyComponentsToModel scope objectList (Some persist) ids w1 = (inr res, w2) ->
  _getExternalMany scope (S fuel) ids localFetch persist st
  = _getExternalMany scope fuel res true true
      (mkState w2 (trace st ++ [EvFetch grouped opts_undefined context;
                                EvWrite objectList (Some persist) ids])).
Proof.
  intros left grouped context Hne Hleft Hfetch Hwrite.
  cbn [_getExternalMany].
  destruct ids as [|id ids]; [congruence|]. cbn [isEmpty].
  unfold bind at 1. cbn [sources_getMany fst snd]. fold left.
  destruct left as [|d left'] eqn:E; [congruence|]. cbn [length Nat.eqb].
  unfold bind at 1. unfold fetch at 1. fold grouped. fold context.
  rewrite Hfetch. cbn [world trace].
  unfold bind at 1. unfold writeManyComponentsToModel at 1. cbn [world trace].
  rewrite Hwrite. rewrite <- app_assoc. reflexivity.
Qed.

(** The persist flag of the caller reaches the first write-back only: when a
    round-trip leaves something to fetch, the write-back of the next
    round-trip is made with persistence enabled, whatever the flag was. *)
Lemma getExternalMany_second_write_persists fuel ids localFetch persist st
    objectList w1 res w2 objectList2 w3 :
  let left := List.filter (isLeft localFetch)
                (List.map (fun id => mkDef id (sources_get scope (world st) id)) ids) in
  let grouped := groupByScopeName (List.map def_id left) in
  let context := Some (List.map BitId.toString ids) in
  let left2 := List.filter (isLeft true)
                 (List.map (fun id => mkDef id (sources_get scope w2 id)) res) in
  let grouped2 := groupByScopeName (List.map def_id left2) in
  let context2 := Some (List.map BitId.toString res) in
  ids <> [] -> left <> [] ->
  remotes_fetch scope grouped opts_undefined context (world st) = (inr objectList, w1) ->
  scope_writeManyComponentsToModel scope objectList (Some persist) ids w1 = (inr res, w2) ->
  res <> [] -> left2 <> [] ->
  remotes_fetch scope grouped2 opts_undefined context2 w2 = (inr objectList2, w3) ->
  exists evs,
    trace (snd (_getExternalMany scope (S (S fuel)) ids localFetch persist st))
    = trace st ++ [EvFetch grouped opts_undefined context;
                   EvWrite objectList (Some persist) ids;
                   EvFetch grouped2 opts_undefined context2;
                   EvWrite objectList2 (Some true) res] ++ evs.
Proof.
  intros left grouped context left2 grouped2 context2
         Hne Hleft Hfetch Hwrite Hne2 Hleft2 Hfetch2.
  rewrite (getExternalMany_round_trip (S fuel) ids localFetch persist st
             objectList w1 res w2 Hne Hleft Hfetch Hwrite).
  fold left. fold grouped. fold context.
  set (st2 := mkState w2 _).
  cbn [_getExternalMany].
  destruct res as [|r res']; [congruence|]. cbn [isEmpty].
  unfold bind at 1. cbn [sources_getMany fst snd]. cbn [st2 world]. fold left2.
  destruct left2 as [|d left2'] eqn:E; [congruence|]. cbn [length Nat.eqb].
  unfold bind at 1. unfold fetch at 1. fold grouped2. fold context2.
  cbn [st2 world trace]. rewrite Hfetch2.
  unfold bind at 1. unfold writeManyComponentsToModel at 1. cbn [world trace].
  destruct (scope_writeManyComponentsToModel scope objectList2 (Some true) (r :: res') w3)
    as [[e|res2] w4].
  - exists []. cbn [snd trace]. rewrite <- !app_assoc. reflexivity.
  - destruct (extends_getExternalMany fuel res2 true true
                (mkState w4 (((trace st ++ [EvFetch grouped opts_undefined context;
                                            EvWrite objectList (Some persist) ids])
                              ++ [EvFetch grouped2 opts_undefined context2])
                             ++ [EvWrite objectList2 (Some true) (r :: res')])))
      as [evs Hevs].
    exists evs. rewrite Hevs. cbn [trace]. rewrite <- !app_assoc. reflexivity.
Qed.

End ImporterFacts.


(** * Further properties of the importer *)

Section MoreFacts.
Context {W : Type} (scope : Scope W).
Local Abbreviation extends := (extends (W:=W)).
Local Abbreviation quiet := (quiet (W:=W)).
Local Abbreviation emits := (emits (W:=W)).
Local Abbreviation adds := (adds (W:=W)).
Local Abbreviation follows := (follows scope).

(** ** What the resolvers send across the boundary *)

Lemma adds_ret P {A} (a : A) : adds P (ret a).
Proof. intros st. exists []. simpl. rewrite app_nil_r. auto. Qed.

Lemma adds_throw P {A} (e : Error) : adds P (@throw W A e).
Proof. intros st. exists []. simpl. rewrite app_nil_r. auto. Qed.

Lemma adds_diverge P {A} : adds P (@diverge W A).
Proof. intros st. exists []. simpl. rewrite app_nil_r. auto. Qed.

Lemma adds_read P {A} (f : State W -> A) : adds P (fun st : State W => (Ret (f st), st)).
Proof. intros st. exists []. simpl. rewrite app_nil_r. auto. Qed.

Lemma adds_bind P {A B} (m : M W A) (k : A -> M W B) :
  adds P m -> (forall a, adds P (k a)) -> adds P (bind m k).
Proof.
  intros Hm Hk st. unfold bind.
  destruct (Hm st) as (evs & Hevs & HP).
  destruct (m st) as [[a|e|] st1]; simpl in *; eauto.
  destruct (Hk a st1) as (evs' & Hevs' & HP'). exists (evs ++ evs').
  rewrite Hevs', Hevs, app_assoc. split; [reflexivity | now apply Forall_app].
Qed.

Lemma adds_catch P {A} (m : M W A) (h : Error -> M W A) :
  adds P m -> (forall e, adds P (h e)) -> adds P (catch m h).
Proof.
  intros Hm Hh st. unfold catch.
  destruct (Hm st) as (evs & Hevs & HP).
  destruct (m st) as [[a|e|] st1]; simpl in *; eauto.
  destruct (Hh e st1) as (evs' & Hevs' & HP'). exists (evs ++ evs').
  rewrite Hevs', Hevs, app_assoc. split; [reflexivity | now apply Forall_app].
Qed.

Lemma adds_mapSeries P {A B} (f : A -> M W B) (l : list A) :
  (forall a, adds P (f a)) -> adds P (mapSeries f l).
Proof.
  intros Hf. induction l as [|x l IH]; simpl.
  - apply adds_ret.
  - apply adds_bind; [apply Hf|]. intros y.
    apply adds_bind; [exact IH|]. intros ys. apply adds_ret.
Qed.

Lemma adds_weaken (P Q : Event -> Prop) {A} (m : M W A) :
  (forall e, P e -> Q e) -> adds P m -> adds Q m.
Proof.
  intros HPQ Hm st. destruct (Hm st) as (evs & Hevs & HP).
  exists evs. split; [exact Hevs|]. eapply Forall_impl; eauto.
Qed.

Lemma adds_fetch (P : Event -> Prop) grouped opts ctx :
  P (EvFetch grouped opts ctx) -> adds P (fetch scope grouped opts ctx).
Proof.
  intros HP st. unfold fetch. exists [EvFetch grouped opts ctx].
  destruct (remotes_fetch scope grouped opts ctx (world st)) as [[e|ol] w']; auto.
Qed.

Lemma adds_write (P : Event -> Prop) objectList persist ids :
  P (EvWrite objectList persist ids) ->
  adds P (writeManyComponentsToModel scope objectList persist ids).
Proof.
  intros HP st. unfold writeManyComponentsToModel. exists [EvWrite objectList persist ids].
  destruct (scope_writeManyComponentsToModel scope objectList persist ids (world st))
    as [[e|res] w']; auto.
Qed.

Lemma groupByScopeName_nonempty {A : Type} `{ScopedId A} (x : A) (l : list A) :
  groupByScopeName (x :: l) <> ∅.
Proof.
  intros Hempty.
  pose proof (groupByScopeName_lookup (x :: l) (scopeOf x)) as Hl.
  rewrite Hempty, lookup_empty in Hl. unfold ofScope in Hl. simpl in Hl.
  rewrite String.eqb_refl in Hl. discriminate.
Qed.

Lemma shallowCall_resolverCall (e : Event) : shallowCall e -> resolverCall e.
Proof.
  destruct e; simpl; try tauto.
  intros (ids & left & Hne & _ & -> & -> & _). split; [|reflexivity].
  destruct left; [congruence | apply groupByScopeName_nonempty].
Qed.

Lemma left_subset (f : BitId.t -> option ModelComponent.t) (localFetch : bool)
    (ids : list BitId.t) (id : BitId.t) :
  In id (List.map def_id
           (List.filter (isLeft localFetch) (List.map (fun i => mkDef i (f i)) ids))) ->
  In id ids.
Proof.
  intros Hin. apply in_map_iff in Hin as (d & <- & Hd).
  apply filter_In in Hd as [Hd _]. apply in_map_iff in Hd as (i & <- & Hi). exact Hi.
Qed.

Lemma adds_getExternalManyWithoutDependencies fuel ids localFetch :
  adds shallowCall (_getExternalManyWithoutDependencies scope fuel ids localFetch).
Proof.
  revert ids localFetch. induction fuel as [|fuel IH]; intros ids localFetch.
  - apply adds_diverge.
  - cbn [_getExternalManyWithoutDependencies].
    destruct ids as [|id ids]; cbn [isEmpty]; [apply adds_ret|].
    intros st. unfold bind at 1. cbn [sources_getMany fst snd]. cbv zeta.
    match goal with
    | |- exists evs, trace (snd (?m st)) = _ /\ _ =>
        cut (adds shallowCall m); [intros H; exact (H st)|]
    end.
    destruct (List.filter (isLeft localFetch) _) as [|d left] eqn:E; cbn [length Nat.eqb].
    + apply adds_mapSeries. intros def. unfold defToComponentVersion.
      destruct (def_component def); [apply adds_ret | apply adds_throw].
    + apply adds_bind.
      * apply adds_fetch. simpl. exists (id :: ids), (List.map def_id (d :: left)).
        split; [discriminate|]. split; [|auto].
        intros i Hi. rewrite <- E in Hi. eapply left_subset. exact Hi.
      * intros ol. apply adds_bind; [|intros res; apply IH].
        apply adds_write. simpl. split; [reflexivity | discriminate].
Qed.

Lemma adds_importManyWithoutDependencies fuel ids cache :
  adds shallowCall (importManyWithoutDependencies scope fuel ids cache).
Proof.
  unfold importManyWithoutDependencies, splitBy.
  destruct (isEmpty ids); [apply adds_ret|].
  destruct (isEmpty (removeNils ids)); [apply adds_ret|].
  apply adds_bind; [apply adds_read|]. intros defs.
  apply adds_bind.
  - apply adds_mapSeries. intros def. unfold localDefToComponentVersion.
    destruct (def_component def); [apply adds_ret | apply adds_throw].
  - intros cvs. apply adds_bind; [apply adds_getExternalManyWithoutDependencies|].
    intros ext. apply adds_ret.
Qed.

Lemma adds_expansion fuel :
  (forall component id,
      adds resolverCall (componentToVersionDependencies scope fuel component id))
  /\ (forall id localFetch, adds resolverCall (_getExternal scope fuel id localFetch)).
Proof.
  assert (Hshallow : forall f ids c,
             adds resolverCall (importManyWithoutDependencies scope f ids c)).
  { intros. eapply adds_weaken;
      [apply shallowCall_resolverCall | apply adds_importManyWithoutDependencies]. }
  induction fuel as [|fuel [IHc IHe]]; split; intros; try apply adds_diverge.
  - cbn [componentToVersionDependencies].
    apply adds_bind; [apply adds_read|]. intros [v|].
    + repeat (apply adds_bind; [apply Hshallow|]; intros ?). apply adds_ret.
    + destruct (String.eqb _ _); [apply adds_throw | apply IHe].
  - cbn [_getExternal].
    apply adds_bind; [apply adds_read|]. intros component.
    assert (Hfetch : adds resolverCall
              (objectList <- fetch scope (groupByScopeName [id]) opts_undefined None ;;
               writeManyComponentsToModel scope objectList (Some true) [id] ;;;
               _getExternal scope fuel id true)).
    { apply adds_bind.
      - apply adds_fetch. simpl. split; [apply groupByScopeName_nonempty | reflexivity].
      - intros ol. apply adds_bind; [|intros; apply IHe].
        apply adds_write. simpl. discriminate. }
    destruct component as [c|]; [|exact Hfetch].
    destruct localFetch; [apply IHc | exact Hfetch].
Qed.

Lemma adds_getExternalMany fuel ids localFetch persist :
  adds resolverCall (_getExternalMany scope fuel ids localFetch persist).
Proof.
  revert ids localFetch persist.
  induction fuel as [|fuel IH]; intros ids localFetch persist.
  - apply adds_diverge.
  - cbn [_getExternalMany].
    destruct ids as [|id ids]; cbn [isEmpty]; [apply adds_ret|].
    apply adds_bind; [apply adds_read|]. intros defs. cbv zeta.
    destruct (List.filter (isLeft localFetch) defs) as [|d left]; cbn [length Nat.eqb].
    + apply adds_mapSeries. intros def. unfold defToVersionDependencies.
      destruct (def_component def); [apply adds_expansion | apply adds_throw].
    + apply adds_bind.
      * apply adds_fetch. simpl. split; [apply groupByScopeName_nonempty | reflexivity].
      * intros ol. apply adds_bind; [|intros res; apply IH].
        apply adds_write. simpl. discriminate.
Qed.

Lemma adds_importMany fuel ids cache persist :
  adds resolverCall (importMany scope fuel ids cache persist).
Proof.
  unfold importMany. apply adds_bind.
  { unfold idsToString. destruct (BitIds_toString ids); [apply adds_ret | apply adds_throw]. }
  intros _. destruct (isEmpty (removeNils ids)); [apply adds_ret|].
  destruct (List.partition _ _) as [locals externals].
  apply adds_bind; [apply adds_read|]. intros defs.
  apply adds_bind.
  - apply adds_mapSeries. intros def. unfold localDefToVersionDependencies.
    destruct (def_component def); [apply adds_expansion | apply adds_throw].
  - intros vds. apply adds_bind; [apply adds_getExternalMany|]. intros ext. apply adds_ret.
Qed.

Lemma adds_importManyWithAllVersions fuel ids cache allDepsVersions :
  adds resolverCall (importManyWithAllVersions scope fuel ids cache allDepsVersions).
Proof.
  revert ids cache allDepsVersions.
  induction fuel as [|fuel IH]; intros ids cache allDepsVersions.
  - apply adds_diverge.
  - cbn [importManyWithAllVersions].
    destruct (isEmpty (removeNils ids)); [apply adds_ret|].
    apply adds_bind; [apply adds_importMany|]. intros arr. cbv zeta.
    destruct allDepsVersions.
    + apply adds_bind; [apply adds_importMany|]. intros older.
      apply adds_bind; [apply IH|]. intros deps. apply adds_ret.
    + apply adds_bind; [|intros; apply adds_ret].
      eapply adds_weaken;
        [apply shallowCall_resolverCall | apply adds_importManyWithoutDependencies].
Qed.

(** X1: whatever the store and the remote do, [importMany],
    [importManyWithAllVersions] and [importDependencies] only ever append to the trace fetches of a non-empty
    grouping without a request type and write-backs for a non-empty list of
    identifiers: no raw insert, no flush, no lane sync, no empty request. *)
Theorem X1_imports_only_fetch_and_write_back (fuel : nat) (ids : list (option BitId.t))
    (cache persist allDepsVersions : bool) (st : State W) :
  (exists evs,
      trace (snd (importMany scope fuel ids cache persist st)) = trace st ++ evs
      /\ Forall resolverCall evs)
  /\ (exists evs,
        trace (snd (importManyWithAllVersions scope fuel ids cache allDepsVersions st))
        = trace st ++ evs
        /\ Forall resolverCall evs)
  /\ (exists evs,
        trace (snd (importDependencies scope fuel ids st)) = trace st ++ evs
        /\ Forall resolverCall evs)
  /\ (forall e, resolverCall e ->
        match e with
        | EvFetch grouped opts _ => grouped <> ∅ /\ fo_type opts = None
        | EvWrite _ _ written => written <> []
        | EvAddMany _ | EvPersist | EvSyncLane _ _ => False
        end).
Proof.
  split; [apply adds_importMany|].
  split; [apply adds_importManyWithAllVersions|].
  split; [|intros e; destruct e; simpl; tauto].
  unfold importDependencies. apply adds_catch; [apply adds_importMany|].
  intros e. destruct (passesThrough e); apply adds_throw.
Qed.






(** ** Closures and the identifiers they answer *)

Lemma expansion_component fuel :
  (forall component id st vd st',
      componentToVersionDependencies scope fuel component id st = (Ret vd, st') ->
      VersionDependencies.sourceScope vd = BitId.scope id
      /\ exists c s,
           follows st s /\ follows s st'
           /\ (s = st /\ c = component \/ sources_get scope (world s) id = Some c)
           /\ is_Some (getVersion scope (world s) (toComponentVersion c (BitId.version id)))
           /\ VersionDependencies.component vd = toComponentVersion c (BitId.version id))
  /\ (forall id localFetch st vd st',
        _getExternal scope fuel id localFetch st = (Ret vd, st') ->
        VersionDependencies.sourceScope vd = BitId.scope id
        /\ exists c s,
             follows st s /\ follows s st'
             /\ sources_get scope (world s) id = Some c
             /\ is_Some (getVersion scope (world s)
                                    (toComponentVersion c (BitId.version id)))
             /\ VersionDependencies.component vd = toComponentVersion c (BitId.version id)).
Proof.
  induction fuel as [|fuel [IHc IHe]]; split; intros until st'; intros Hrun;
    try discriminate.
  - pose proof (performs_follows scope _ _ _ _
                  (proj1 (performs_expansion scope (S fuel)) component id) Hrun)
      as Hfollows.
    cbn [componentToVersionDependencies] in Hrun.
    apply bind_Ret_inv in Hrun as (version & st1 & Hv & Hrun).
    unfold getVersion_m in Hv. injection Hv as <- <-.
    destruct (getVersion scope (world st) _) as [v|] eqn:Ev.
    + apply bind_Ret_inv in Hrun as (deps & s1 & _ & Hrun).
      apply bind_Ret_inv in Hrun as (dev & s2 & _ & Hrun).
      apply bind_Ret_inv in Hrun as (ext & s3 & _ & Hrun).
      apply ret_inv in Hrun as [-> ->]. split; [reflexivity|].
      exists component, st. split; [apply follows_refl|]. split; [exact Hfollows|].
      split; [left; auto|]. split; [rewrite Ev; eauto | reflexivity].
    + destruct (String.eqb _ _); [discriminate|].
      apply IHe in Hrun as (Hs & c & s & F1 & F2 & Hc & Hv & Hcomp).
      split; [exact Hs|]. exists c, s. tauto.
  - cbn [_getExternal] in Hrun.
    apply bind_Ret_inv in Hrun as (component & st1 & Hc & Hrun).
    unfold sources_get_m in Hc. injection Hc as <- <-.
    assert (Hfetch :
              (objectList <- fetch scope (groupByScopeName [id]) opts_undefined None ;;
               writeManyComponentsToModel scope objectList (Some true) [id] ;;;
               _getExternal scope fuel id true) st = (Ret vd, st') ->
              VersionDependencies.sourceScope vd = BitId.scope id
              /\ exists c s,
                   follows st s /\ follows s st'
                   /\ sources_get scope (world s) id = Some c
                   /\ is_Some (getVersion scope (world s)
                                          (toComponentVersion c (BitId.version id)))
                   /\ VersionDependencies.component vd
                      = toComponentVersion c (BitId.version id)).
    { intros H.
      apply bind_Ret_inv in H as (ol & s1 & Hf & H).
      apply bind_Ret_inv in H as (res & s2 & Hwr & H).
      apply (performs_follows scope _ _ _ _ (performs_fetch scope _ _ _)) in Hf.
      apply (performs_follows scope _ _ _ _ (performs_write scope _ _ _)) in Hwr.
      apply IHe in H as (Hs & c & s & F1 & F2 & Hc & Hv & Hcomp).
      split; [exact Hs|]. exists c, s.
      split; [eauto using follows_trans | tauto]. }
    destruct (sources_get scope (world st) id) as [c|] eqn:Ec; [|exact (Hfetch Hrun)].
    destruct localFetch; [|exact (Hfetch Hrun)].
    apply IHc in Hrun as (Hs & c' & s & F1 & F2 & Hd & Hv & Hcomp).
    split; [exact Hs|]. exists c', s.
    split; [exact F1|]. split; [exact F2|]. split; [|tauto].
    destruct Hd as [[-> ->]|Hd]; assumption.
Qed.

(** X3: a closure that [componentToVersionDependencies] or [_getExternal]
    returns carries the scope of the identifier it was requested for, and
    the component version that [toComponentVersion] gives for the requested
    version on a record whose content of that version is in the store in a
    state of the run: the record of the call, in the state in which the call
    starts, or, on the path of the forced re-fetch and for [_getExternal],
    the record that the store holds for the identifier in a later state. *)
Theorem X3_closure_answers_its_identifier (fuel : nat) (component : ModelComponent.t)
    (id : BitId.t) (localFetch : bool) (st : State W) :
  (forall vd st',
      componentToVersionDependencies scope fuel component id st = (Ret vd, st') ->
      VersionDependencies.sourceScope vd = BitId.scope id
      /\ exists c s,
           follows st s /\ follows s st'
           /\ (s = st /\ c = component \/ sources_get scope (world s) id = Some c)
           /\ is_Some (getVersion scope (world s) (toComponentVersion c (BitId.version id)))
           /\ VersionDependencies.component vd = toComponentVersion c (BitId.version id))
  /\ (forall vd st',
        _getExternal scope fuel id localFetch st = (Ret vd, st') ->
        VersionDependencies.sourceScope vd = BitId.scope id
        /\ exists c s,
             follows st s /\ follows s st'
             /\ sources_get scope (world s) id = Some c
             /\ is_Some (getVersion scope (world s)
                                    (toComponentVersion c (BitId.version id)))
             /\ VersionDependencies.component vd = toComponentVersion c (BitId.version id)).
Proof.
  split; intros vd st' Hrun.
  - eapply (proj1 (expansion_component fuel)). exact Hrun.
  - eapply (proj2 (expansion_component fuel)). exact Hrun.
Qed.

Lemma closesWithin_mono (st1 st2 st3 st4 : State W) id vd :
  follows st1 st2 -> follows st3 st4 ->
  closesWithin scope st2 st3 id vd -> closesWithin scope st1 st4 id vd.
Proof.
  intros F1 F2 (Hs & c & s & G1 & G2 & Hc & Hcv).
  split; [exact Hs|]. exists c, s.
  repeat split; eauto using follows_trans.
Qed.

Lemma expansion_closes fuel c id (st0 st : State W) vd st' :
  sources_get scope (world st0) id = Some c ->
  follows st0 st ->
  componentToVersionDependencies scope fuel c id st = (Ret vd, st') ->
  closesWithin scope st0 st' id vd.
Proof.
  intros Hc F0 Hrun.
  apply (proj1 (expansion_component fuel)) in Hrun
    as (Hs & c' & s & F1 & F2 & Hd & _ & Hcomp).
  split; [exact Hs|]. destruct Hd as [[-> ->]|Hd].
  - exists c, st0. repeat split; eauto using follows_refl, follows_trans.
  - exists c', s. repeat split; eauto using follows_trans.
Qed.

Lemma mapSeries_closes (I : W -> Prop) (f : ComponentDef -> M W VersionDependencies.t)
    (fuel : nat) :
  writeBacksReturnIds scope I ->
  (forall id c, f (mkDef id (Some c)) = componentToVersionDependencies scope fuel c id) ->
  (forall id s b s', f (mkDef id None) s <> (Ret b, s')) ->
  forall (st0 : State W) ids st r st',
    I (world st) -> follows st0 st ->
    mapSeries f (List.map (fun id => mkDef id (sources_get scope (world st0) id)) ids) st
    = (Ret r, st') ->
    I (world st') /\ follows st st' /\ Forall2 (closesWithin scope st0 st') ids r.
Proof.
  intros Hw Hsome Hnone st0.
  induction ids as [|id ids IH]; intros st r st' HI F0 Hrun; simpl in Hrun.
  - apply ret_inv in Hrun as [-> ->]. repeat split; [exact HI | apply follows_refl | constructor].
  - apply bind_Ret_inv in Hrun as (y & s1 & Hy & Hrun).
    apply bind_Ret_inv in Hrun as (ys & s2 & Hys & Hrun).
    apply ret_inv in Hrun as [-> ->].
    destruct (sources_get scope (world st0) id) as [c|] eqn:Ec;
      [|exfalso; exact (Hnone _ _ _ _ Hy)].
    rewrite Hsome in Hy.
    pose proof (performs_follows scope _ _ _ _
                  (proj1 (performs_expansion scope fuel) c id) Hy) as F1.
    pose proof (expansion_closes fuel c id st0 st y s1 Ec F0 Hy) as Hcl.
    apply (proj1 (expansion_closure scope I Hw fuel)) in Hy as [HI1 _]; [|exact HI].
    apply IH in Hys as (HI2 & F2 & Hall); [|exact HI1 | eauto using follows_trans].
    split; [exact HI2|]. split; [eauto using follows_trans|].
    constructor; [|exact Hall].
    eapply closesWithin_mono; [apply follows_refl | exact F2 | exact Hcl].
Qed.

Lemma getExternalMany_closes (I : W -> Prop) :
  writeBacksReturnIds scope I ->
  forall fuel ids localFetch persist st r st',
    I (world st) ->
    _getExternalMany scope fuel ids localFetch persist st = (Ret r, st') ->
    Forall2 (closesWithin scope st st') ids r.
Proof.
  intros Hw. induction fuel as [|fuel IH]; intros ids localFetch persist st r st' HI Hrun.
  - discriminate.
  - cbn [_getExternalMany] in Hrun.
    destruct ids as [|id ids]; cbn [isEmpty] in Hrun.
    { apply ret_inv in Hrun as [-> _]. constructor. }
    apply bind_Ret_inv in Hrun as (defs & st1 & Hdefs & Hrun).
    injection Hdefs as <- <-.
    destruct (Nat.eqb _ 0).
    + change (mapSeries (defToVersionDependencies scope (S fuel))
                (List.map (fun i => mkDef i (sources_get scope (world st) i)) (id :: ids)) st
              = (Ret r, st')) in Hrun.
      eapply (mapSeries_closes I (defToVersionDependencies scope (S fuel)) (S fuel)) in Hrun;
        [apply Hrun | exact Hw | reflexivity | discriminate | exact HI | apply follows_refl].
    + apply (fetch_write_Ret scope I) in Hrun as (st2 & HI2 & F2 & Hrun);
        [|exact Hw | exact HI].
      eapply Forall2_impl; [eapply IH; eassumption|].
      intros x y Hxy.
      eapply closesWithin_mono; [exact F2 | apply follows_refl | exact Hxy].
Qed.

Lemma importMany_closes (I : W -> Prop) (fuel : nat) (ids : list (option BitId.t))
    (cache persist : bool) (st st' : State W) (r : list VersionDependencies.t) :
  writeBacksReturnIds scope I ->
  I (world st) ->
  importMany scope fuel ids cache persist st = (Ret r, st') ->
  Forall2 (closesWithin scope st st') (localsFirst scope (removeNils ids)) r
  /\ ~ In None ids.
Proof.
  intros Hw HI Hrun. unfold importMany in Hrun.
  apply bind_Ret_inv in Hrun as (str & st0 & Hstr & Hrun).
  apply idsToString_Ret_inv in Hstr as [-> Hnil]. split; [|exact Hnil].
  unfold localsFirst.
  destruct (removeNils ids) as [|id l] eqn:E; cbn [isEmpty] in Hrun.
  { apply ret_inv in Hrun as [-> _]. constructor. }
  rewrite partition_as_filter in Hrun.
  apply bind_Ret_inv in Hrun as (defs & st1 & Hdefs & Hrun).
  injection Hdefs as <- <-.
  apply bind_Ret_inv in Hrun as (vds & st2 & Hvds & Hrun).
  apply bind_Ret_inv in Hrun as (ext & st3 & Hext & Hrun).
  apply ret_inv in Hrun as [-> ->].
  apply (mapSeries_closes I (localDefToVersionDependencies scope fuel) fuel Hw) in Hvds
    as (HI2 & F2 & Hlocals);
    [|reflexivity | discriminate | exact HI | apply follows_refl].
  pose proof (performs_follows scope _ _ _ _
                (performs_getExternalMany scope fuel _ cache persist) Hext) as F3.
  apply (getExternalMany_closes I Hw) in Hext; [|exact HI2].
  apply Forall2_app.
  - eapply Forall2_impl; [exact Hlocals|]. intros x y Hxy.
    eapply closesWithin_mono; [apply follows_refl | exact F3 | exact Hxy].
  - eapply Forall2_impl; [exact Hext|]. intros x y Hxy.
    eapply closesWithin_mono; [exact F2 | apply follows_refl | exact Hxy].
Qed.

(** One result per identifier: a request that returns holds no nil entry
    and, the write-backs of fetched batches returning the identifiers they
    were given, has as many results as identifiers. *)
Lemma importMany_one_result_per_id (I : W -> Prop) (fuel : nat)
    (ids : list (option BitId.t)) (cache persist : bool) (st st' : State W)
    (r : list VersionDependencies.t) :
  writeBacksReturnIds scope I ->
  I (world st) ->
  importMany scope fuel ids cache persist st = (Ret r, st') ->
  length r = length ids /\ List.map Some (removeNils ids) = ids.
Proof.
  intros Hw HI Hrun.
  apply (importMany_closes I) in Hrun as [Hall Hnil]; [|exact Hw | exact HI].
  assert (Hids : List.map Some (removeNils ids) = ids).
  { clear -Hnil. induction ids as [|[x|] ids IH]; simpl.
    - reflexivity.
    - f_equal. apply IH. intros H. apply Hnil. now right.
    - exfalso. apply Hnil. now left. }
  split; [|exact Hids].
  apply Forall2_length in Hall. rewrite <- Hall. unfold localsFirst.
  rewrite length_app.
  pose proof (partition_as_filter (BitId.isLocal (name scope)) (removeNils ids)) as Hp.
  apply partition_length in Hp.
  assert (Hlen : length ids = length (removeNils ids))
    by (rewrite <- Hids at 1; apply length_map).
  lia.
Qed.


(** ** Local identifiers without a record *)

Lemma mapSeries_not_Ret {A B} (f : A -> M W B) (l : list A) (x : A) :
  In x l ->
  (forall st b st', f x st <> (Ret b, st')) ->
  forall st r st', mapSeries f l st <> (Ret r, st').
Proof.
  induction l as [|a l IH]; intros Hin Hx st r st' Hrun; [destruct Hin|].
  simpl in Hrun.
  apply bind_Ret_inv in Hrun as (y & st1 & Ha & Hrun).
  apply bind_Ret_inv in Hrun as (ys & st2 & Hl & _).
  destruct Hin as [->|Hin]; [exact (Hx _ _ _ Ha) | exact (IH Hin Hx _ _ _ Hl)].
Qed.

(** X5: no partial result.  If a locally-owned identifier of the request has
    no record in the local store when the import starts, neither [importMany]
    nor [importManyWithoutDependencies] returns a result, whatever the other
    identifiers, the flags, the fuel and the remote. *)
Theorem X5_missing_local_record_fails_the_import (ids : list (option BitId.t))
    (id : BitId.t) (st : State W) :
  In (Some id) ids ->
  BitId.isLocal (name scope) id = true ->
  sources_get scope (world st) id = None ->
  (forall fuel cache persist r st',
      importMany scope fuel ids cache persist st <> (Ret r, st'))
  /\ (forall fuel cache r st',
        importManyWithoutDependencies scope fuel ids cache st <> (Ret r, st')).
Proof.
  intros Hin Hlocal Hnone.
  assert (Hrn : In id (removeNils ids)) by now apply removeNils_In.
  assert (Hdef : In (mkDef id None)
                    (List.map (fun i => mkDef i (sources_get scope (world st) i))
                              (List.filter (BitId.isLocal (name scope)) (removeNils ids)))).
  { apply in_map_iff. exists id. rewrite Hnone. split; [reflexivity|].
    apply filter_In. auto. }
  split.
  - intros fuel cache persist r st' Hrun. unfold importMany in Hrun.
    apply bind_Ret_inv in Hrun as (str & st0 & Hstr & Hrun).
    apply idsToString_Ret_inv in Hstr as [-> _].
    destruct (removeNils ids) as [|i l] eqn:E; [destruct Hrn|]. cbn [isEmpty] in Hrun.
    rewrite partition_as_filter in Hrun.
    apply bind_Ret_inv in Hrun as (defs & st1 & Hdefs & Hrun).
    injection Hdefs as <- <-.
    apply bind_Ret_inv in Hrun as (vds & st2 & Hvds & _).
    revert Hvds. eapply mapSeries_not_Ret; [exact Hdef|].
    intros s b s'. discriminate.
  - intros fuel cache r st' Hrun. unfold importManyWithoutDependencies, splitBy in Hrun.
    destruct ids as [|o ids']; [destruct Hin|]. cbn [isEmpty] in Hrun.
    destruct (removeNils (o :: ids')) as [|i l] eqn:E; [destruct Hrn|].
    cbn [isEmpty] in Hrun.
    apply bind_Ret_inv in Hrun as (defs & st1 & Hdefs & Hrun).
    injection Hdefs as <- <-.
    apply bind_Ret_inv in Hrun as (cvs & st2 & Hcvs & _).
    revert Hcvs. eapply mapSeries_not_Ret; [exact Hdef|].
    intros s b s'. discriminate.
Qed.

Lemma mapSeries_local_first_missing (w : W) (pre post : list BitId.t) (id : BitId.t)
    (st : State W) :
  allStored scope w pre ->
  sources_get scope w id = None ->
  mapSeries localDefToComponentVersion
            (List.map (fun i => mkDef i (sources_get scope w i)) (pre ++ id :: post)) st
  = (Throw (ComponentNotFound (BitId.toString id)), st).
Proof.
  intros Hpre Hnone. induction pre as [|p pre IH]; simpl.
  - unfold bind at 1, localDefToComponentVersion at 1. simpl. rewrite Hnone. reflexivity.
  - destruct (Hpre p (or_introl eq_refl)) as [c Hc].
    unfold bind at 1, localDefToComponentVersion at 1. simpl. rewrite Hc. simpl.
    unfold bind at 1. rewrite IH; [reflexivity|].
    intros i Hi. apply Hpre. now right.
Qed.

(** X6: the resolution without dependencies checks the local identifiers
    before it turns to the remote.  When the first local identifier of the
    request that has no record is [id], the call fails with
    [ComponentNotFound] for the string form of [id] and leaves the state as
    it was, trace included: no external identifier has been fetched,
    whatever the fuel and the cache flag. *)
Theorem X6_shallow_import_fails_before_any_fetch (fuel : nat)
    (ids : list (option BitId.t)) (cache : bool) (pre post : list BitId.t)
    (id : BitId.t) (st : State W) :
  List.filter (BitId.isLocal (name scope)) (removeNils ids) = pre ++ id :: post ->
  allStored scope (world st) pre ->
  sources_get scope (world st) id = None ->
  importManyWithoutDependencies scope fuel ids cache st
  = (Throw (ComponentNotFound (BitId.toString id)), st).
Proof.
  intros Hlocals Hpre Hnone. unfold importManyWithoutDependencies, splitBy.
  destruct ids as [|o ids'];
    [simpl in Hlocals; destruct pre; discriminate|]. cbn [isEmpty].
  destruct (removeNils (o :: ids')) as [|i l] eqn:E;
    [simpl in Hlocals; destruct pre; discriminate|]. cbn [isEmpty].
  rewrite Hlocals. unfold bind at 1. cbn [sources_getMany fst snd].
  unfold bind at 1. rewrite mapSeries_local_first_missing by assumption. reflexivity.
Qed.

(** ** Imports served from the local store *)

Lemma allStored_filter (w : W) (f : BitId.t -> bool) (ids : list BitId.t) :
  allStored scope w ids -> allStored scope w (List.filter f ids).
Proof. intros H id Hid. apply filter_In in Hid as [Hid _]. now apply H. Qed.

Lemma allStored_cons_inv (w : W) (id : BitId.t) (ids : list BitId.t) :
  allStored scope w (id :: ids) ->
  is_Some (sources_get scope w id) /\ allStored scope w ids.
Proof.
  intros H. split; [apply H; now left | intros i Hi; apply H; now right].
Qed.

Lemma entriesOf_cons_stored (w : W) (id : BitId.t) (c : ModelComponent.t)
    (ids : list BitId.t) :
  sources_get scope w id = Some c ->
  entriesOf scope w (id :: ids)
  = toComponentVersion c (BitId.version id) :: entriesOf scope w ids.
Proof. intros Hc. unfold entriesOf, entryOf. simpl. rewrite Hc. reflexivity. Qed.

Lemma entriesOf_app (w : W) (l1 l2 : list BitId.t) :
  entriesOf scope w (l1 ++ l2) = entriesOf scope w l1 ++ entriesOf scope w l2.
Proof. unfold entriesOf. apply omap_app. Qed.

Lemma entriesOf_length (w : W) (ids : list BitId.t) :
  allStored scope w ids -> length (entriesOf scope w ids) = length ids.
Proof.
  induction ids as [|id ids IH]; intros Hs; [reflexivity|].
  apply allStored_cons_inv in Hs as [[c Hc] Hs].
  rewrite (entriesOf_cons_stored _ _ _ _ Hc). simpl. now rewrite IH.
Qed.

Lemma mapSeries_stored (f : ComponentDef -> M W ComponentVersion.t) (w : W)
    (ids : list BitId.t) (st : State W) :
  (forall id c s,
      f (mkDef id (Some c)) s = (Ret (toComponentVersion c (BitId.version id)), s)) ->
  allStored scope w ids ->
  mapSeries f (List.map (fun i => mkDef i (sources_get scope w i)) ids) st
  = (Ret (entriesOf scope w ids), st).
Proof.
  intros Hf. induction ids as [|id ids IH]; intros Hs; simpl; [reflexivity|].
  apply allStored_cons_inv in Hs as [[c Hc] Hs].
  unfold bind at 1. unfold entriesOf, entryOf in *. simpl. rewrite Hc, Hf. simpl.
  unfold bind at 1. rewrite (IH Hs). reflexivity.
Qed.

Lemma filter_isLeft_stored (w : W) (ids : list BitId.t) :
  allStored scope w ids ->
  List.filter (isLeft true) (List.map (fun i => mkDef i (sources_get scope w i)) ids) = [].
Proof.
  induction ids as [|id ids IH]; intros Hs; simpl; [reflexivity|].
  apply allStored_cons_inv in Hs as [Hc Hs].
  unfold isLeft at 1. simpl. rewrite (bool_decide_eq_true_2 _ Hc). simpl. apply IH, Hs.
Qed.

Lemma getExternalManyWithoutDependencies_stored (fuel : nat) (ids : list BitId.t)
    (st : State W) :
  allStored scope (world st) ids ->
  _getExternalManyWithoutDependencies scope (S fuel) ids true st
  = (Ret (entriesOf scope (world st) ids), st).
Proof.
  intros Hs. cbn [_getExternalManyWithoutDependencies].
  destruct ids as [|id ids]; [reflexivity|]. cbn [isEmpty].
  unfold bind at 1. cbn [sources_getMany fst snd].
  rewrite (filter_isLeft_stored _ _ Hs). cbn [length Nat.eqb].
  apply mapSeries_stored; [reflexivity | exact Hs].
Qed.

Lemma importManyWithoutDependencies_stored (fuel : nat) (ids : list BitId.t)
    (st : State W) :
  allStored scope (world st) ids ->
  importManyWithoutDependencies scope (S fuel) (List.map Some ids) true st
  = (Ret (entriesOf scope (world st) (localsFirst scope ids)), st).
Proof.
  intros Hs. unfold importManyWithoutDependencies, splitBy.
  rewrite removeNils_map_Some.
  destruct ids as [|id ids]; [reflexivity|]. cbn [List.map isEmpty].
  unfold bind at 1. cbn [sources_getMany fst snd].
  unfold bind at 1.
  rewrite (mapSeries_stored localDefToComponentVersion)
    by (try reflexivity; now apply allStored_filter).
  unfold bind at 1.
  rewrite getExternalManyWithoutDependencies_stored by now apply allStored_filter.
  unfold localsFirst, entriesOf. rewrite omap_app. reflexivity.
Qed.

(** X7: with the cache on, a request whose identifiers all have a record in
    the local store is resolved without dependencies from the store alone:
    the state, trace included, is unchanged, and the result is the entry of
    each local identifier in request order, then the entry of each external
    identifier in request order, each for the version that was requested. *)
Theorem X7_shallow_import_from_the_store (fuel : nat) (ids : list (option BitId.t))
    (st : State W) :
  allStored scope (world st) (removeNils ids) ->
  importManyWithoutDependencies scope (S fuel) ids true st
  = (Ret (entriesOf scope (world st) (localsFirst scope (removeNils ids))), st)
  /\ length (entriesOf scope (world st) (localsFirst scope (removeNils ids)))
     = length (removeNils ids).
Proof.
  intros Hs. split.
  - unfold importManyWithoutDependencies, splitBy.
    destruct ids as [|o ids']; [reflexivity|]. cbn [isEmpty].
    destruct (removeNils (o :: ids')) as [|i l] eqn:E; [reflexivity|]. cbn [isEmpty].
    unfold bind at 1. cbn [sources_getMany fst snd].
    unfold bind at 1.
    rewrite (mapSeries_stored localDefToComponentVersion)
      by (try reflexivity; now apply allStored_filter).
    unfold bind at 1.
    rewrite getExternalManyWithoutDependencies_stored by now apply allStored_filter.
    unfold localsFirst, entriesOf. rewrite omap_app. reflexivity.
  - unfold localsFirst. rewrite entriesOf_app, length_app.
    rewrite !entriesOf_length by now apply allStored_filter.
    pose proof (partition_as_filter (BitId.isLocal (name scope)) (removeNils ids)) as Hp.
    apply partition_length in Hp. lia.
Qed.

Lemma componentToVersionDependencies_stored (fuel : nat) (c : ModelComponent.t)
    (id : BitId.t) (v : Version.t) (st : State W) :
  getVersion scope (world st) (toComponentVersion c (BitId.version id)) = Some v ->
  allStored scope (world st) (Version.flattenedDependencies v) ->
  allStored scope (world st) (Version.flattenedDevDependencies v) ->
  allStored scope (world st) (Version.extensionsBitIds v) ->
  componentToVersionDependencies scope (S fuel) c id st
  = (Ret (VersionDependencies.mk
            (toComponentVersion c (BitId.version id))
            (entriesOf scope (world st) (localsFirst scope (Version.flattenedDependencies v)))
            (entriesOf scope (world st)
               (localsFirst scope (Version.flattenedDevDependencies v)))
            (entriesOf scope (world st) (localsFirst scope (Version.extensionsBitIds v)))
            (BitId.scope id)), st).
Proof.
  intros Hv H1 H2 H3. cbn [componentToVersionDependencies].
  unfold bind at 1, getVersion_m. cbn [fst snd]. rewrite Hv.
  unfold bind at 1. rewrite importManyWithoutDependencies_stored by exact H1.
  unfold bind at 1. rewrite importManyWithoutDependencies_stored by exact H2.
  unfold bind at 1. rewrite importManyWithoutDependencies_stored by exact H3.
  reflexivity.
Qed.

Lemma mapSeries_closures (f : ComponentDef -> M W VersionDependencies.t) (fuel : nat)
    (ids : list BitId.t) (st : State W) :
  (forall id c, f (mkDef id (Some c)) = componentToVersionDependencies scope (S fuel) c id) ->
  (forall id, In id ids -> storedWithDependencies scope (world st) id) ->
  mapSeries f (List.map (fun i => mkDef i (sources_get scope (world st) i)) ids) st
  = (Ret (omap (closureOf scope (world st)) ids), st).
Proof.
  intros Hf. induction ids as [|id ids IH]; intros Hs; simpl; [reflexivity|].
  destruct (Hs id (or_introl eq_refl)) as (c & v & Hc & Hv & H1 & H2 & H3).
  unfold bind at 1. rewrite Hc, Hf.
  rewrite (componentToVersionDependencies_stored fuel c id v st Hv H1 H2 H3).
  unfold bind at 1. rewrite IH by (intros i Hi; apply Hs; now right).
  unfold closureOf at 2. rewrite Hc, Hv. reflexivity.
Qed.

(** X8: a second import is served from the local store.  With the cache on,
    when every identifier of the request is stored with its version content
    and a record for each of its flattened dependencies, [importMany] leaves
    the state unchanged, trace included (no fetch, no write-back, whatever
    [persist]), and returns the closure of each local identifier in request
    order, then the closure of each external identifier in request order;
    when the request holds a nil entry it fails, from the same unchanged
    state, on the string form of the request. *)
Theorem X8_import_from_the_store (fuel : nat) (ids : list (option BitId.t))
    (persist : bool) (st : State W) :
  (forall id, In id (removeNils ids) -> storedWithDependencies scope (world st) id) ->
  importMany scope (S fuel) ids true persist st
  = (match BitIds_toString ids with
     | Some _ =>
         Ret (omap (closureOf scope (world st)) (localsFirst scope (removeNils ids)))
     | None => Throw (TypeError "Cannot read property 'toString' of null")
     end, st).
Proof.
  intros Hs. unfold importMany. unfold bind at 1, idsToString.
  destruct (BitIds_toString ids); [|reflexivity]. cbn [ret].
  destruct (removeNils ids) as [|i l] eqn:E; [reflexivity|]. cbn [isEmpty].
  rewrite partition_as_filter.
  unfold bind at 1. cbn [sources_getMany fst snd].
  unfold bind at 1.
  rewrite (mapSeries_closures (localDefToVersionDependencies scope (S fuel)) fuel)
    by (try reflexivity; intros id Hid; apply Hs; apply filter_In in Hid; tauto).
  unfold bind at 1.
  assert (Hext : forall id,
             In id (List.filter (fun id => negb (BitId.isLocal (name scope) id)) (i :: l)) ->
             storedWithDependencies scope (world st) id).
  { intros id Hid. apply Hs. apply filter_In in Hid. tauto. }
  set (externals := List.filter _ (i :: l)) in *.
  assert (Hrun : _getExternalMany scope (S fuel) externals true persist st
                 = (Ret (omap (closureOf scope (world st)) externals), st)).
  { cbn [_getExternalMany]. destruct externals as [|e externals']; [reflexivity|].
    cbn [isEmpty]. unfold bind at 1. cbn [sources_getMany fst snd].
    rewrite filter_isLeft_stored.
    - cbn [length Nat.eqb].
      apply (mapSeries_closures (defToVersionDependencies scope (S fuel)) fuel);
        [reflexivity | exact Hext].
    - intros id Hid. destruct (Hext id Hid) as (c & v & Hc & _). rewrite Hc. eauto. }
  rewrite Hrun. unfold localsFirst. rewrite omap_app. reflexivity.
Qed.

(** ** What is asked from the remote, and how often *)

Lemma left_is_missing (w : W) (ids : list BitId.t) :
  List.map def_id
    (List.filter (isLeft true) (List.map (fun i => mkDef i (sources_get scope w i)) ids))
  = missingIds scope w ids.
Proof.
  unfold missingIds. induction ids as [|id ids IH]; simpl; [reflexivity|].
  unfold isLeft at 1. simpl.
  destruct (negb (bool_decide (is_Some (sources_get scope w id)))); simpl; now rewrite IH.
Qed.

Lemma missingIds_In (w : W) (ids : list BitId.t) (id : BitId.t) :
  In id (missingIds scope w ids) <-> In id ids /\ sources_get scope w id = None.
Proof.
  unfold missingIds. rewrite filter_In, negb_true_iff, bool_decide_eq_false.
  split; intros [H1 H2]; (split; [exact H1|]).
  - destruct (sources_get scope w id); [exfalso; apply H2; eauto | reflexivity].
  - rewrite H2. intros [c Hc]. discriminate.
Qed.

(** X9: with the cache on, a resolver asks the remote only for what the local
    store lacks.  When some requested identifiers have no record, the first
    call across the boundary of [_getExternalMany], and of
    [_getExternalManyWithoutDependencies], is a fetch whose grouping is built
    from exactly the requested identifiers without a record, while its
    context names every requested identifier. *)
Theorem X9_only_missing_ids_are_fetched (fuel : nat) (ids : list BitId.t)
    (persist : bool) (st : State W) :
  missingIds scope (world st) ids <> [] ->
  (exists evs,
      trace (snd (_getExternalMany scope (S fuel) ids true persist st))
      = trace st ++ EvFetch (groupByScopeName (missingIds scope (world st) ids))
                            opts_undefined (Some (List.map BitId.toString ids)) :: evs)
  /\ (exists evs,
        trace (snd (_getExternalManyWithoutDependencies scope (S fuel) ids true st))
        = trace st ++ EvFetch (groupByScopeName (missingIds scope (world st) ids))
                              opts_withoutDependencies
                              (Some (List.map BitId.toString ids)) :: evs)
  /\ (forall id, In id (missingIds scope (world st) ids) <->
                 In id ids /\ sources_get scope (world st) id = None).
Proof.
  intros Hmissing.
  assert (Hne : ids <> []) by (intros ->; apply Hmissing; reflexivity).
  assert (Hleft : List.filter (isLeft true)
                    (List.map (fun i => mkDef i (sources_get scope (world st) i)) ids)
                  <> []).
  { intros Hnil. apply Hmissing. rewrite <- left_is_missing, Hnil. reflexivity. }
  split; [|split; [|apply missingIds_In]].
  - rewrite <- left_is_missing.
    apply (getExternalMany_fetches_grouped scope fuel ids true persist st Hne Hleft).
  - change (emits (_getExternalManyWithoutDependencies scope (S fuel) ids true) st st
              (EvFetch (groupByScopeName (missingIds scope (world st) ids))
                       opts_withoutDependencies (Some (List.map BitId.toString ids)))).
    rewrite <- left_is_missing.
    cbn [_getExternalManyWithoutDependencies].
    destruct ids as [|id ids]; [congruence|]. cbn [isEmpty].
    eapply emits_after; [reflexivity|]. cbv beta zeta.
    destruct (List.filter (isLeft true) _) as [|d left'] eqn:E; [congruence|].
    cbn [length Nat.eqb].
    apply emits_bind.
    + unfold emits, fetch.
      destruct (remotes_fetch _ _ _ _ _) as [[e|ol] w']; exists []; reflexivity.
    + intros ol. apply extends_bind; [apply extends_write|].
      intros res. apply extends_getExternalManyWithoutDependencies.
Qed.

(** X10: one round-trip is enough when the write-back stores what was
    missing.  If, after the fetch and the write-back of a round-trip, every
    identifier of the residual has a record, [_getExternalMany] makes no
    further round-trip of its own: it goes on, from the state that the
    write-back left, with the expansion of the residual, one closure per
    identifier. *)
Theorem X10_one_round_trip_when_the_write_back_stores (fuel : nat) (ids : list BitId.t)
    (localFetch persist : bool) (st : State W) (objectList : ObjectList) (w1 w2 : W)
    (res : list BitId.t) :
  let left := List.filter (isLeft localFetch)
                (List.map (fun id => mkDef id (sources_get scope (world st) id)) ids) in
  let grouped := groupByScopeName (List.map def_id left) in
  let context := Some (List.map BitId.toString ids) in
  ids <> [] -> left <> [] ->
  remotes_fetch scope grouped opts_undefined context (world st) = (inr objectList, w1) ->
  scope_writeManyComponentsToModel scope objectList (Some persist) ids w1 = (inr res, w2) ->
  allStored scope w2 res ->
  _getExternalMany scope (S (S fuel)) ids localFetch persist st
  = mapSeries (defToVersionDependencies scope (S fuel))
              (List.map (fun id => mkDef id (sources_get scope w2 id)) res)
              (mkState w2 (trace st ++ [EvFetch grouped opts_undefined context;
                                        EvWrite objectList (Some persist) ids])).
Proof.
  intros left grouped context Hne Hleft Hfetch Hwrite Hstored.
  rewrite (getExternalMany_round_trip scope (S fuel) ids localFetch persist st
             objectList w1 res w2 Hne Hleft Hfetch Hwrite).
  fold left. fold grouped. fold context.
  cbn [_getExternalMany].
  destruct res as [|r res']; [reflexivity|]. cbn [isEmpty].
  unfold bind at 1. cbn [sources_getMany fst snd world].
  rewrite (filter_isLeft_stored _ _ Hstored). reflexivity.
Qed.

(** ** Lanes *)

Lemma mapSeries_sync (lanes : list Lane.t) (st : State W) :
  mapSeries (fun lane => syncWithLaneObject scope (Lane.scope lane) lane) lanes st
  = (Ret (List.map (fun _ => tt) lanes),
     mkState (fold_left (fun w lane =>
                           remoteLanes_syncWithLaneObject scope (Lane.scope lane) lane w)
                        lanes (world st))
             (trace st ++ List.map (fun lane => EvSyncLane (Lane.scope lane) lane) lanes)).
Proof.
  revert st. induction lanes as [|lane lanes IH]; intros st; simpl.
  - rewrite app_nil_r. destruct st; reflexivity.
  - unfold bind at 1. unfold syncWithLaneObject at 1.
    unfold bind at 1. rewrite IH. simpl. rewrite <- app_assoc. reflexivity.
Qed.

(** X11: [importLanes] makes one fetch of type lane for the lane ids grouped
    by scope, and then tells the remote-lane tracking about each lane of the
    answer, once and in the order of the answer; it returns these lanes.
    When the fetch fails it fails with the same error after the fetch alone.
    It never writes components, and it does not check its input: an empty
    list of lane ids is sent to the remote as an empty grouping. *)
Theorem X11_importLanes_fetches_once_and_syncs_each_lane
    (remoteLaneIds : list RemoteLaneId.t) (st : State W) :
  importLanes scope remoteLaneIds st
  = match remotes_fetch scope (groupByScopeName remoteLaneIds) (opts_type "lane") None
                        (world st) with
    | (inl e, w') =>
        (Throw e,
         mkState w' (trace st ++ [EvFetch (groupByScopeName remoteLaneIds)
                                          (opts_type "lane") None]))
    | (inr objectList, w') =>
        (Ret (getLanes objectList),
         mkState (fold_left (fun w lane =>
                               remoteLanes_syncWithLaneObject scope (Lane.scope lane) lane w)
                            (getLanes objectList) w')
                 (trace st ++ EvFetch (groupByScopeName remoteLaneIds) (opts_type "lane") None
                    :: List.map (fun lane => EvSyncLane (Lane.scope lane) lane)
                                (getLanes objectList)))
    end
  /\ groupByScopeName (@nil RemoteLaneId.t) = ∅.
Proof.
  split; [|reflexivity].
  unfold importLanes. unfold bind at 1. unfold fetch at 1.
  destruct (remotes_fetch scope (groupByScopeName remoteLaneIds) (opts_type "lane") None
              (world st)) as [[e|objectList] w']; [reflexivity|].
  unfold bind at 1. rewrite mapSeries_sync. cbn [world trace ret].
  rewrite <- app_assoc. reflexivity.
Qed.

(** X12: [importFromLanes] returns the lanes that its [importLanes] returned,
    and fails as [importLanes] does when that fails, without importing
    anything.  When the fetched lanes refer to no component, nothing else is
    imported: the call ends in the state that [importLanes] left. *)
Theorem X12_importFromLanes_returns_the_fetched_lanes (fuel : nat)
    (remoteLaneIds : list RemoteLaneId.t) (st : State W) :
  (forall lanes st',
      importFromLanes scope fuel remoteLaneIds st = (Ret lanes, st') ->
      exists st1, importLanes scope remoteLaneIds st = (Ret lanes, st1))
  /\ (forall e st1,
        importLanes scope remoteLaneIds st = (Throw e, st1) ->
        importFromLanes scope fuel remoteLaneIds st = (Throw e, st1))
  /\ (forall lanes st1,
        importLanes scope remoteLaneIds st = (Ret lanes, st1) ->
        concat (List.map Lane.toBitIds lanes) = [] ->
        importFromLanes scope (S fuel) remoteLaneIds st = (Ret lanes, st1)).
Proof.
  split; [|split].
  - intros lanes st' Hrun. unfold importFromLanes in Hrun.
    apply bind_Ret_inv in Hrun as (lanes' & st1 & Hlanes & Hrun).
    apply bind_Ret_inv in Hrun as (vds & st2 & _ & Hrun).
    apply ret_inv in Hrun as [-> _]. eauto.
  - intros e st1 Hlanes. unfold importFromLanes, bind at 1. now rewrite Hlanes.
  - intros lanes st1 Hlanes Hnone. unfold importFromLanes, bind at 1.
    rewrite Hlanes, Hnone. reflexivity.
Qed.

(** ** The grouping of a request *)

(** X13: the grouping by scope name is empty only for an empty list, it has
    a group for exactly the scopes of the listed identifiers, every listed
    identifier is in the group of its scope in string form, and every string
    of a group comes from a listed identifier of that scope. *)
Theorem X13_groupByScopeName_keys_and_members {A : Type} `{ScopedId A} (ids : list A) :
  (groupByScopeName ids = ∅ <-> ids = [])
  /\ (forall s, is_Some (groupByScopeName ids !! s) <-> exists id, In id ids /\ scopeOf id = s)
  /\ (forall id, In id ids ->
        exists group, groupByScopeName ids !! scopeOf id = Some group
                      /\ In (idToString id) group)
  /\ (forall s group str,
        groupByScopeName ids !! s = Some group -> In str group ->
        exists id, In id ids /\ scopeOf id = s /\ idToString id = str).
Proof.
  assert (Hof : forall s id, In id (ofScope s ids) <-> In id ids /\ scopeOf id = s).
  { intros s id. unfold ofScope. rewrite filter_In. split; intros [H1 H2]; split; auto.
    - now apply String.eqb_eq.
    - now apply String.eqb_eq. }
  split; [|split; [|split]].
  - split; [|intros ->; reflexivity].
    destruct ids as [|x l]; [reflexivity|]. intros Hempty.
    exfalso. exact (groupByScopeName_nonempty x l Hempty).
  - intros s. rewrite groupByScopeName_lookup. split.
    + destruct (ofScope s ids) as [|x l] eqn:E; [intros [g Hg]; discriminate|].
      intros _. exists x. apply Hof. rewrite E. now left.
    + intros (id & Hid). apply Hof in Hid.
      destruct (ofScope s ids); [destruct Hid | eauto].
  - intros id Hid. rewrite groupByScopeName_lookup.
    assert (Hin : In id (ofScope (scopeOf id) ids)) by (apply Hof; auto).
    destruct (ofScope (scopeOf id) ids) as [|x l] eqn:E; [destruct Hin|].
    eexists. split; [reflexivity|]. now apply in_map.
  - intros s group str Hgroup Hstr. rewrite groupByScopeName_lookup in Hgroup.
    destruct (ofScope s ids) as [|x l] eqn:E; [discriminate|].
    injection Hgroup as <-. change (In str (List.map idToString (x :: l))) in Hstr.
    apply in_map_iff in Hstr as (id & <- & Hid).
    rewrite <- E in Hid. apply Hof in Hid as [H1 H2]. eauto.
Qed.

(** ** The head among all versions *)

(** X14: among the identifiers that multi-version import derives from a
    result, the version that is already resolved comes back exactly when it
    is the head of the record: the listed versions skip it, the head is added
    unchecked. *)
Theorem X14_resolved_version_returns_only_as_head (vd : VersionDependencies.t) :
  let cv := VersionDependencies.component vd in
  In (BitId.changeVersion (ComponentVersion.id cv) (ComponentVersion.version cv))
     (idsWithAllVersions vd)
  <-> ModelComponent.getHead (ComponentVersion.component cv)
      = Some (ComponentVersion.version cv).
Proof.
  intros cv. unfold cv. rewrite idsWithAllVersions_In. split.
  - intros [(v & _ & Hne & Heq)|(h & Hh & Heq)].
    + injection Heq as Heq. congruence.
    + injection Heq as Heq. congruence.
  - intros Hh. right. eauto.
Qed.

(** ** The other versions in shallow mode *)

(** X20: in shallow mode multi-version import returns the closures of its
    first pass and nothing else, and it looks for the other versions with
    the cache on even when the request turned the cache off: when the first
    pass returns and every other version it points to has a record, the call
    ends in the state that the first pass left, without a further fetch. *)
Theorem X20_shallow_all_versions_uses_the_cache (fuel : nat) (ids : list (option BitId.t))
    (cache : bool) (st st1 : State W) (versionDependenciesArr : list VersionDependencies.t) :
  removeNils ids <> [] ->
  importMany scope (S fuel) (List.map Some (removeNils ids)) cache true st
  = (Ret versionDependenciesArr, st1) ->
  allStored scope (world st1) (allIdsWithAllVersions versionDependenciesArr) ->
  importManyWithAllVersions scope (S fuel) ids cache false st
  = (Ret versionDependenciesArr, st1).
Proof.
  intros Hne Hfirst Hstored. cbn [importManyWithAllVersions].
  destruct (removeNils ids) as [|i l] eqn:E; [congruence|]. cbn [isEmpty].
  unfold bind at 1. rewrite Hfirst. cbv zeta.
  unfold bind at 1.
  rewrite (importManyWithoutDependencies_stored fuel _ st1 Hstored). reflexivity.
Qed.

End MoreFacts.

(** * The loaders and the list of preview servers *)

Section LoaderFacts.
Context {W : Type} (scope : Scope W).
Context {ConsumerComponent : Type}.
Context (toConsumer : W -> ComponentVersion.t -> Error + ConsumerComponent).
Local Abbreviation emits := (emits (W:=W)).
Local Abbreviation follows := (follows scope).

(** X15: with [localOnly], [loadComponent] never crosses the boundary of the
    importer and never touches the state, whatever the identifier and the
    fuel: an external identifier is refused with a [GeneralError], a local
    one without a record gives [ComponentNotFound] for its string form, and a
    local one with a record gives what the conversion of its entry gives. *)
Theorem X15_loadComponent_local_only (fuel : nat) (id : BitId.t) (st : State W) :
  loadComponent scope toConsumer fuel id true st
  = (if negb (BitId.isLocal (name scope) id)
     then Throw (GeneralError "cannot load a component from remote scope, please import first")
     else match sources_get scope (world st) id with
          | None => Throw (ComponentNotFound (BitId.toString id))
          | Some c =>
              match toConsumer (world st) (toComponentVersion c (BitId.version id)) with
              | inl e => Throw e
              | inr consumer => Ret consumer
              end
          end,
     st).
Proof.
  unfold loadComponent. cbn [andb].
  destruct (BitId.isLocal (name scope) id) eqn:Hlocal; cbn [negb]; [|reflexivity].
  unfold loadRemoteComponent, _getComponentVersion. rewrite Hlocal. cbn [negb].
  unfold bind, sources_get_m, toConsumer_m. cbn [fst snd].
  destruct (sources_get scope (world st) id) as [c|]; [|reflexivity].
  cbn [ret world].
  destruct (toConsumer (world st) (toComponentVersion c (BitId.version id))); reflexivity.
Qed.

(** X16: a component version that [_getComponentVersion] or
    [_getExternalWithoutDependencies] returns is what [toComponentVersion]
    gives, for the version of the requested identifier, on the record that
    the store holds for that identifier in a state of the run, on every
    path: local lookup, stored external record, or fetch from the remote
    followed by the resolution of the fetched record. *)
Theorem X16_loaded_version_comes_from_the_store (fuel : nat) (id : BitId.t)
    (localFetch : bool) (st : State W) :
  (forall cv st',
      _getComponentVersion scope fuel id st = (Ret cv, st') ->
      exists c s,
        follows st s /\ follows s st'
        /\ sources_get scope (world s) id = Some c
        /\ cv = toComponentVersion c (BitId.version id))
  /\ (forall cv st',
        _getExternalWithoutDependencies scope fuel id localFetch st = (Ret cv, st') ->
        exists c s,
          follows st s /\ follows s st'
          /\ sources_get scope (world s) id = Some c
          /\ cv = toComponentVersion c (BitId.version id)).
Proof.
  assert (Hext : forall lf cv s',
             _getExternalWithoutDependencies scope fuel id lf st = (Ret cv, s') ->
             resolvesWithin scope st s' id cv).
  { intros lf cv s' Hrun. unfold _getExternalWithoutDependencies in Hrun.
    apply bind_Ret_inv in Hrun as (component & s1 & Hc & Hrun).
    unfold sources_get_m in Hc. injection Hc as <- <-.
    assert (Hfetch :
              (objectList <- fetch scope (groupByScopeName [id])
                               opts_withoutDependencies None ;;
               writeManyComponentsToModel scope objectList (Some true) [id] ;;;
               versionDependencies <- _getExternal scope fuel id true ;;
               ret (VersionDependencies.component versionDependencies)) st = (Ret cv, s') ->
              resolvesWithin scope st s' id cv).
    { intros H.
      apply bind_Ret_inv in H as (ol & s2 & Hf & H).
      apply bind_Ret_inv in H as (res & s3 & Hwr & H).
      apply bind_Ret_inv in H as (vd & s4 & Hvd & H).
      apply ret_inv in H as [-> ->].
      apply (performs_follows scope _ _ _ _ (performs_fetch scope _ _ _)) in Hf.
      apply (performs_follows scope _ _ _ _ (performs_write scope _ _ _)) in Hwr.
      apply (proj2 (expansion_component scope fuel)) in Hvd
        as (_ & c & s & F1 & F2 & Hc & _ & Hcomp).
      exists c, s. repeat split; eauto using follows_trans. }
    destruct (sources_get scope (world st) id) as [c|] eqn:Ec; [|exact (Hfetch Hrun)].
    destruct lf; [|exact (Hfetch Hrun)].
    apply ret_inv in Hrun as [-> ->].
    exists c, st. repeat split; eauto using follows_refl. }
  split; [|intros cv st'; apply Hext].
  intros cv st' Hrun. unfold _getComponentVersion in Hrun.
  destruct (negb (BitId.isLocal (name scope) id)); [eapply Hext; exact Hrun|].
  apply bind_Ret_inv in Hrun as (component & s1 & Hc & Hrun).
  unfold sources_get_m in Hc. injection Hc as <- <-.
  destruct (sources_get scope (world st) id) as [c|] eqn:Ec; [|discriminate].
  apply ret_inv in Hrun as [-> ->].
  exists c, st. repeat split; eauto using follows_refl.
Qed.

(** X17: a component that has a record in the local store is found without
    any call across the boundary, whether its identifier is local or
    external: [_getComponentVersion] returns the entry of the record for the
    requested version and leaves the state unchanged. *)
Theorem X17_stored_component_is_found_locally (fuel : nat) (id : BitId.t)
    (c : ModelComponent.t) (st : State W) :
  sources_get scope (world st) id = Some c ->
  _getComponentVersion scope fuel id st
  = (Ret (toComponentVersion c (BitId.version id)), st).
Proof.
  intros Hc. unfold _getComponentVersion, _getExternalWithoutDependencies.
  destruct (negb (BitId.isLocal (name scope) id));
    unfold bind, sources_get_m; cbn [fst snd]; rewrite Hc; reflexivity.
Qed.

(** X18: for an external identifier without a record, the first call of
    [_getComponentVersion] across the boundary is a fetch without
    dependencies whose grouping holds that identifier alone, under its scope;
    when the fetch gives an answer, the next call writes the answer back for
    that identifier with persistence enabled. *)
Theorem X18_missing_external_component_is_fetched_alone (fuel : nat) (id : BitId.t)
    (st : State W) :
  BitId.isLocal (name scope) id = false ->
  sources_get scope (world st) id = None ->
  let request := EvFetch {[ BitId.scope id := [BitId.toString id] ]}
                         opts_withoutDependencies None in
  (exists evs, trace (snd (_getComponentVersion scope fuel id st))
               = trace st ++ request :: evs)
  /\ (forall objectList w',
        remotes_fetch scope {[ BitId.scope id := [BitId.toString id] ]}
                      opts_withoutDependencies None (world st) = (inr objectList, w') ->
        exists evs, trace (snd (_getComponentVersion scope fuel id st))
                    = trace st ++ request :: EvWrite objectList (Some true) [id] :: evs).
Proof.
  intros Hext Hnone request.
  assert (Hg : groupByScopeName [id]
               = ({[ BitId.scope id := [BitId.toString id] ]} : gmap string (list string))).
  { unfold groupByScopeName, groupArray. simpl.
    rewrite lookup_empty. simpl. rewrite fmap_insert, fmap_empty. reflexivity. }
  assert (Hrest : forall (objectList : ObjectList),
             extends (writeManyComponentsToModel scope objectList (Some true) [id] ;;;
                      versionDependencies <- _getExternal scope fuel id true ;;
                      ret (VersionDependencies.component versionDependencies))).
  { intros ol. apply extends_bind; [apply extends_write|]. intros res.
    apply extends_bind; [apply extends_expansion|]. intros vd. apply extends_ret. }
  assert (Hrun : _getComponentVersion scope fuel id st
                 = (objectList <- fetch scope {[ BitId.scope id := [BitId.toString id] ]}
                                    opts_withoutDependencies None ;;
                    writeManyComponentsToModel scope objectList (Some true) [id] ;;;
                    versionDependencies <- _getExternal scope fuel id true ;;
                    ret (VersionDependencies.component versionDependencies)) st).
  { unfold _getComponentVersion, _getExternalWithoutDependencies. rewrite Hext. cbn [negb].
    unfold bind at 1, sources_get_m. cbn [fst snd]. rewrite Hnone, Hg. reflexivity. }
  rewrite Hrun. split.
  - apply (emits_bind (fetch scope _ opts_withoutDependencies None)); [|exact Hrest].
    unfold emits, fetch.
    destruct (remotes_fetch _ _ _ _ _) as [[e|ol] w']; exists []; reflexivity.
  - intros objectList w' Hfetch.
    unfold bind at 1. unfold fetch at 1. rewrite Hfetch.
    unfold bind at 1. unfold writeManyComponentsToModel at 1. cbn [world trace].
    destruct (scope_writeManyComponentsToModel scope objectList (Some true) [id] w')
      as [[e|res] w2].
    + exists []. cbn [snd trace]. rewrite <- app_assoc. reflexivity.
    + set (st2 := mkState w2 _).
      assert (Hk : extends (versionDependencies <- _getExternal scope fuel id true ;;
                            ret (VersionDependencies.component versionDependencies))).
      { apply extends_bind; [apply extends_expansion|]. intros vd. apply extends_ret. }
      destruct (Hk st2) as [evs Hevs]. exists evs. rewrite Hevs.
      unfold st2. cbn [trace]. rewrite <- !app_assoc. reflexivity.
Qed.

End LoaderFacts.

Section PreviewServersFacts.
Import PreviewServers.

Lemma hostOrLocalhost_nonempty (h : option string) : hostOrLocalhost h <> "".
Proof.
  unfold hostOrLocalhost. destruct h as [s|]; [|discriminate].
  destruct (String.eqb_spec s ""); [discriminate | assumption].
Qed.

(** X19: [ComponentPreviewServerStarted] renders nothing for an empty list
    of items, and only then.  Otherwise it renders the headers followed by
    one row per item in the order of the items; the key of the row at
    position [i] is [i], so the keys are distinct, and the address it shows
    is that of the item's server, with the host [localhost] when the item has
    no host or an empty one: the host of a shown address is never empty. *)
Theorem X19_preview_servers_rows (items : list Item) :
  (ComponentPreviewServerStarted items = None <-> items = [])
  /\ (items <> [] ->
      exists rows,
        ComponentPreviewServerStarted items
        = Some (Fragment (ComponentPreviewServerStartedHeaders :: rows))
        /\ length rows = length items
        /\ List.map rowKey rows = List.map Some (seq 0 (length items))
        /\ List.NoDup (List.map rowKey rows)
        /\ List.map rowAddress rows
           = List.map (fun item =>
                         Some ("http://" +:+ hostOrLocalhost (host (server item))
                                 +:+ ":" +:+ port (server item))) items)
  /\ (forall h, hostOrLocalhost h <> ""
                /\ (h = None \/ h = Some "" -> hostOrLocalhost h = "localhost")
                /\ (forall s, h = Some s -> s <> "" -> hostOrLocalhost h = s)).
Proof.
  split; [|split].
  - unfold ComponentPreviewServerStarted. destruct items; simpl; split; congruence.
  - intros Hne. exists (imap row items).
    assert (Hkeys : forall (l : list Item) n,
               List.map rowKey (imap (fun i => row (n + i)) l)
               = List.map Some (seq n (length l))).
    { induction l as [|x l IH]; intros n; [reflexivity|].
      rewrite imap_cons. simpl. rewrite Nat.add_0_r. f_equal.
      rewrite <- (IH (S n)). f_equal. apply imap_ext. intros i y _. simpl.
      f_equal. lia. }
    assert (Haddr : forall (l : list Item) n,
               List.map rowAddress (imap (fun i => row (n + i)) l)
               = List.map (fun item => Some (url item)) l).
    { induction l as [|x l IH]; intros n; [reflexivity|].
      rewrite imap_cons. simpl. f_equal.
      rewrite <- (IH (S n)). f_equal. apply imap_ext. intros i y _. simpl.
      f_equal. lia. }
    split; [|split; [|split; [|split]]].
    + unfold ComponentPreviewServerStarted. destruct items; [congruence | reflexivity].
    + apply length_imap.
    + exact (Hkeys items 0).
    + assert (Hk0 : List.map rowKey (imap row items)
                    = List.map Some (seq 0 (length items))) by exact (Hkeys items 0).
      rewrite Hk0. apply (proj1 (NoDup_ListNoDup _)).
      apply (NoDup_fmap_2 (@Some nat)). apply NoDup_seq.
    + exact (Haddr items 0).
  - intros h. split; [apply hostOrLocalhost_nonempty|]. split.
    + intros [->| ->]; reflexivity.
    + intros s -> Hs. unfold hostOrLocalhost.
      destruct (String.eqb_spec s ""); [contradiction | reflexivity].
Qed.

End PreviewServersFacts.

(** * The statements on the example stores *)

Section OnExamples.
Import Examples.

(** With a remote that answers every fetch with an empty object list, no
    amount of fuel lets [_getExternalMany] end on a request for [bar]. *)
Lemma silentRemote_never_ends (fuel : nat) (tr : list Event) :
  fst (_getExternalMany (Toy.scope self true) fuel [bar] true true
         (mkState (world silentRemote) tr)) = Diverge.
Proof.
  revert tr. induction fuel as [|fuel IH]; intros tr; [reflexivity|].
  erewrite getExternalMany_round_trip;
    [apply IH | discriminate | vm_compute; discriminate | reflexivity | reflexivity].
Qed.

(** C1, refuted on [silentRemote]: the import of the external [bar] neither
    returns nor fails, whatever the fuel; there is no error for the lack of
    progress. *)
Lemma C1_counterexample :
  ~ exists fuel,
      fst (importMany (Toy.scope self true) fuel [Some bar] true true silentRemote)
      <> Diverge.
Proof.
  intros [fuel H]. apply H. clear H.
  pose proof (silentRemote_never_ends fuel []) as Hd.
  change [Some bar] with (List.map Some [bar]).
  rewrite importMany_without_nils. cbn [isEmpty].
  rewrite partition_as_filter.
  cbn [List.filter BitId.isLocal BitId.scope bar self Toy.scope name negb String.eqb
       Ascii.eqb Bool.eqb].
  unfold bind. cbn [sources_getMany List.map mapSeries ret fst snd].
  change (mkState (world silentRemote) []) with silentRemote in Hd.
  destruct (_getExternalMany (Toy.scope self true) fuel [bar] true true silentRemote)
    as [[r|e|] st']; simpl in Hd; try discriminate. reflexivity.
Qed.


(** From [twoAnswers], every round-trip for [bar] and [qux] stores one of
    the two. *)
Lemma twoAnswers_makesProgress (opts : FetchOptions) :
  makesProgress (Toy.scope self true) opts roundTripStates missingCount.
Proof.
  intros persist localFetch w ids w2 res (-> & -> & Hw) (_ & Hleft & ol & w1 & Hfetch & Hwrite).
  cbn [remotes_fetch scope_writeManyComponentsToModel Toy.scope] in Hfetch, Hwrite.
  unfold Toy.write in Hwrite. injection Hwrite as <- <-.
  unfold Toy.fetch in Hfetch.
  destruct Hw as [Hw|[Hw|Hw]]; subst w.
  - injection Hfetch as <- <-.
    split; [split; [reflexivity|]; split; [reflexivity|]; right; left; reflexivity|].
    vm_compute. lia.
  - injection Hfetch as <- <-.
    split; [split; [reflexivity|]; split; [reflexivity|]; right; right; reflexivity|].
    vm_compute. lia.
  - exfalso. apply Hleft. reflexivity.
Defined.

(** The amended C1 on [twoAnswers]: the resolution of [bar] and [qux] takes
    two round-trips, each of which stores one of the two.  With three units
    of fuel the resolution without dependencies returns; the resolution with
    dependencies runs out of fuel, and does so in the expansions of its base
    case, where the dependency of [qux] needs a round-trip of its own. *)
Lemma C1_witness :
  (fst (_getExternalManyWithoutDependencies (Toy.scope self true) 3 [bar; qux] true
          twoAnswers) <> Diverge
   /\ length (List.filter isFetch
                (trace (snd (_getExternalManyWithoutDependencies (Toy.scope self true) 3
                               [bar; qux] true twoAnswers)))) = 2)
  /\ (fst (_getExternalMany (Toy.scope self true) 3 [bar; qux] true false twoAnswers)
      = Diverge
      /\ exists k res st2,
           3 - missingCount (world twoAnswers) [bar; qux] <= k /\ k <= 3
           /\ follows (Toy.scope self true) twoAnswers st2
           /\ _getExternalMany (Toy.scope self true) 3 [bar; qux] true false twoAnswers
              = mapSeries (defToVersionDependencies (Toy.scope self true) k)
                          (defsOf (Toy.scope self true) (world st2) res) st2).
Proof.
  destruct (C1_round_trips_end_when_they_make_progress (Toy.scope self true)
              roundTripStates missingCount 3 [bar; qux] true false twoAnswers)
    as [Hshallow Hdeep].
  - split; [reflexivity|]. split; [reflexivity|]. left. reflexivity.
  - vm_compute. lia.
  - split; [split|split].
    + exact (Hshallow (twoAnswers_makesProgress _)).
    + vm_compute. reflexivity.
    + vm_compute. reflexivity.
    + apply (Hdeep (twoAnswers_makesProgress _)). vm_compute. reflexivity.
Defined.

(** C3, refuted on [fooNeedsBar]: every requested identifier is local, the
    import returns, and the remote has been called for the dependency
    [bar]. *)
Lemma C3_counterexample :
  forallb (BitId.isLocal self) (removeNils [Some foo]) = true
  /\ exists r st',
      importMany (Toy.scope self true) 2 [Some foo] true true fooNeedsBar = (Ret r, st')
      /\ List.filter isFetch (trace st')
         = [EvFetch {[ "other" := ["other/bar@1.0.0"] ]} opts_withoutDependencies
                    (Some ["other/bar@1.0.0"])].
Proof.
  split; [reflexivity|].
  eexists. eexists. split; vm_compute; reflexivity.
Qed.

(** The amended C3 on [fooNeedsBaz]: the import of [foo], whose one
    dependency is local, leaves the state as it was. *)
Lemma C3_witness :
  snd (importMany (Toy.scope self true) 1 [Some foo] true true fooNeedsBaz) = fooNeedsBaz
  /\ fst (importMany (Toy.scope self true) 1 [Some foo] true true fooNeedsBaz) <> Diverge.
Proof.
  apply (C3_local_ids_no_fetch (Toy.scope self true) 0 [Some foo] true true fooNeedsBaz).
  - intros id Hin. vm_compute in Hin. destruct Hin as [<-|[]]. reflexivity.
  - intros id c Hin Hc. vm_compute in Hin. destruct Hin as [<-|[]].
    vm_compute in Hc. injection Hc as <-.
    repeat split; intros d Hd; vm_compute in Hd;
      repeat match goal with H : _ \/ _ |- _ => destruct H | H : False |- _ => destruct H end;
      subst d; reflexivity.
Defined.



(** C5 at its failing input, [partialRemote]: [importMany] is called for
    [bar] and [qux] with [persist = false] and returns.  The first write-back
    is made with the caller's flag; [qux] is still missing after it, and the
    second write-back, made by the recursive call of [_getExternalMany], has
    persistence enabled. *)
Theorem C5_persist_flag_lost_in_recursion :
  exists r st',
    importMany (Toy.scope self true) 3 [Some bar; Some qux] true false partialRemote
    = (Ret r, st')
    /\ List.filter isWrite (trace st')
       = [EvWrite [ObjComponent barRecord; ObjVersion bar noDeps] (Some false) [bar; qux];
          EvWrite [ObjComponent quxRecord; ObjVersion qux noDeps] (Some true) [bar; qux]].
Proof. eexists. eexists. split; vm_compute; reflexivity. Qed.

(** C6 on [fooWithoutContent]: the local [foo] has a record and no version
    content. *)
Lemma C6_witness :
  (BitId.isLocal (name (Toy.scope self true)) foo = true ->
   componentToVersionDependencies (Toy.scope self true) 1 fooRecord foo fooWithoutContent
   = (Throw (ShowDoctorError
               (versionNotFoundMessage (Toy.scope self true)
                  (toComponentVersion fooRecord (BitId.version foo)) fooRecord)),
      fooWithoutContent))
  /\ ModelComponent.scope fooRecord = BitId.scope foo.
Proof.
  split; [|reflexivity].
  apply (C6_missing_version_content (Toy.scope self true) 0 fooRecord foo
           fooWithoutContent); reflexivity.
Defined.

(** C7, refuted on [fooWithoutContent]: the import of the dependency [foo]
    fails because the content of its version is missing, an error without
    an [id]; the wrapper holds no identifier. *)
Lemma C7_counterexample :
  importMany (Toy.scope self true) 1 [Some foo] true true fooWithoutContent
  = (Throw (ShowDoctorError "Version 1.0.0 of me/foo was not found in scope me"),
     fooWithoutContent)
  /\ importDependencies (Toy.scope self true) 1 [Some foo] fooWithoutContent
     = (Throw (DependencyNotFound None), fooWithoutContent).
Proof. split; vm_compute; reflexivity. Qed.

(** C8, refuted on [snapStored]: the record of [snap] has no version tag and
    its head is the version that the import resolves; the identifiers that
    multi-version import derives from the result hold that version again. *)
Lemma C8_counterexample :
  exists vd st',
    importMany (Toy.scope self true) 1 [Some snap] true true snapStored = (Ret [vd], st')
    /\ ComponentVersion.id (VersionDependencies.component vd) = snap
    /\ idsWithAllVersions vd = [snap].
Proof.
  eexists. eexists. split; [vm_compute; reflexivity|].
  split; vm_compute; reflexivity.
Qed.

(** C9, refuted on [silentRemote]: hashes of two scopes are missing, and the
    remote is called once. *)
Lemma C9_counterexample :
  size (groupMissing (Toy.scope self true) (world silentRemote) twoScopes) = 2
  /\ List.filter isFetch
       (trace (snd (importManyObjects (Toy.scope self true) twoScopes silentRemote)))
     = [EvFetch twoScopes (opts_type "object") None].
Proof. split; vm_compute; reflexivity. Qed.

(** C10 on [laneOverStored]: [bar] is fetched although it is stored. *)
Lemma C10_witness :
  exists (st2 : State Toy.World) evs,
    trace (snd (importFromLanes (Toy.scope self true) 1
                  [RemoteLaneId.mk "other" "dev"] laneOverStored))
    = trace st2 ++ EvFetch (groupByScopeName [bar]) opts_undefined
                           (Some (List.map BitId.toString [bar])) :: evs.
Proof.
  eexists.
  refine (proj2 (C10_importFromLanes_bypasses_cache (Toy.scope self true) 0
                   [RemoteLaneId.mk "other" "dev"] laneOverStored _ _
                   [Lane.mk "other" "dev" [bar; foo]] _ _ _ _)).
  - vm_compute. reflexivity.
  - vm_compute. discriminate.
  - vm_compute. reflexivity.
Defined.

End OnExamples.

(** * The further properties on the example stores *)

Section OnMoreExamples.
Import Examples.
Import MoreExamples.

Ltac cases_of H :=
  vm_compute in H;
  repeat match type of H with
         | _ \/ _ => destruct H as [H|H]
         | False => destruct H
         end;
  try subst.

Lemma fooNeedsBarBaz_allStored (ids : list BitId.t) :
  (forall id, In id ids -> In id [foo; bar; baz]) ->
  allStored (Toy.scope self false) (world fooNeedsBarBaz) ids.
Proof.
  intros Hsub id Hid. apply Hsub in Hid. cases_of Hid; vm_compute; eauto.
Defined.


(** X5 on [fooNeedsBar]: [baz] is local and has no record. *)
Lemma X5_witness :
  match fst (importMany (Toy.scope self true) 2 [Some bar; Some foo; Some baz] true true
               fooNeedsBar) with
  | Ret _ => False
  | _ => True
  end.
Proof.
  destruct (importMany (Toy.scope self true) 2 [Some bar; Some foo; Some baz] true true
              fooNeedsBar) as [[r|e|] st'] eqn:E; simpl; [|exact I|exact I].
  revert E.
  apply (X5_missing_local_record_fails_the_import (Toy.scope self true)
           [Some bar; Some foo; Some baz] baz fooNeedsBar).
  - simpl. tauto.
  - reflexivity.
  - reflexivity.
Defined.

(** X6 on [fooNeedsBar]: [foo] is stored, [baz] is the first local
    identifier without a record, and the external [bar] is never asked for. *)
Lemma X6_witness :
  importManyWithoutDependencies (Toy.scope self true) 0
    [Some bar; Some foo; None; Some baz] false fooNeedsBar
  = (Throw (ComponentNotFound "me/baz@2.0.0"), fooNeedsBar).
Proof.
  apply (X6_shallow_import_fails_before_any_fetch (Toy.scope self true) 0
           [Some bar; Some foo; None; Some baz] false [foo] [] baz fooNeedsBar).
  - reflexivity.
  - intros id Hid. cases_of Hid. vm_compute. eauto.
  - reflexivity.
Defined.

(** X7 on [fooNeedsBarBaz]: the local [baz] before the external [bar]. *)
Lemma X7_witness :
  importManyWithoutDependencies (Toy.scope self false) 1 [Some bar; None; Some baz] true
    fooNeedsBarBaz
  = (Ret [toComponentVersion bazRecord "2.0.0"; toComponentVersion barRecord "1.0.0"],
     fooNeedsBarBaz).
Proof.
  apply (X7_shallow_import_from_the_store (Toy.scope self false) 0
           [Some bar; None; Some baz] fooNeedsBarBaz).
  apply fooNeedsBarBaz_allStored. intros id Hid. cases_of Hid; simpl; tauto.
Defined.

(** X8 on [fooNeedsBarBaz]: [foo] and [bar] come from the store. *)
Lemma X8_witness :
  exists r,
    importMany (Toy.scope self false) 1 [Some bar; Some foo] true false fooNeedsBarBaz
    = (Ret r, fooNeedsBarBaz)
    /\ length r = 2.
Proof.
  eexists. split.
  - apply (X8_import_from_the_store (Toy.scope self false) 0 [Some bar; Some foo] false
             fooNeedsBarBaz).
    intros id Hid. cases_of Hid.
    + exists barRecord, noDeps.
      split; [reflexivity|]. split; [reflexivity|].
      split; [|split]; intros d Hd; cases_of Hd.
    + exists fooRecord, (Version.mk [bar; baz] [] []).
      split; [reflexivity|]. split; [reflexivity|].
      split; [|split]; intros d Hd; cases_of Hd; vm_compute; eauto.
  - vm_compute. reflexivity.
Defined.

(** X9 on [barStored]: of [bar] and [qux] only [qux] is asked for. *)
Lemma X9_witness :
  exists evs,
    trace (snd (_getExternalMany (Toy.scope self true) 1 [bar; qux] true true barStored))
    = EvFetch {[ "third" := ["third/qux@0.1.0"] ]} opts_undefined
              (Some ["other/bar@1.0.0"; "third/qux@0.1.0"]) :: evs.
Proof.
  destruct (X9_only_missing_ids_are_fetched (Toy.scope self true) 0 [bar; qux] true
              barStored) as [[evs Hevs] _].
  - vm_compute. discriminate.
  - exists evs. rewrite Hevs. vm_compute. reflexivity.
Defined.

(** X10 on [barStored]: after one round-trip [bar] and [qux] are stored. *)
Lemma X10_witness :
  exists r st',
    _getExternalMany (Toy.scope self true) 2 [bar; qux] true false barStored = (Ret r, st')
    /\ List.filter isFetch (trace st')
       = [EvFetch {[ "third" := ["third/qux@0.1.0"] ]} opts_undefined
                  (Some ["other/bar@1.0.0"; "third/qux@0.1.0"])].
Proof.
  eexists. eexists.
  rewrite (X10_one_round_trip_when_the_write_back_stores (Toy.scope self true) 0
             [bar; qux] true false barStored
             [ObjComponent quxRecord; ObjVersion qux noDeps]
             (Toy.mkWorld [barRecord] [(bar, noDeps)] [] [] 0 [])
             (Toy.mkWorld [quxRecord; barRecord] [(qux, noDeps); (bar, noDeps)] [] [] 0 [])
             [bar; qux]).
  - split; vm_compute; reflexivity.
  - discriminate.
  - vm_compute. discriminate.
  - vm_compute. reflexivity.
  - vm_compute. reflexivity.
  - intros id Hid. cases_of Hid; vm_compute; eauto.
Defined.

(** X17 on [fooNeedsBarBaz]: the external [bar] is stored. *)
Lemma X17_witness :
  _getComponentVersion (Toy.scope self true) 0 bar fooNeedsBarBaz
  = (Ret (toComponentVersion barRecord "1.0.0"), fooNeedsBarBaz).
Proof.
  apply (X17_stored_component_is_found_locally (Toy.scope self true) 0 bar barRecord
           fooNeedsBarBaz).
  reflexivity.
Defined.

(** X18 on [barStored]: the external [qux] is not stored. *)
Lemma X18_witness :
  exists evs,
    trace (snd (_getComponentVersion (Toy.scope self true) 2 qux barStored))
    = EvFetch {[ "third" := ["third/qux@0.1.0"] ]} opts_withoutDependencies None :: evs.
Proof.
  destruct (X18_missing_external_component_is_fetched_alone (Toy.scope self true) 2 qux
              barStored) as [[evs Hevs] _].
  - reflexivity.
  - reflexivity.
  - exists evs. exact Hevs.
Defined.

(** X20 on [fooNeedsBarBaz]: the other versions of [foo] are stored, and the
    cache is off. *)
Lemma X20_witness :
  exists r,
    importManyWithAllVersions (Toy.scope self false) 1 [Some foo] false false fooNeedsBarBaz
    = (Ret r, fooNeedsBarBaz)
    /\ length r = 1.
Proof.
  eexists. split.
  - eapply (X20_shallow_all_versions_uses_the_cache (Toy.scope self false) 0 [Some foo]
              false fooNeedsBarBaz).
    + discriminate.
    + vm_compute. reflexivity.
    + intros id Hid. cases_of Hid; vm_compute; eauto.
  - reflexivity.
Defined.

End OnMoreExamples.
